(** * Verification of the moleculer-database MongoDB adapter and its
      Snowflake identifier generator

    The development embeds [src/snowflake.js] and the query, write and
    connection paths of [src/adapters/mongodb.js] as Rocq functions and
    proves (or refutes at concrete inputs) the properties stated for them. *)

From Stdlib Require Import ZArith List Ascii String Lia Bool Sorted.
From stdpp Require Import base option gmap strings.
Import ListNotations.

Set Warnings "-register-all".

Local Open Scope Z_scope.

(** ** JavaScript primitives used by the sources *)

Module JS.

(** A JavaScript string is a sequence of code units; every string the
    sources build stays in the Latin-1 range, so a code unit is an [ascii]. *)
Abbreviation jstring := (list ascii).

Definition lit (s : string) : jstring := list_ascii_of_string s.

(** The Number values the sources compute are integers, [NaN] or an
    infinity.  Integers are kept exact in [Z]; where a value can leave the
    range in which a double is exact ([parseInt] of a long digit string) the
    rounding is applied explicitly with [round_double]. *)
Inductive jsnum : Type :=
  | NaN
  | Inf (negative : bool)
  | Num (z : Z).

(** What a thrown JavaScript value is, as far as the sources distinguish. *)
Inductive error : Type :=
  | TypeError
  | Error (message : string)
  | DriverError (code : string).

(** The outcome of a call that can throw. *)
Inductive outcome (A : Type) : Type :=
  | Ret (a : A)
  | Throw (e : error).
Arguments Ret {A} a.
Arguments Throw {A} e.

Definition code (c : ascii) : Z := Z.of_nat (nat_of_ascii c).
Definition chr (z : Z) : ascii := ascii_of_nat (Z.to_nat z).

(** [Number.prototype.toString(radix)] on one digit value below 36. *)
Definition digit_char (d : Z) : ascii :=
  if d <? 10 then chr (48 + d) else chr (87 + d).

(** The value of a code unit read as a digit, in any radix up to 36. *)
Definition char_digit (c : ascii) : option Z :=
  let k := code c in
  if (48 <=? k) && (k <=? 57) then Some (k - 48)
  else if (97 <=? k) && (k <=? 122) then Some (k - 87)
  else if (65 <=? k) && (k <=? 90) then Some (k - 55)
  else None.

(** Round-to-nearest, ties-to-even, of a non-negative integer to the 53-bit
    significand of a double. *)
Definition round_pos (n : Z) : Z :=
  let e := Z.log2 n in
  if e <? 53 then n
  else
    let sh := e - 52 in
    let q := n / 2 ^ sh in
    let r := n mod 2 ^ sh in
    let half := 2 ^ (sh - 1) in
    if r <? half then q * 2 ^ sh
    else if half <? r then (q + 1) * 2 ^ sh
    else if Z.even q then q * 2 ^ sh else (q + 1) * 2 ^ sh.

(** The Number nearest to the integer [n]; beyond the largest double it is
    an infinity. *)
Definition round_double (n : Z) : jsnum :=
  let m := round_pos (Z.abs n) in
  if 2 ^ 1024 <=? m then Inf (n <? 0) else Num (Z.sgn n * m).

(** [String.prototype.substring(start, end)]: both indices are clamped to
    [0 .. length] and swapped when out of order. *)
Definition clamp (len i : Z) : Z := Z.max 0 (Z.min i len).

Definition substring (s : jstring) (i j : Z) : jstring :=
  let len := Z.of_nat (length s) in
  let a := clamp len i in
  let b := clamp len j in
  let lo := Z.min a b in
  let hi := Z.max a b in
  firstn (Z.to_nat (hi - lo)) (skipn (Z.to_nat lo) s).

(** [substring(start)] with the end left out. *)
Definition substring_from (s : jstring) (i : Z) : jstring :=
  substring s i (Z.of_nat (length s)).

(** [String.prototype.padStart(n, c)] with a one-character filler. *)
Definition padStart (s : jstring) (n : Z) (c : ascii) : jstring :=
  repeat c (Z.to_nat (n - Z.of_nat (length s))) ++ s.

Definition lower_char (c : ascii) : ascii :=
  let k := code c in
  if ((65 <=? k) && (k <=? 90))
     || ((192 <=? k) && (k <=? 222) && negb (k =? 215))
  then chr (k + 32) else c.

Definition toLowerCase (s : jstring) : jstring := map lower_char s.

Definition is_ws (c : ascii) : bool :=
  let k := code c in
  ((9 <=? k) && (k <=? 13)) || (k =? 32) || (k =? 160).

Fixpoint skip_ws (s : jstring) : jstring :=
  match s with
  | c :: r => if is_ws c then skip_ws r else s
  | [] => []
  end.

(** The longest prefix of [s] made of digits of [radix], as a number;
    [acc] is [None] until the first digit has been read. *)
Fixpoint parse_digits (radix : Z) (s : jstring) (acc : option Z) : option Z :=
  match s with
  | [] => acc
  | c :: r =>
      match char_digit c with
      | Some d =>
          if d <? radix
          then parse_digits radix r (Some (default 0 acc * radix + d))
          else acc
      | None => acc
      end
  end.

Definition strip_0x (s : jstring) : option jstring :=
  match s with
  | c0 :: c1 :: r =>
      if (code c0 =? 48) && ((code c1 =? 120) || (code c1 =? 88))
      then Some r else None
  | _ => None
  end.

(** [parseInt(s, radix)]; [radix = None] is the one-argument call. *)
Definition parseInt (s : jstring) (radix : option Z) : jsnum :=
  let s := skip_ws s in
  let '(neg, s) :=
    match s with
    | c :: r =>
        if code c =? 45 then (true, r)
        else if code c =? 43 then (false, r) else (false, s)
    | [] => (false, s)
    end in
  let r0 := default 0 radix in
  if negb (r0 =? 0) && ((r0 <? 2) || (36 <? r0)) then NaN
  else
    let '(r1, s) :=
      if (r0 =? 0) || (r0 =? 16)
      then match strip_0x s with
           | Some s' => (16, s')
           | None => (if r0 =? 0 then 10 else r0, s)
           end
      else (r0, s) in
    match parse_digits r1 s None with
    | None => NaN
    | Some v => round_double (if neg then - v else v)
    end.

(** The digits of a positive integer, most significant first, pushed in
    front of [acc]; [fuel] bounds the number of digits. *)
Fixpoint digits_of (fuel : nat) (radix n : Z) (acc : jstring) : jstring :=
  match fuel with
  | O => acc
  | S f =>
      if n =? 0 then acc
      else digits_of f radix (n / radix) (digit_char (n mod radix) :: acc)
  end.

Definition bits (n : Z) : nat := S (Z.to_nat (Z.log2 n)).

(** [Number.prototype.toString(radix)] on an integer. *)
Definition int_to_string (radix n : Z) : jstring :=
  if n =? 0 then lit "0"
  else if n <? 0 then lit "-" ++ digits_of (bits (- n)) radix (- n) []
  else digits_of (bits n) radix n [].

Definition num_to_string (radix : Z) (x : jsnum) : jstring :=
  match x with
  | NaN => lit "NaN"
  | Inf neg => if neg then lit "-Infinity" else lit "Infinity"
  | Num z => int_to_string radix z
  end.

(** The remainder operator [%] on Numbers. *)
Definition js_rem (x : jsnum) (m : Z) : jsnum :=
  match x with
  | Num z => if m =? 0 then NaN else Num (Z.rem z m)
  | _ => NaN
  end.

(** Addition of an integer constant. *)
Definition js_add (x : jsnum) (k : Z) : jsnum :=
  match x with
  | Num z => round_double (z + k)
  | other => other
  end.

(** [ToInt32], the conversion applied by the bitwise operators. *)
Definition to_int32 (z : Z) : Z := (z + 2 ^ 31) mod 2 ^ 32 - 2 ^ 31.

(** Comparison of strings with [<]: lexicographic on code units. *)
Fixpoint str_ltb (s t : jstring) : bool :=
  match s, t with
  | _, [] => false
  | [], _ :: _ => true
  | c :: s', d :: t' =>
      if code c <? code d then true
      else if code c =? code d then str_ltb s' t' else false
  end.

End JS.

(** ** The identifier generator, [src/snowflake.js] *)

Module Snowflake.
Import JS.

(** *** Digit-array arithmetic

    A number is an array of digits, least significant first. *)

(** The iterations of the loop of [add] that run after both arrays are
    exhausted, while [carry] is non-zero.  [%] is the truncating
    remainder and [Math.floor(zi / base)] the floor quotient. *)
Fixpoint add_carry (fuel : nat) (carry base : Z) : list Z :=
  match fuel with
  | O => []
  | S f =>
      if carry =? 0 then []
      else Z.rem carry base :: add_carry f (carry / base) base
  end.

(** The first [n] iterations of the loop of [add]; [x] and [y] are the
    parts of the arrays from index [i] on. *)
Fixpoint add_loop (n : nat) (x y : list Z) (carry base : Z) : list Z :=
  match n with
  | O => add_carry (bits carry) carry base
  | S n' =>
      let xi := hd 0 x in
      let yi := hd 0 y in
      let zi := carry + xi + yi in
      Z.rem zi base :: add_loop n' (tl x) (tl y) (zi / base) base
  end.

Definition add (x y : list Z) (base : Z) : list Z :=
  add_loop (Nat.max (length x) (length y)) x y 0 base.

(** The [while (true)] loop of [multiplyByNumber]. *)
Fixpoint mul_loop (fuel : nat) (num : Z) (result power : list Z) (base : Z)
  : option (list Z) :=
  match fuel with
  | O => None
  | S f =>
      let result :=
        if Z.land (to_int32 num) 1 =? 0 then result
        else add result power base in
      let num := Z.shiftr (to_int32 num) 1 in
      if num =? 0 then Some result
      else mul_loop f num result (add power power base) base
  end.

(** [None] is the [null] returned for a negative [num].  The loop ends
    within 32 rounds for every [num] below [2^31]; above, the source loop
    does not end and the model gives [None] as well.  Both callers pass a
    digit or the source base, at most 36. *)
Definition multiplyByNumber (num : Z) (x : list Z) (base : Z)
  : option (list Z) :=
  if num <? 0 then None
  else if num =? 0 then Some []
  else mul_loop 32 num [] x base.

(** [None] is [null]: some character is not a digit of [base].  The digits
    come out least significant first.  [parseInt] of one character is a
    digit or [NaN] ([parseInt_char_finite]). *)
Fixpoint parse_rev (s : jstring) (base : Z) (ary : list Z)
  : option (list Z) :=
  match s with
  | [] => Some ary
  | c :: r =>
      match parseInt [c] (Some base) with
      | Num n => parse_rev r base (ary ++ [n])
      | _ => None
      end
  end.

Definition parseToDigitsArray (s : jstring) (base : Z) : option (list Z) :=
  parse_rev (rev s) base [].

(** The first loop of [convertBase].  A [null] from [multiplyByNumber]
    ends the model with [None]; [convertBase_null_iff] shows that this
    never happens on parsed digits. *)
Fixpoint convert_loop (digits outArray power : list Z) (fromBase toBase : Z)
  : option (list Z) :=
  match digits with
  | [] => Some outArray
  | d :: rest =>
      out' ← (if d =? 0 then Some outArray
              else m ← multiplyByNumber d power toBase;
                   Some (add outArray m toBase));
      power' ← multiplyByNumber fromBase power toBase;
      convert_loop rest out' power' fromBase toBase
  end.

(** The second loop of [convertBase]: the digits, most significant first. *)
Definition digits_to_string (outArray : list Z) (toBase : Z) : jstring :=
  flat_map (int_to_string toBase) (rev outArray).

Definition convertBase (s : jstring) (fromBase toBase : Z) : option jstring :=
  digits ← parseToDigitsArray s fromBase;
  outArray ← convert_loop digits [] [1] fromBase toBase;
  Some (digits_to_string outArray toBase).

Definition hexToDec (hexStr : jstring) : option jstring :=
  let hexStr :=
    if bool_decide (substring hexStr 0 2 = lit "0x")
    then substring_from hexStr 2 else hexStr in
  convertBase (toLowerCase hexStr) 16 10.

(** *** The generator *)

Record snowflake : Type := {
  seq : Z;
  rnd : Z;
  offset : Z;
  lastTime : Z;
  instanceId : jstring;
  instanceNumber : jstring
}.

(** [parseInt] applied to the result of [hexToDec]; [null] is converted to
    the string ["null"] first. *)
Definition parse_dec (d : option jstring) : jsnum :=
  parseInt (default (lit "null") d) None.

Definition fingerprint (instanceId : jstring) : jstring :=
  let instanceNumber := js_add (js_rem (parse_dec (hexToDec instanceId)) 24) 1000 in
  padStart (num_to_string 2 instanceNumber) 5 "0"%char.

(** [Snowflake.generateRandomId(length)]; [digits] are the values of
    [Math.floor(Math.random() * 10)] drawn by the loop. *)
Definition generateRandomId (digits : list Z) : jstring :=
  flat_map (int_to_string 10) digits.

(** The constructor.  [random10] is the value of
    [Math.floor(Math.random() * 1023)] and [randomId] the result of
    [Snowflake.generateRandomId(4)]; an absent or empty [instanceId] and an
    absent or zero [offset] take the defaults. *)
Definition new (random10 : Z) (randomId : jstring)
    (opt_offset : option Z) (opt_instanceId : option jstring) : snowflake :=
  let id0 :=
    match opt_instanceId with
    | Some (c :: s) => c :: s
    | _ => randomId
    end in
  let id := padStart id0 32 "0"%char in
  {| seq := 0; rnd := random10; offset := default 0 opt_offset;
     lastTime := 0; instanceId := id; instanceNumber := fingerprint id |}.

Definition epoch : Z := 1119484800000.

(** The loop that rewrites the bit string [bid] as hexadecimal, four
    characters at a time from the right. *)
Fixpoint hex_loop (fuel : nat) (bid : jstring) (i : Z) (id : jstring)
  : jstring :=
  match fuel with
  | O => id
  | S f =>
      if 0 <? i
      then hex_loop f bid (i - 4)
             (num_to_string 16 (parseInt (substring bid (i - 4) i) (Some 2))
                ++ id)
      else id
  end.

Definition to_hex (bid : jstring) : jstring :=
  hex_loop (length bid) bid (Z.of_nat (length bid)) [].

(** The sequence step: the new [seq] and the possibly advanced [time]. *)
Definition next_seq (st : snowflake) (time : Z) : Z * Z :=
  if lastTime st =? time then
    let s := seq st + 1 in
    if 4095 <? s then (0, time + 1) else (s, time)
  else (0, time).

(** The bit string composed by [generate]; the two [while] loops that
    put zeros in front of [bSeq] and [bRnd] are [padStart]. *)
Definition bid_of (st : snowflake) (s time : Z) : jstring :=
  int_to_string 2 (time - offset st)
    ++ instanceNumber st
    ++ padStart (int_to_string 2 s) 12 "0"%char
    ++ padStart (int_to_string 2 (rnd st)) 10 "0"%char.

(** [generate], with [now] the value of [Date.now()].  The state is
    updated before the conversion, so it changes even when the call throws
    on the [null] of [hexToDec]. *)
Definition generate (st : snowflake) (now : Z) : outcome jstring * snowflake :=
  let '(s, time) := next_seq st (now - epoch) in
  let st' := {| seq := s; rnd := rnd st; offset := offset st; lastTime := time;
                instanceId := instanceId st;
                instanceNumber := instanceNumber st |} in
  let id := to_hex (bid_of st s time) in
  match hexToDec id with
  | None => (Throw TypeError, st')
  | Some d => (Ret (substring (padStart d 23 "0"%char) 0 23), st')
  end.

End Snowflake.


(** ** Reading numerals *)

Module Numeral.
Import JS.

(** The value of a digit character, zero for any other character. *)
Definition digit_val (c : ascii) : Z := default 0 (char_digit c).

(** The value of a numeral in base [b], most significant digit first. *)
Definition val_from (b acc : Z) (s : jstring) : Z :=
  fold_left (fun a c => a * b + digit_val c) s acc.

Definition valBE (b : Z) (s : jstring) : Z := val_from b 0 s.

(** The value of a digit array, least significant digit first. *)
Fixpoint val (b : Z) (l : list Z) : Z :=
  match l with
  | [] => 0
  | d :: r => d + b * val b r
  end.

(** A character that [toString] produces for a digit of base [b]. *)
Definition is_digit (b : Z) (c : ascii) : bool :=
  let k := code c in
  ((48 <=? k) && (k <=? 57) && (k - 48 <? b))
  || ((97 <=? k) && (k <=? 122) && (k - 87 <? b)).

Definition numeral (b : Z) (s : jstring) : bool := forallb (is_digit b) s.

(** A string of hexadecimal digits in either case. *)
Definition hex_string (s : jstring) : bool :=
  forallb (fun c => is_digit 16 (lower_char c)) s.

(** Digits of base [b]. *)
Definition digits_in (b : Z) (l : list Z) : Prop :=
  Forall (fun d => 0 <= d < b) l.

(** No zero in the most significant position. *)
Definition canon (l : list Z) : Prop := List.last l 1 <> 0.

(** A well-formed number: digits of base [b], canonical. *)
Definition wf_digits (b : Z) (l : list Z) : Prop := digits_in b l /\ canon l.

End Numeral.

(** ** Runs of the generator *)

Module Run.
Import JS Numeral Snowflake.

(** The calls [generate()] made at the successive readings [nows] of
    [Date.now()], in call order. *)
Fixpoint run (st : snowflake) (nows : list Z) : list (outcome jstring) :=
  match nows with
  | [] => []
  | now :: rest =>
      let '(o, st') := generate st now in o :: run st' rest
  end.

(** A state whose fingerprint is a bit string, with the counter and the
    random component in their ranges. *)
Definition wf_state (st : snowflake) : bool :=
  numeral 2 (instanceNumber st)
  && (0 <=? seq st) && (seq st <=? 4095)
  && (0 <=? rnd st) && (rnd st <? 1024).

(** The number written by the bit string of [bid_of]: elapsed time,
    fingerprint, 12 bits of sequence, 10 bits of random component. *)
Definition id_value (st : snowflake) (s time : Z) : Z :=
  (((time - offset st) * 2 ^ Z.of_nat (length (instanceNumber st))
    + valBE 2 (instanceNumber st)) * 2 ^ 12 + s) * 2 ^ 10 + rnd st.

(** A clock reading at which the elapsed time is not negative and every
    identifier that can be composed stays below [10^23]. *)
Definition in_range (st : snowflake) (now : Z) : Prop :=
  0 <= now - epoch - offset st
  /\ id_value st 4095 (now - epoch + 1) < 10 ^ 23.

(** The fields that [generate] never changes. *)
Definition same_params (st st' : snowflake) : Prop :=
  rnd st' = rnd st /\ offset st' = offset st
  /\ instanceNumber st' = instanceNumber st.

(** What the state records after [j] calls made at the clock reading [t]:
    either the counter has not overflowed, or the last of 4096 calls has
    moved [lastTime] one unit ahead. *)
Definition tick_inv (st : snowflake) (t : Z) (j : nat) : Prop :=
  (lastTime st = t - epoch /\ seq st <= Z.of_nat j)
  \/ (lastTime st = t - epoch + 1 /\ seq st = 0 /\ (4096 <= j)%nat).

Definition str_lt (s t : jstring) : Prop := str_ltb s t = true.
Definition num_lt (s t : jstring) : Prop := valBE 10 s < valBE 10 t.

(** The digits a string keeps when it is cut to 23 characters. *)
Definition most_significant (n : nat) (d : jstring) : jstring := firstn n d.
Definition least_significant (n : nat) (d : jstring) : jstring :=
  skipn (length d - n) d.

End Run.

(** ** Documents, queries and the collection the adapter talks to *)

Module Mongo.
Import JS.

(** JavaScript values as the adapter handles them; numbers are integers. *)
Inductive value : Type :=
  | VUndefined
  | VNull
  | VBool (b : bool)
  | VNum (n : Z)
  | VStr (s : string)
  | VArr (items : list value)
  | VObj (props : list (string * value)).

(** An object: its own properties in insertion order, no key twice. *)
Abbreviation obj := (list (string * value)).

Definition unique_keys (o : obj) : Prop := List.NoDup (map fst o).

Fixpoint get (o : obj) (k : string) : option value :=
  match o with
  | [] => None
  | (k', v) :: r => if String.eqb k' k then Some v else get r k
  end.

(** Assignment [o[k] = v]: an existing property keeps its position. *)
Fixpoint set (o : obj) (k : string) (v : value) : obj :=
  match o with
  | [] => [(k, v)]
  | (k', v') :: r =>
      if String.eqb k' k then (k', v) :: r else (k', v') :: set r k v
  end.

(** The object literal [{ ...base, ...extra }]: the properties of [extra]
    are assigned over those of [base]. *)
Definition spread (base extra : obj) : obj :=
  fold_left (fun acc kv => set acc (fst kv) (snd kv)) extra base.

(** Reading the property [k] of any value.  Only [isMatch] and [values] are
    read this way and only an object has them as far as the adapter uses
    the result. *)
Definition prop (v : value) (k : string) : value :=
  match v with
  | VObj o => default VUndefined (get o k)
  | _ => VUndefined
  end.

Definition typeof (v : value) : string :=
  match v with
  | VUndefined => "undefined"
  | VNull => "object"
  | VBool _ => "boolean"
  | VNum _ => "number"
  | VStr _ => "string"
  | VArr _ => "object"
  | VObj _ => "object"
  end.

Definition truthy (v : value) : bool :=
  match v with
  | VUndefined => false
  | VNull => false
  | VBool b => b
  | VNum n => negb (n =? 0)
  | VStr s => negb (String.eqb s EmptyString)
  | VArr _ => true
  | VObj _ => true
  end.

Definition join (sep : string) (l : list string) : string :=
  match l with
  | [] => EmptyString
  | x :: r => fold_left (fun acc s => acc ++ sep ++ s)%string r x
  end.

(** [ToString], as applied by a template literal. *)
Fixpoint to_string (v : value) : string :=
  match v with
  | VUndefined => "undefined"
  | VNull => "null"
  | VBool b => if b then "true" else "false"
  | VNum n => string_of_list_ascii (int_to_string 10 n)
  | VStr s => s
  | VArr items =>
      join ","
        (map (fun x => match x with
                       | VUndefined => EmptyString
                       | VNull => EmptyString
                       | _ => to_string x
                       end) items)
  | VObj _ => "[object Object]"
  end.

(** Equality of stored values: same type, same content, same field order. *)
Fixpoint value_eqb (a b : value) : bool :=
  match a, b with
  | VUndefined, VUndefined => true
  | VNull, VNull => true
  | VBool x, VBool y => Bool.eqb x y
  | VNum x, VNum y => x =? y
  | VStr x, VStr y => String.eqb x y
  | VArr l, VArr m =>
      (fix go (l m : list value) : bool :=
         match l, m with
         | [], [] => true
         | x :: l', y :: m' => value_eqb x y && go l' m'
         | _, _ => false
         end) l m
  | VObj o, VObj p =>
      (fix go (o p : list (string * value)) : bool :=
         match o, p with
         | [], [] => true
         | (k, x) :: o', (k', y) :: p' =>
             String.eqb k k' && value_eqb x y && go o' p'
         | _, _ => false
         end) o p
  | _, _ => false
  end.

(** The query documents that the adapter builds, one constructor for each
    object literal in the source. *)
Inductive query : Type :=
  | QEq (field : string) (v : value)
      (* { [field]: value } *)
  | QRegex (field regex options : string)
      (* { [field]: { $regex, $options } } *)
  | QExprRegexMatch (field regex options : string)
      (* { $expr: { $regexMatch: { input: { $toString: `$${field}` }, regex, options } } } *)
  | QExprInput (field : string)
      (* { $expr: { input: { $toString: `$${field}` } } } *)
  | QOr (qs : list query)
      (* { $or: [...] } *)
  | QAnd (qs : list query)
      (* { $and: [...] } *)
  | QEmpty.
      (* {} *)

Definition is_operator_doc (v : value) : bool :=
  match v with
  | VObj o => existsb (fun kv => String.prefix "$" (fst kv)) o
  | _ => false
  end.

(** Whether a stored document satisfies a query, for the part of the query
    language that this development evaluates: equality on a top-level
    field (a stored array matches when it contains the operand, a missing
    field matches [null]), conjunction, disjunction and the empty query.
    [None] stands for a query outside that part (regular expressions,
    [$expr], operator documents). *)
Fixpoint matches (doc : obj) (q : query) : option bool :=
  match q with
  | QEq f v =>
      if is_operator_doc v then None
      else
        Some match get doc f with
             | Some x =>
                 value_eqb x v
                 || match x with
                    | VArr l => existsb (fun y => value_eqb y v) l
                    | _ => false
                    end
             | None => value_eqb VNull v
             end
  | QAnd qs =>
      (fix all (qs : list query) : option bool :=
         match qs with
         | [] => Some true
         | q :: r =>
             match matches doc q, all r with
             | Some a, Some b => Some (a && b)
             | _, _ => None
             end
         end) qs
  | QOr qs =>
      (fix any (qs : list query) : option bool :=
         match qs with
         | [] => Some false
         | q :: r =>
             match matches doc q, any r with
             | Some a, Some b => Some (a || b)
             | _, _ => None
             end
         end) qs
  | QEmpty => Some true
  | _ => None
  end.

(** The documents of a collection that satisfy [q], in stored order. *)
Fixpoint select (coll : list obj) (q : query) : option (list obj) :=
  match coll with
  | [] => Some []
  | doc :: rest =>
      match matches doc q, select rest q with
      | Some true, Some l => Some (doc :: l)
      | Some false, Some l => Some l
      | _, _ => None
      end
  end.

(** A find cursor: the query and what the chained calls have set. *)
Record cursor : Type := {
  c_query : query;
  c_sort : option obj;
  c_collation : option value;
  c_skip : option Z;
  c_limit : option Z;
  c_hint : option value
}.

(** [cursor.toArray()].  Sorted cursors are outside the evaluated part. *)
Definition toArray (coll : list obj) (c : cursor) : option (list obj) :=
  match c_sort c with
  | Some _ => None
  | None =>
      l ← select coll (c_query c);
      let l := skipn (Z.to_nat (default 0 (c_skip c))) l in
      Some match c_limit c with
           | Some n => firstn (Z.to_nat n) l
           | None => l
           end
  end.

(** How the driver answers a write. *)
Inductive reply : Type :=
  | Acknowledged
  | Unacknowledged
  | Fails (e : error).

(** The driver gives a document without [_id] a fresh one, in place. *)
Definition with_id (doc : obj) (oid : value) : obj :=
  match get doc "_id" with
  | Some _ => doc
  | None => set doc "_id" oid
  end.

(** [collection.insertOne(doc)]: the stored collection, the document as
    the driver leaves it, and [res.acknowledged]; [oid] is the identifier
    the driver would create. *)
Definition collection_insertOne (coll : list obj) (doc : obj) (oid : value)
    (r : reply) : outcome (list obj * obj * bool) :=
  match r with
  | Fails e => Throw e
  | Acknowledged => Ret (coll ++ [with_id doc oid], with_id doc oid, true)
  | Unacknowledged => Ret (coll ++ [with_id doc oid], with_id doc oid, false)
  end.

Fixpoint with_ids (docs : list obj) (oids : nat -> value) (i : nat) : list obj :=
  match docs with
  | [] => []
  | d :: r => with_id d (oids i) :: with_ids r oids (S i)
  end.

(** [collection.insertMany(docs)]: the stored collection, the documents as
    the driver leaves them, [res.acknowledged] and the values of
    [res.insertedIds]. *)
Definition collection_insertMany (coll : list obj) (docs : list obj)
    (oids : nat -> value) (r : reply)
  : outcome (list obj * list obj * bool * list value) :=
  let docs' := with_ids docs oids 0 in
  let ids := map (fun d => default VUndefined (get d "_id")) docs' in
  match r with
  | Fails e => Throw e
  | Acknowledged => Ret (coll ++ docs', docs', true, ids)
  | Unacknowledged => Ret (coll ++ docs', docs', false, ids)
  end.

(** The document that replaces [old]: the stored [_id] stays, and a
    replacement that carries another [_id] is refused. *)
Definition replacement (old e : obj) : outcome obj :=
  match get e "_id", get old "_id" with
  | None, Some i => Ret (("_id"%string, i) :: e)
  | Some i', Some i =>
      if value_eqb i' i then Ret e else Throw (DriverError "ImmutableField")
  | _, None => Ret e
  end.

(** [collection.findOneAndReplace(filter, e, { returnDocument: 'after' })]:
    the first document that satisfies the filter is replaced; the result is
    the collection and [res.value], the new document or [null].  [None]
    stands for a filter outside the evaluated part. *)
Fixpoint findOneAndReplace (coll : list obj) (q : query) (e : obj)
  : option (outcome (list obj * option obj)) :=
  match coll with
  | [] => Some (Ret ([], None))
  | doc :: rest =>
      match matches doc q with
      | Some true =>
          Some match replacement doc e with
               | Ret d => Ret (d :: rest, Some d)
               | Throw err => Throw err
               end
      | Some false =>
          r ← findOneAndReplace rest q e;
          Some match r with
               | Ret (rest', v) => Ret (doc :: rest', v)
               | Throw err => Throw err
               end
      | None => None
      end
  end.

End Mongo.

(** ** The global client registry *)

Module Registry.

(** Modelled from the spec: the registry functions of the base adapter
    ([getClientFromGlobalStore], [setClientToGlobalStore] and
    [removeAdapterFromClientGlobalStore]) are not among the sources.  The
    spec describes a process-wide map from an identity key to a shared,
    reference-counted client handle, with [getOrCreate], [register] and
    [release]. *)
Inductive conn_state : Type :=
  | Connecting
  | Ready
  | Failed.

(** The adapter itself asks the client for its connection state; the
    three functions below leave [state] as it is. *)
Record entry : Type := {
  client : nat;
  refCount : nat;
  state : conn_state
}.

(** Modelled from the spec: [getOrCreate(identityKey) -> handle|nil]; an
    adapter that obtains the shared handle becomes one more reference. *)
Definition getClientFromGlobalStore (key : string) (reg : gmap string entry)
  : option nat * gmap string entry :=
  match reg !! key with
  | Some e =>
      (Some (client e),
       <[key := {| client := client e; refCount := S (refCount e);
                   state := state e |}]> reg)
  | None => (None, reg)
  end.

(** Modelled from the spec: [register(identityKey, handle)]; the entry is
    created by the first [connect()] for the identity, held by that one
    adapter. *)
Definition setClientToGlobalStore (key : string) (c : nat)
    (reg : gmap string entry) : gmap string entry :=
  <[key := {| client := c; refCount := 1; state := Connecting |}]> reg.

(** Modelled from the spec: [release(identityKey) -> bool] decrements the
    reference count and is true if this was the last reference, in which
    case the entry is destroyed. *)
Definition removeAdapterFromClientGlobalStore (key : string)
    (reg : gmap string entry) : bool * gmap string entry :=
  match reg !! key with
  | Some e =>
      if (refCount e <=? 1)%nat then (true, delete key reg)
      else (false,
            <[key := {| client := client e; refCount := pred (refCount e);
                        state := state e |}]> reg)
  | None => (false, reg)
  end.

End Registry.

(** ** The adapter, [src/adapters/mongodb.js] *)

Module Adapter.
Import JS Snowflake Mongo Registry.

(** A nested property of an object-typed field. *)
Record property : Type := {
  p_type : string;
  p_search : bool
}.

(** A field descriptor of [service.$fields]. *)
Record field : Type := {
  name : string;
  type : string;
  search : bool;
  filter : bool;
  properties : option (list (string * property))
}.

(** [service.$primaryField]. *)
Record primary : Type := {
  columnName : string;
  generated : string
}.

Record service : Type := {
  fields : list field;
  primaryField : option primary
}.

(** The [sort] parameter: a field name, an array of names or a mapping. *)
Inductive sort_param : Type :=
  | SortString (s : string)
  | SortArray (l : list string)
  | SortObject (o : obj).

(** The parameters of [find] and [count]; [None] and [VUndefined] are an
    absent property. *)
Record params : Type := {
  query : option Mongo.query;
  p_search_text : option string;
  searchFields : option (list string);
  p_filter : option obj;
  sort : option sort_param;
  limit : value;
  offset : value;
  collation : value;
  hint : value
}.

(** *** Writes *)

(** [addIdToEntity]: unless the primary key is generated by the user, a
    new object is built from the generated key followed by the properties
    of the entity. *)
Definition addIdToEntity (svc : service) (gen : snowflake) (now : Z)
    (entity : obj) : outcome obj * snowflake :=
  match primaryField svc with
  | None => (Throw TypeError, gen)
  | Some pf =>
      if String.eqb (generated pf) "user" then (Ret entity, gen)
      else
        match generate gen now with
        | (Ret id, gen') =>
            (Ret (spread [(columnName pf, VStr (string_of_list_ascii id))]
                    entity), gen')
        | (Throw e, gen') => (Throw e, gen')
        end
  end.

(** The state an operation works on: the collection and the generator. *)
Record world : Type := {
  coll : list obj;
  gen : snowflake
}.

(** [insert(entity)]; [oid] and [r] are the driver's choices. *)
Definition insert (svc : service) (w : world) (now : Z) (oid : value)
    (r : reply) (entity : obj) : outcome obj * world :=
  match addIdToEntity svc (gen w) now entity with
  | (Throw _, g) =>
      (Throw (Error "Creating Record Failed"), {| coll := coll w; gen := g |})
  | (Ret e, g) =>
      match collection_insertOne (coll w) e oid r with
      | Throw _ =>
          (Throw (Error "Creating Record Failed"),
           {| coll := coll w; gen := g |})
      | Ret (coll', e', acknowledged) =>
          if acknowledged then (Ret e', {| coll := coll'; gen := g |})
          else (Throw (Error "Creating Record Failed"),
                {| coll := coll'; gen := g |})
      end
  end.

(** [entities.map((entity) => this.addIdToEntity(entity))]; [clock i] is
    the reading of [Date.now()] at the [i]-th call of the generator. *)
Fixpoint remap (svc : service) (g : snowflake) (clock : nat -> Z) (i : nat)
    (entities : list obj) : outcome (list obj) * snowflake :=
  match entities with
  | [] => (Ret [], g)
  | entity :: rest =>
      match addIdToEntity svc g (clock i) entity with
      | (Throw e, g') => (Throw e, g')
      | (Ret e, g') =>
          match remap svc g' clock (S i) rest with
          | (Throw e', g'') => (Throw e', g'')
          | (Ret l, g'') => (Ret (e :: l), g'')
          end
      end
  end.

(** Whether [addIdToEntity] hands the entity itself to the driver, so that
    the driver's [_id] shows in the caller's object. *)
Definition shares_entities (svc : service) : bool :=
  match primaryField svc with
  | Some pf => String.eqb (generated pf) "user"
  | None => false
  end.

(** [insertMany(entities, opts)]: the result is [entities], the caller's
    own array, or the values of [res.insertedIds]. *)
Definition insertMany (svc : service) (w : world) (clock : nat -> Z)
    (oids : nat -> value) (r : reply) (entities : list obj)
    (returnEntities : bool) : outcome (list value) * world :=
  match remap svc (gen w) clock 0 entities with
  | (Throw e, g) => (Throw e, {| coll := coll w; gen := g |})
  | (Ret remappedEntities, g) =>
      match collection_insertMany (coll w) remappedEntities oids r with
      | Throw _ =>
          (Throw (Error "Creating Many Records Failed"),
           {| coll := coll w; gen := g |})
      | Ret (coll', docs', acknowledged, insertedIds) =>
          if acknowledged then
            (Ret (if returnEntities
                  then map VObj (if shares_entities svc then docs' else entities)
                  else insertedIds),
             {| coll := coll'; gen := g |})
          else (Throw (Error "Creating Many Records Failed"),
                {| coll := coll'; gen := g |})
      end
  end.

(** [replaceById(id, entity)]: the result is [res.value]; [None] stands
    for a filter outside the evaluated part of the query language. *)
Definition replaceById (w : world) (id : value) (entity : obj)
  : option (outcome (option obj) * world) :=
  let e := spread [("id"%string, id)] entity in
  r ← findOneAndReplace (coll w) (QEq "id" id) e;
  Some match r with
       | Ret (coll', v) => (Ret v, {| coll := coll'; gen := gen w |})
       | Throw err => (Throw err, w)
       end.

(** *** The query translator *)

Definition buildStandardMatch (field : string) (values : value)
    (type : string) : Mongo.query :=
  let regexPattern :=
    match values with
    | VArr l => join "|" (map (fun v => "(" ++ to_string v ++ ")")%string l)
    | _ => to_string values
    end in
  let regex := (".*" ++ regexPattern ++ ".*")%string in
  if String.eqb type "number" then QExprRegexMatch field regex "i"
  else QRegex field regex "i".

Definition buildStandardStrict (field : string) (v : value) (type : string)
  : Mongo.query :=
  if String.eqb type "number" then QExprInput field else QEq field v.

Definition isFieldSearchable (searchFields : option (list string))
    (f : field) : bool :=
  search f
  && match searchFields with
     | None => true
     | Some l => existsb (String.eqb (name f)) l || (length l =? 0)%nat
     end.

Definition processSearchParams (svc : service) (search_text : option string)
    (searchFields : option (list string)) : list Mongo.query :=
  match search_text with
  | None => []
  | Some EmptyString => []
  | Some text =>
      let searchInFields :=
        flat_map
          (fun f =>
             match properties f with
             | Some props =>
                 if String.eqb (type f) "object" then
                   map (fun kp => ((name f ++ "." ++ fst kp)%string,
                                   p_type (snd kp)))
                       (List.filter (fun kp => p_search (snd kp)) props)
                 else [(name f, type f)]
             | None => [(name f, type f)]
             end)
          (List.filter (isFieldSearchable searchFields) (fields svc)) in
      let searchQueries :=
        map (fun nt => buildStandardMatch (fst nt) (VStr text) (snd nt))
            searchInFields in
      match searchQueries with
      | [] => []
      | _ => [QOr searchQueries]
      end
  end.

(** One step of the [reduce] of [processFilterParams].  Destructuring
    [null] or [undefined] throws. *)
Definition filter_step (svc : service) (queryAccumulator : list Mongo.query)
    (entry : string * value) : outcome (list Mongo.query) :=
  let '(fld, valueObj) := entry in
  if negb (existsb (fun f => filter f && String.eqb (name f) fld) (fields svc))
     || value_eqb valueObj (VStr EmptyString)
  then Ret queryAccumulator
  else
    match valueObj with
    | VUndefined => Throw TypeError
    | VNull => Throw TypeError
    | _ =>
        let isMatch := truthy (prop valueObj "isMatch") in
        let values := prop valueObj "values" in
        let buildMethod :=
          if isMatch then buildStandardMatch else buildStandardStrict in
        let valuesToProcess := if isMatch then values else valueObj in
        if value_eqb valuesToProcess (VStr EmptyString) && negb isMatch
        then Ret queryAccumulator
        else
          let processedValues :=
            match valuesToProcess with
            | VArr l => map (fun v => buildMethod fld v (typeof v)) l
            | _ => [buildMethod fld valuesToProcess (typeof valuesToProcess)]
            end in
          match processedValues with
          | [] => Ret queryAccumulator
          | [q] => Ret (queryAccumulator ++ [q])
          | _ => Ret (queryAccumulator ++ [QOr processedValues])
          end
    end.

Fixpoint filter_reduce (svc : service) (acc : list Mongo.query)
    (entries : obj) : outcome (list Mongo.query) :=
  match entries with
  | [] => Ret acc
  | entry :: rest =>
      match filter_step svc acc entry with
      | Throw e => Throw e
      | Ret acc' => filter_reduce svc acc' rest
      end
  end.

Definition processFilterParams (svc : service) (filter : option obj)
  : outcome (list Mongo.query) :=
  match filter with
  | None => Ret []
  | Some entries => filter_reduce svc [] entries
  end.

Definition parseParams (svc : service) (p : params) : outcome Mongo.query :=
  match processFilterParams svc (p_filter p) with
  | Throw e => Throw e
  | Ret fq =>
      let cq :=
        processSearchParams svc (p_search_text p) (searchFields p)
          ++ fq
          ++ match query p with
             | Some q => [q]
             | None => []
             end in
      Ret match cq with
          | [] => QEmpty
          | _ => QAnd cq
          end
  end.

Definition transformSort (sort : sort_param) : obj :=
  let from_array l :=
    fold_left
      (fun res s =>
         if String.prefix "-" s
         then set res (String.substring 1 (String.length s - 1) s) (VNum (-1))
         else set res s (VNum 1))
      l [] in
  match sort with
  | SortString s => from_array [s]
  | SortArray l => from_array l
  | SortObject o => o
  end.

Definition sort_truthy (s : option sort_param) : bool :=
  match s with
  | None => false
  | Some (SortString EmptyString) => false
  | Some _ => true
  end.

Definition positive_number (v : value) : option Z :=
  match v with
  | VNum n => if 0 <? n then Some n else None
  | _ => None
  end.

(** What [createQuery] returns: a find cursor, or the pending result of
    [countDocuments], which has none of the cursor's methods. *)
Inductive query_handle : Type :=
  | Cursor (c : cursor)
  | CountPromise (q : Mongo.query).

(** [createQuery(params, opts)] with [counting = opts.counting]. *)
Definition createQuery (svc : service) (p : option params) (counting : bool)
  : outcome query_handle :=
  match p with
  | None =>
      Ret (if counting then CountPromise QEmpty
           else Cursor {| c_query := QEmpty; c_sort := None;
                          c_collation := None; c_skip := None;
                          c_limit := None; c_hint := None |})
  | Some p =>
      match parseParams svc p with
      | Throw e => Throw e
      | Ret q =>
          if counting then
            if truthy (hint p) then Throw TypeError
            else Ret (CountPromise q)
          else
            let sorted := sort_truthy (sort p) in
            Ret (Cursor
              {| c_query := q;
                 c_sort := if sorted then transformSort <$> sort p else None;
                 c_collation :=
                   if sorted && truthy (collation p)
                   then Some (collation p) else None;
                 c_skip := positive_number (offset p);
                 c_limit := positive_number (limit p);
                 c_hint := if truthy (hint p) then Some (hint p) else None |})
      end
  end.

(** [find(params)]: the array the cursor yields; the inner [None] stands
    for a query outside the evaluated part. *)
Definition find (svc : service) (coll : list obj) (p : option params)
  : outcome (option (list obj)) :=
  match createQuery svc p false with
  | Throw e => Throw e
  | Ret (Cursor c) => Ret (toArray coll c)
  | Ret (CountPromise _) => Throw TypeError
  end.

(** [count(params)]: the number the promise of [countDocuments] yields. *)
Definition count (svc : service) (coll : list obj) (p : option params)
  : outcome (option Z) :=
  match createQuery svc p true with
  | Throw e => Throw e
  | Ret (CountPromise q) =>
      Ret (l ← select coll q; Some (Z.of_nat (length l)))
  | Ret (Cursor _) => Throw TypeError
  end.

(** *** Connecting *)

(** The identity key [`mongodb|${uri}`], with the default for an absent or
    empty [opts.uri]. *)
Definition store_key (uri : option string) : string :=
  let uri := match uri with
             | Some (String c s) => String c s
             | _ => "mongodb://localhost:27017"%string
             end in
  ("mongodb|" ++ uri)%string.

(** The adapter's own fields [storeKey] and [client], which [connect()]
    sets before its first [await]. *)
Record connection : Type := {
  storeKey : string;
  conn_client : nat
}.

(** The three [await]s of [connect()].  While the call is suspended at
    one of them the other adapters of the process run, on the same
    registry. *)
Inductive pending : Type :=
  | AwaitConnect (a : connection)
      (* await this.client.connect() *)
  | AwaitOpen (a : connection)
      (* await new this.Promise(resolve => this.client.once('open', ...)) *)
  | AwaitPing (a : connection).
      (* await this.db.command({ ping: 1 }) *)

(** How an awaited promise settles. *)
Inductive settled : Type :=
  | Fulfilled
  | Rejected (err : error).

(** An asynchronous call: suspended at an [await], or settled with its
    outcome. *)
Inductive progress : Type :=
  | Suspended (p : pending)
  | Finished (o : outcome connection).

(** [connect()], from the call to its first [await].  [fresh] is the client
    that [new MongoClient] creates when the store has none under the key,
    and [connected] is what
    [this.client.topology && this.client.topology.isConnected()] gives for
    a client found in the store. *)
Definition connect (uri : option string) (fresh : nat) (connected : bool)
    (reg : gmap string entry) : pending * gmap string entry :=
  let key := store_key uri in
  let '(found, reg) := getClientFromGlobalStore key reg in
  match found with
  | None =>
      (AwaitConnect {| storeKey := key; conn_client := fresh |},
       setClientToGlobalStore key fresh reg)
  | Some c =>
      let a := {| storeKey := key; conn_client := c |} in
      (if connected then AwaitPing a else AwaitOpen a, reg)
  end.

(** [connect()], from the settling of the promise it awaits to its next
    [await] or to its end, on the registry as the other adapters have left
    it in the meantime.  The promise that waits for ['open'] has no way to
    reject.  The creation of indexes by [connected()], which is not
    awaited, is not part of the model. *)
Definition connect_resume (p : pending) (s : settled)
    (reg : gmap string entry) : progress * gmap string entry :=
  match p, s with
  | AwaitConnect a, Fulfilled => (Suspended (AwaitPing a), reg)
  | AwaitConnect a, Rejected err =>
      (Finished (Throw err),
       snd (removeAdapterFromClientGlobalStore (storeKey a) reg))
  | AwaitOpen a, Fulfilled => (Suspended (AwaitPing a), reg)
  | AwaitOpen a, Rejected _ => (Suspended (AwaitOpen a), reg)
  | AwaitPing a, Fulfilled => (Finished (Ret a), reg)
  | AwaitPing a, Rejected err => (Finished (Throw err), reg)
  end.

End Adapter.

(** ** Concrete services, collections and parameters *)

Module Examples.
Import JS Snowflake Mongo Adapter.

(** A service whose [status] field is filterable. *)
Definition status_service : service :=
  {| fields := [{| name := "status"; type := "boolean"; search := false;
                   filter := true; properties := None |}];
     primaryField := None |}.

Definition entity_true : obj := [("status"%string, VBool true)].
Definition entity_false : obj := [("status"%string, VBool false)].
Definition status_entities : list obj := [entity_true; entity_false].

Definition no_params : params :=
  {| query := None; p_search_text := None; searchFields := None;
     p_filter := None; sort := None; limit := VUndefined;
     offset := VUndefined; collation := VUndefined; hint := VUndefined |}.

Definition filter_params (f : obj) : params :=
  {| query := None; p_search_text := None; searchFields := None;
     p_filter := Some f; sort := None; limit := VUndefined;
     offset := VUndefined; collation := VUndefined; hint := VUndefined |}.

(** [{ isMatch: false, values: true }] *)
Definition strict_spec : value :=
  VObj [("isMatch"%string, VBool false); ("values"%string, VBool true)].

(** The parameters without paging and ordering. *)
Definition unpaged (p : params) : params :=
  {| query := query p; p_search_text := p_search_text p;
     searchFields := searchFields p; p_filter := p_filter p;
     sort := None; limit := VUndefined; offset := VUndefined;
     collation := VUndefined; hint := hint p |}.

(** A service whose primary key [id] is generated by the system. *)
Definition id_service : service :=
  {| fields := [];
     primaryField := Some {| columnName := "id"; generated := "system" |} |}.

(** A generator as the constructor leaves it, for the random identifier
    [0042]. *)
Definition generator : snowflake := new 5 (lit "0042") None None.

(** The generator built when the random identifier is [0000]. *)
Definition zero_generator : snowflake := new 5 (lit "0000") None None.

(** A reading of [Date.now()] in November 2026. *)
Definition today : Z := 1793000000000.

(** The last reading at which the composed number has 23 digits. *)
Definition last_23_digit_ms : Z := epoch + 23283064365385.

End Examples.

(** ** More of the generator and of the adapter *)

Module More.
Import JS Snowflake Numeral Run Mongo Adapter.

(** A character that [parseInt] reads as a digit of base [b], in either
    case. *)
Definition valid_digit (b : Z) (c : ascii) : bool :=
  match char_digit c with
  | Some d => d <? b
  | None => false
  end.

(** The last two statements of [generate]: the result for a sequence
    number and an elapsed time. *)
Definition render (st : snowflake) (s time : Z) : outcome jstring :=
  match hexToDec (to_hex (bid_of st s time)) with
  | None => Throw TypeError
  | Some d => Ret (substring (padStart d 23 "0"%char) 0 23)
  end.

(** The state after the calls of [run]. *)
Fixpoint run_state (st : snowflake) (nows : list Z) : snowflake :=
  match nows with
  | [] => st
  | now :: rest => run_state (snd (generate st now)) rest
  end.

(** What [transformSort] makes of one name of the array. *)
Definition sort_entry (s : string) : string * value :=
  if String.prefix "-" s
  then (String.substring 1 (String.length s - 1) s, VNum (-1))
  else (s, VNum 1).

(** Whether the field [fld] of a stored document equals [v], as the
    equality predicate of [matches] decides it. *)
Definition eq_match (doc : obj) (fld : string) (v : value) : bool :=
  match get doc fld with
  | Some x =>
      value_eqb x v
      || match x with
         | VArr l => existsb (fun y => value_eqb y v) l
         | _ => false
         end
  | None => value_eqb VNull v
  end.

(** The parameters [p] with another [filter]. *)
Definition with_filter (p : params) (f : obj) : params :=
  {| query := query p; p_search_text := p_search_text p;
     searchFields := searchFields p; p_filter := Some f;
     sort := sort p; limit := limit p; offset := offset p;
     collation := collation p; hint := hint p |}.

(** The service [svc] with other field descriptors. *)
Definition with_fields (svc : service) (fs : list field) : service :=
  {| fields := fs; primaryField := primaryField svc |}.

(** [collection.findOne(query)]: the first stored document that satisfies
    the query, or [null]; the outer [None] stands for a query outside the
    evaluated part. *)
Fixpoint collection_findOne (coll : list obj) (q : Mongo.query)
  : option (option obj) :=
  match coll with
  | [] => Some None
  | doc :: rest =>
      match matches doc q with
      | Some true => Some (Some doc)
      | Some false => collection_findOne rest q
      | None => None
      end
  end.

(** [findOne(params)]: with a sort, the first element of [find(params)];
    without, [collection.findOne] on the parsed query. *)
Definition findOne (svc : service) (coll : list obj) (p : params)
  : outcome (option (option obj)) :=
  if sort_truthy (sort p) then
    match find svc coll (Some p) with
    | Throw e => Throw e
    | Ret res => Ret (l ← res; Some (head l))
    end
  else
    match parseParams svc p with
    | Throw e => Throw e
    | Ret q => Ret (collection_findOne coll q)
    end.

(** [findById(id)]: [collection.findOne({ id })]. *)
Definition findById (coll : list obj) (id : value) : option (option obj) :=
  collection_findOne coll (QEq "id" id).

(** An index definition; [i_fields] is a name, an array of names or a
    mapping. *)
Record index_def : Type := {
  i_fields : sort_param;
  i_name : option string;
  i_unique : bool
}.

(** The key specification that [createIndex] hands to the driver. *)
Definition index_fields (def : index_def) : obj :=
  match i_fields def with
  | SortString s => [(s, VNum 1)]
  | SortArray l => fold_left (fun a b => set a b (VNum 1)) l []
  | SortObject o => o
  end.

(** [createIndex(def)]: the name the driver returns, or [false] when the
    driver throws; [driver] is [collection.createIndex]. *)
Definition createIndex (driver : obj -> index_def -> outcome string)
    (def : index_def) : value :=
  match driver (index_fields def) def with
  | Ret created => VStr created
  | Throw _ => VBool false
  end.

(** Whether [service.$fields] has a filterable field called [fld]. *)
Definition filterable (svc : service) (fld : string) : bool :=
  existsb (fun f => filter f && String.eqb (name f) fld) (fields svc).

(** An entry of the [filter] parameter that [processFilterParams] does
    not skip at its first test. *)
Definition kept_entry (svc : service) (e : string * value) : bool :=
  filterable svc (fst e) && negb (value_eqb (snd e) (VStr EmptyString)).

(** A boolean or a string. *)
Definition plain (v : value) : bool :=
  match v with
  | VBool _ => true
  | VStr _ => true
  | _ => false
  end.

End More.

Module JSFacts.
Import JS Numeral.

Lemma code_chr z : 0 <= z < 256 -> code (chr z) = z.
Proof.
  intros H. unfold code, chr.
  rewrite nat_ascii_embedding by lia. lia.
Qed.

Lemma code_range c : 0 <= code c < 256.
Proof.
  unfold code. pose proof (nat_ascii_bounded c). lia.
Qed.

Lemma chr_code c : chr (code c) = c.
Proof.
  unfold code, chr. rewrite Nat2Z.id. apply ascii_nat_embedding.
Qed.

Lemma code_inj c d : code c = code d -> c = d.
Proof.
  intros H. rewrite <- (chr_code c), <- (chr_code d). now rewrite H.
Qed.

Lemma char_digit_digit_char d :
  0 <= d < 36 -> char_digit (digit_char d) = Some d.
Proof.
  intros H. unfold char_digit, digit_char.
  destruct (Z.ltb_spec d 10).
  - rewrite code_chr by lia.
    replace ((48 <=? 48 + d) && (48 + d <=? 57)) with true
      by (symmetry; apply andb_true_iff; split; lia).
    f_equal. lia.
  - rewrite code_chr by lia.
    replace ((48 <=? 87 + d) && (87 + d <=? 57)) with false
      by (symmetry; apply andb_false_iff; right; lia).
    replace ((97 <=? 87 + d) && (87 + d <=? 122)) with true
      by (symmetry; apply andb_true_iff; split; lia).
    f_equal. lia.
Qed.

Lemma is_digit_spec b c :
  is_digit b c = true ->
  exists d, 0 <= d < b /\ d < 36 /\ char_digit c = Some d /\ digit_char d = c.
Proof.
  unfold is_digit, char_digit, digit_char. intros H.
  pose proof (code_range c) as Hc.
  apply orb_true_iff in H as [H|H];
    apply andb_true_iff in H as [H H3];
    apply andb_true_iff in H as [H1 H2].
  - exists (code c - 48). rewrite H1, H2. simpl.
    replace (code c - 48 <? 10) with true by (symmetry; lia).
    repeat split; try lia.
    replace (48 + (code c - 48)) with (code c) by lia. apply chr_code.
  - exists (code c - 87).
    replace ((48 <=? code c) && (code c <=? 57)) with false
      by (symmetry; apply andb_false_iff; right; lia).
    rewrite H1, H2. simpl.
    replace (code c - 87 <? 10) with false by (symmetry; lia).
    repeat split; try lia.
    replace (87 + (code c - 87)) with (code c) by lia. apply chr_code.
Qed.

Lemma is_digit_digit_char b d :
  0 <= d < b -> b <= 36 -> is_digit b (digit_char d) = true.
Proof.
  intros H Hb. unfold is_digit, digit_char.
  destruct (Z.ltb_spec d 10); rewrite code_chr by lia.
  - apply orb_true_iff. left. rewrite !andb_true_iff. lia.
  - apply orb_true_iff. right. rewrite !andb_true_iff. lia.
Qed.

Lemma is_digit_mono b b' c : b <= b' -> is_digit b c = true -> is_digit b' c = true.
Proof.
  unfold is_digit. intros Hb H.
  apply orb_true_iff in H. apply orb_true_iff.
  rewrite !andb_true_iff in *. lia.
Qed.

Lemma numeral_mono b b' s : b <= b' -> numeral b s = true -> numeral b' s = true.
Proof.
  unfold numeral. rewrite !forallb_forall. intros Hb H c Hc.
  eapply is_digit_mono; eauto.
Qed.

Lemma numeral_app b s t :
  numeral b (s ++ t) = numeral b s && numeral b t.
Proof. apply forallb_app. Qed.

Lemma numeral_repeat0 b n : 0 < b -> numeral b (repeat "0"%char n) = true.
Proof.
  intros Hb. induction n; simpl; auto.
  rewrite IHn, andb_true_r. unfold is_digit.
  change (code "0") with 48. lia.
Qed.

(** *** Values of numerals *)

Lemma val_from_app b acc s t :
  val_from b acc (s ++ t) = val_from b (val_from b acc s) t.
Proof. apply fold_left_app. Qed.

Lemma val_from_shift b acc s :
  val_from b acc s = acc * b ^ Z.of_nat (length s) + valBE b s.
Proof.
  unfold valBE. revert acc. induction s as [|c s IH]; intros acc.
  - simpl. lia.
  - cbn [val_from fold_left length]. fold (val_from b (acc * b + digit_val c) s).
    fold (val_from b (0 * b + digit_val c) s).
    rewrite IH, (IH (0 * b + digit_val c)).
    rewrite Nat2Z.inj_succ, Z.pow_succ_r by lia. ring.
Qed.

Lemma valBE_app b s t :
  valBE b (s ++ t) = valBE b s * b ^ Z.of_nat (length t) + valBE b t.
Proof.
  unfold valBE at 1. rewrite val_from_app, val_from_shift. reflexivity.
Qed.

Lemma valBE_cons b c s :
  valBE b (c :: s) = digit_val c * b ^ Z.of_nat (length s) + valBE b s.
Proof.
  change (c :: s) with ([c] ++ s). rewrite valBE_app.
  unfold valBE at 1. simpl. reflexivity.
Qed.

Lemma valBE_snoc b s c : valBE b (s ++ [c]) = valBE b s * b + digit_val c.
Proof.
  rewrite valBE_app. simpl. unfold valBE at 2. simpl. lia.
Qed.

Lemma valBE_nil b : valBE b [] = 0.
Proof. reflexivity. Qed.

Lemma digit_val_range b c : is_digit b c = true -> 0 <= digit_val c < b.
Proof.
  intros H. destruct (is_digit_spec _ _ H) as (d & Hd & _ & Hc & _).
  unfold digit_val. rewrite Hc. simpl. lia.
Qed.

Lemma valBE_bound b s :
  0 < b -> numeral b s = true -> 0 <= valBE b s < b ^ Z.of_nat (length s).
Proof.
  intros Hb. induction s as [|c s IH] using rev_ind; intros H.
  - simpl. unfold valBE. simpl. lia.
  - rewrite numeral_app in H. apply andb_true_iff in H as [Hs Hc].
    simpl in Hc. rewrite andb_true_r in Hc.
    apply digit_val_range in Hc. specialize (IH Hs).
    rewrite valBE_snoc, length_app. simpl length.
    rewrite Nat2Z.inj_add. change (Z.of_nat 1) with 1.
    rewrite Z.pow_add_r, Z.pow_1_r by lia. nia.
Qed.

Lemma valBE_repeat0 b n : valBE b (repeat "0"%char n) = 0.
Proof.
  induction n.
  - reflexivity.
  - simpl repeat. rewrite valBE_cons, IHn. reflexivity.
Qed.

Lemma val_rev_digits b s :
  val b (rev (map digit_val s)) = valBE b s.
Proof.
  induction s as [|c s IH] using rev_ind.
  - reflexivity.
  - rewrite map_app, rev_app_distr. simpl. rewrite IH, valBE_snoc. lia.
Qed.

End JSFacts.

Module ArithFacts.
Import JS Numeral Snowflake JSFacts.

Lemma bits_bound n : 0 <= n -> n < 2 ^ Z.of_nat (bits n).
Proof.
  intros Hn. unfold bits. rewrite Nat2Z.inj_succ, Z2Nat.id by apply Z.log2_nonneg.
  destruct (Z.eq_dec n 0) as [->|Hz].
  - simpl. lia.
  - apply Z.log2_spec. lia.
Qed.

Lemma round_double_small n : Z.abs n < 2 ^ 53 -> round_double n = Num n.
Proof.
  intros H. unfold round_double, round_pos.
  assert (Hl : Z.log2 (Z.abs n) < 53).
  { destruct (Z.eq_dec (Z.abs n) 0) as [->|Hz]; [reflexivity|].
    apply Z.log2_lt_pow2; lia. }
  replace (Z.log2 (Z.abs n) <? 53) with true by (symmetry; lia).
  assert (2 ^ 53 < 2 ^ 1024) by (apply Z.pow_lt_mono_r; lia).
  replace (2 ^ 1024 <=? Z.abs n) with false by (symmetry; lia).
  f_equal. destruct n; simpl; lia.
Qed.

Lemma to_int32_small n : 0 <= n < 2 ^ 31 -> to_int32 n = n.
Proof.
  intros H. unfold to_int32.
  rewrite Z.mod_small; [lia|].
  change (2 ^ 32) with (2 ^ 31 + 2 ^ 31). lia.
Qed.

Lemma option_bind_Some_l {A B} (a : A) (f : A -> option B) :
  (Some a ≫= f) = f a.
Proof. reflexivity. Qed.

Lemma canon_nil : canon [].
Proof. unfold canon. simpl. lia. Qed.

Lemma canon_cons d r : canon (d :: r) <-> (r = [] -> d <> 0) /\ canon r.
Proof.
  unfold canon. destruct r as [|e r]; simpl.
  - split; [intros H; split; [auto|lia] | intros [H _]; auto].
  - split; [intros H; split; [discriminate|auto] | intros [_ H]; auto].
Qed.

Lemma canon_tl l : canon l -> canon (tl l).
Proof.
  destruct l as [|d r]; simpl; [auto|]. intros H. now apply canon_cons in H.
Qed.

Lemma digits_in_tl b l : digits_in b l -> digits_in b (tl l).
Proof.
  destruct l; simpl; [auto|]. intros H. now inversion H.
Qed.

Lemma digits_in_hd b l : 0 < b -> digits_in b l -> 0 <= hd 0 l < b.
Proof.
  destruct l; simpl; [lia|]. intros _ H. now inversion H.
Qed.

Lemma val_hd_tl b l : val b l = hd 0 l + b * val b (tl l).
Proof. destruct l; simpl; lia. Qed.

Lemma val_nonneg b l : 0 < b -> digits_in b l -> 0 <= val b l.
Proof.
  intros Hb. induction 1 as [|d r Hd _ IH]; simpl; nia.
Qed.

(** A canonical digit array of [n] digits is at least [b^(n-1)]. *)
Lemma val_canon_lower b l :
  0 < b -> digits_in b l -> canon l -> l <> [] ->
  b ^ Z.of_nat (length l - 1) <= val b l.
Proof.
  intros Hb. induction 1 as [|d r Hd Hr IH]; intros Hc Hne; [congruence|].
  apply canon_cons in Hc as [Hc1 Hc2].
  destruct r as [|e r'].
  - simpl. specialize (Hc1 eq_refl). lia.
  - assert (Hne' : e :: r' <> []) by discriminate.
    specialize (IH Hc2 Hne').
    cbn [length val] in *.
    replace (Z.of_nat (S (S (length r')) - 1)) with (Z.succ (Z.of_nat (S (length r') - 1))) by lia.
    rewrite Z.pow_succ_r by lia. nia.
Qed.

Lemma val_upper b l :
  0 < b -> digits_in b l -> val b l < b ^ Z.of_nat (length l).
Proof.
  intros Hb. induction 1 as [|d r Hd Hr IH].
  - simpl. lia.
  - cbn [length val]. rewrite Nat2Z.inj_succ, Z.pow_succ_r by lia. nia.
Qed.

(** *** [add] *)

Lemma add_carry_spec b fuel c :
  2 <= b -> 0 <= c < 2 ^ Z.of_nat fuel ->
  val b (add_carry fuel c b) = c
  /\ digits_in b (add_carry fuel c b)
  /\ canon (add_carry fuel c b)
  /\ (add_carry fuel c b = [] -> c = 0).
Proof.
  intros Hb. revert c. induction fuel as [|f IH]; intros c Hc.
  - simpl in *. repeat split; auto using canon_nil; try constructor; lia.
  - cbn [add_carry]. destruct (Z.eqb_spec c 0) as [->|Hz].
    + repeat split; auto using canon_nil. constructor.
    + rewrite Z.rem_mod_nonneg by lia.
      assert (Hq : 0 <= c / b < 2 ^ Z.of_nat f).
      { split; [apply Z.div_pos; lia|].
        apply Z.div_lt_upper_bound; [lia|].
        rewrite Nat2Z.inj_succ, Z.pow_succ_r in Hc by lia.
        assert (0 < 2 ^ Z.of_nat f) by (apply Z.pow_pos_nonneg; lia). nia. }
      destruct (IH _ Hq) as (Hv & Hd & Hcan & Hnil).
      pose proof (Z.mod_pos_bound c b ltac:(lia)) as Hm.
      pose proof (Z.div_mod c b ltac:(lia)) as Hdm.
      repeat split.
      * cbn [val]. rewrite Hv. lia.
      * constructor; auto.
      * apply canon_cons. split; auto. intros E. apply Hnil in E. lia.
      * discriminate.
Qed.

Lemma add_loop_spec b n : forall x y c,
  2 <= b -> 0 <= c -> digits_in b x -> digits_in b y ->
  (length x <= n)%nat -> (length y <= n)%nat ->
  val b (add_loop n x y c b) = val b x + val b y + c
  /\ digits_in b (add_loop n x y c b).
Proof.
  induction n as [|n IH]; intros x y c Hb Hc Hx Hy Lx Ly.
  - destruct x; [|simpl in Lx; lia]. destruct y; [|simpl in Ly; lia].
    cbn [add_loop val].
    destruct (add_carry_spec b (bits c) c Hb) as (Hv & Hd & _).
    { split; [lia|]. now apply bits_bound. }
    split; [lia|auto].
  - cbn [add_loop].
    pose proof (digits_in_hd b x ltac:(lia) Hx) as Hxi.
    pose proof (digits_in_hd b y ltac:(lia) Hy) as Hyi.
    set (zi := c + hd 0 x + hd 0 y).
    assert (Hzi : 0 <= zi) by (unfold zi; lia).
    rewrite Z.rem_mod_nonneg by lia.
    destruct (IH (tl x) (tl y) (zi / b) Hb) as (Hv & Hd).
    { apply Z.div_pos; lia. }
    { now apply digits_in_tl. } { now apply digits_in_tl. }
    { destruct x; simpl in *; lia. } { destruct y; simpl in *; lia. }
    pose proof (Z.mod_pos_bound zi b ltac:(lia)) as Hm.
    pose proof (Z.div_mod zi b ltac:(lia)) as Hdm.
    split.
    + cbn [val]. rewrite Hv, (val_hd_tl b x), (val_hd_tl b y). unfold zi in *. lia.
    + constructor; auto.
Qed.

Lemma add_loop_nil n x y c b : add_loop n x y c b = [] -> n = O /\ c = 0.
Proof.
  destruct n; cbn [add_loop]; [|discriminate].
  intros H. split; [reflexivity|].
  unfold bits in H. cbn [add_carry] in H.
  destruct (Z.eqb_spec c 0); [auto|discriminate].
Qed.

Lemma add_loop_canon b n : forall x y c,
  2 <= b -> 0 <= c -> digits_in b x -> digits_in b y ->
  canon x -> canon y ->
  Nat.max (length x) (length y) = n ->
  canon (add_loop n x y c b).
Proof.
  induction n as [|n IH]; intros x y c Hb Hc Hx Hy Cx Cy Hn.
  - cbn [add_loop].
    apply (add_carry_spec b (bits c) c Hb). split; [lia|now apply bits_bound].
  - cbn [add_loop].
    pose proof (digits_in_hd b x ltac:(lia) Hx) as Hxi.
    pose proof (digits_in_hd b y ltac:(lia) Hy) as Hyi.
    set (zi := c + hd 0 x + hd 0 y).
    assert (Hzi : 0 <= zi) by (unfold zi; lia).
    rewrite Z.rem_mod_nonneg by lia.
    apply canon_cons. split.
    + intros E. apply add_loop_nil in E as [-> Hq].
      assert (Hlt : zi < b).
      { pose proof (Z.div_mod zi b ltac:(lia)).
        pose proof (Z.mod_pos_bound zi b ltac:(lia)). lia. }
      rewrite Z.mod_small by lia.
      destruct x as [|x0 [|x1 x']], y as [|y0 [|y1 y']];
        simpl in Hn; try lia; simpl in zi, Hxi, Hyi.
      * apply canon_cons in Cy as [Cy _]. specialize (Cy eq_refl). unfold zi. lia.
      * apply canon_cons in Cx as [Cx _]. specialize (Cx eq_refl). unfold zi. lia.
      * apply canon_cons in Cx as [Cx _]. specialize (Cx eq_refl). unfold zi. lia.
    + apply IH; auto using digits_in_tl, canon_tl.
      * apply Z.div_pos; lia.
      * destruct x, y; simpl in *; lia.
Qed.

Lemma add_spec b x y :
  2 <= b -> digits_in b x -> digits_in b y ->
  val b (add x y b) = val b x + val b y /\ digits_in b (add x y b).
Proof.
  intros Hb Hx Hy. unfold add.
  destruct (add_loop_spec b (Nat.max (length x) (length y)) x y 0 Hb) as [Hv Hd];
    auto; try lia.
  split; [lia|auto].
Qed.

Lemma add_canon b x y :
  2 <= b -> digits_in b x -> digits_in b y -> canon x -> canon y ->
  canon (add x y b).
Proof.
  intros. unfold add. apply add_loop_canon; auto. lia.
Qed.

End ArithFacts.

Module ConvertFacts.
Import JS Numeral Snowflake JSFacts ArithFacts.

Lemma wf_digits_nil b : wf_digits b [].
Proof. split; [constructor|apply canon_nil]. Qed.

Lemma wf_digits_one b : 1 < b -> wf_digits b [1].
Proof.
  intros Hb. split.
  - constructor; [lia|constructor].
  - unfold canon. simpl. lia.
Qed.

Lemma wf_add b x y :
  2 <= b -> wf_digits b x -> wf_digits b y ->
  wf_digits b (add x y b) /\ val b (add x y b) = val b x + val b y.
Proof.
  intros Hb [Hx Cx] [Hy Cy].
  destruct (add_spec b x y Hb Hx Hy) as [Hv Hd].
  split; [split|]; auto using add_canon.
Qed.

Lemma land1_shiftr1 n :
  0 <= n < 2 ^ 31 ->
  Z.land (to_int32 n) 1 = n mod 2 /\ Z.shiftr (to_int32 n) 1 = n / 2.
Proof.
  intros H. rewrite to_int32_small by auto. split.
  - change 1 with (Z.ones 1). rewrite Z.land_ones by lia. reflexivity.
  - rewrite Z.shiftr_div_pow2 by lia. reflexivity.
Qed.

(** *** [multiplyByNumber] *)

Lemma mul_loop_spec b fuel : forall num result power,
  2 <= b -> 0 < num < 2 ^ Z.of_nat fuel -> num < 2 ^ 31 ->
  wf_digits b result -> wf_digits b power ->
  exists r, mul_loop fuel num result power b = Some r
            /\ val b r = val b result + num * val b power
            /\ wf_digits b r.
Proof.
  induction fuel as [|f IH]; intros num result power Hb Hn H31 Wr Wp.
  - simpl in Hn. lia.
  - cbn [mul_loop].
    destruct (land1_shiftr1 num ltac:(lia)) as [-> ->].
    pose proof (Z.div_mod num 2 ltac:(lia)) as Hdm.
    pose proof (Z.mod_pos_bound num 2 ltac:(lia)) as Hm.
    set (result' := if num mod 2 =? 0 then result else add result power b).
    assert (Hr' : wf_digits b result'
                  /\ val b result' = val b result + (num mod 2) * val b power).
    { unfold result'. destruct (Z.eqb_spec (num mod 2) 0) as [E|E].
      - rewrite E. split; [auto|lia].
      - destruct (wf_add b result power Hb Wr Wp) as [W V].
        split; [auto|]. rewrite V. replace (num mod 2) with 1 by lia. lia. }
    destruct Hr' as [Wr' Vr'].
    destruct (Z.eqb_spec (num / 2) 0) as [E|E].
    + exists result'. split; [reflexivity|split; [|auto]]. rewrite Vr'.
      replace (num mod 2) with num by lia. reflexivity.
    + destruct (wf_add b power power Hb Wp Wp) as [Wpp Vpp].
      destruct (IH (num / 2) result' (add power power b)) as (r & Hr & Vr & Wfr);
        auto.
      * rewrite Nat2Z.inj_succ, Z.pow_succ_r in Hn by lia. lia.
      * lia.
      * exists r. split; [auto|split; [|auto]].
        rewrite Vr, Vr', Vpp. nia.
Qed.

Lemma mul_loop_total b fuel : forall num result power,
  0 < num < 2 ^ Z.of_nat fuel -> num < 2 ^ 31 ->
  is_Some (mul_loop fuel num result power b).
Proof.
  induction fuel as [|f IH]; intros num result power Hn H31.
  - simpl in Hn. lia.
  - cbn [mul_loop].
    destruct (land1_shiftr1 num ltac:(lia)) as [-> ->].
    destruct (Z.eqb_spec (num / 2) 0) as [E|E]; [eauto|].
    rewrite Nat2Z.inj_succ, Z.pow_succ_r in Hn by lia.
    pose proof (Z.div_mod num 2 ltac:(lia)).
    pose proof (Z.mod_pos_bound num 2 ltac:(lia)).
    apply IH; lia.
Qed.

Lemma pow31_lt_pow32 : 2 ^ 31 < 2 ^ Z.of_nat 32.
Proof. reflexivity. Qed.

Lemma multiplyByNumber_spec b num x :
  2 <= b -> 0 <= num < 2 ^ 31 -> wf_digits b x ->
  exists r, multiplyByNumber num x b = Some r
            /\ val b r = num * val b x /\ wf_digits b r.
Proof.
  intros Hb Hn Wx. unfold multiplyByNumber.
  replace (num <? 0) with false by (symmetry; lia).
  destruct (Z.eqb_spec num 0) as [->|Hz].
  - exists []. split; [reflexivity|split; [simpl; lia|apply wf_digits_nil]].
  - pose proof pow31_lt_pow32.
    destruct (mul_loop_spec b 32 num [] x Hb) as (r & Hr & Vr & Wfr);
      auto using wf_digits_nil; try lia.
    exists r. split; [auto|split; [|auto]]. rewrite Vr. simpl. lia.
Qed.

Lemma multiplyByNumber_total b num x :
  0 <= num < 2 ^ 31 -> is_Some (multiplyByNumber num x b).
Proof.
  intros Hn. unfold multiplyByNumber.
  replace (num <? 0) with false by (symmetry; lia).
  destruct (Z.eqb_spec num 0); [eauto|].
  pose proof pow31_lt_pow32. apply mul_loop_total; lia.
Qed.

(** *** [convertBase] *)

Lemma convert_loop_spec fromBase toBase digits : forall out power,
  2 <= toBase -> 0 < fromBase < 2 ^ 31 ->
  digits_in fromBase digits ->
  wf_digits toBase out -> wf_digits toBase power ->
  exists r, convert_loop digits out power fromBase toBase = Some r
            /\ val toBase r
               = val toBase out + val toBase power * val fromBase digits
            /\ wf_digits toBase r.
Proof.
  induction digits as [|d rest IH]; intros out power Hto Hfrom Hd Wo Wp.
  - exists out. split; [reflexivity|split; [simpl; lia|auto]].
  - inversion Hd as [|? ? Hd0 Hrest]; subst.
    cbn [convert_loop].
    destruct (multiplyByNumber_spec toBase fromBase power Hto ltac:(lia) Wp)
      as (p' & Hp' & Vp' & Wp').
    rewrite Hp'.
    destruct (Z.eqb_spec d 0) as [->|Hz].
    + cbn. destruct (IH out p' Hto Hfrom Hrest Wo Wp') as (r & Hr & Vr & Wfr).
      exists r. split; [auto|split; [|auto]].
      rewrite Vr, Vp'. cbn [val]. ring.
    + destruct (multiplyByNumber_spec toBase d power Hto ltac:(lia) Wp)
        as (m & Hm & Vm & Wm).
      rewrite Hm. cbn.
      destruct (wf_add toBase out m Hto Wo Wm) as [Wo' Vo'].
      destruct (IH (add out m toBase) p' Hto Hfrom Hrest Wo' Wp')
        as (r & Hr & Vr & Wfr).
      exists r. split; [auto|split; [|auto]].
      rewrite Vr, Vo', Vm, Vp'. cbn [val]. ring.
Qed.

Lemma convert_loop_total fromBase toBase digits : forall out power,
  0 <= fromBase < 2 ^ 31 -> digits_in (2 ^ 31) digits ->
  is_Some (convert_loop digits out power fromBase toBase).
Proof.
  induction digits as [|d rest IH]; intros out power Hfrom Hd.
  - simpl. eauto.
  - inversion Hd as [|? ? Hd0 Hrest]; subst. cbn [convert_loop].
    destruct (multiplyByNumber_total toBase fromBase power Hfrom) as [p' ->].
    destruct (Z.eqb_spec d 0).
    + cbn. apply IH; auto.
    + destruct (multiplyByNumber_total toBase d power Hd0) as [m ->].
      cbn. apply IH; auto.
Qed.

End ConvertFacts.

Module StringFacts.
Import JS Numeral Snowflake JSFacts ArithFacts ConvertFacts.

Lemma char_digit_range c d : char_digit c = Some d -> 0 <= d < 36.
Proof.
  unfold char_digit. pose proof (code_range c).
  repeat match goal with
         | |- context [if ?b then _ else _] => destruct b eqn:?
         end; intros E; inversion E; lia.
Qed.

Lemma is_digit_plain b c :
  b <= 16 -> is_digit b c = true ->
  is_ws c = false /\ (code c =? 45) = false /\ (code c =? 43) = false
  /\ (code c =? 120) = false /\ (code c =? 88) = false
  /\ lower_char c = c.
Proof.
  unfold is_digit, is_ws, lower_char. intros Hb H.
  assert (Hl : ((65 <=? code c) && (code c <=? 90))
               || ((192 <=? code c) && (code c <=? 222) && negb (code c =? 215))
               = false) by lia.
  rewrite Hl. repeat split; lia.
Qed.

Lemma toLowerCase_numeral b s :
  b <= 16 -> numeral b s = true -> toLowerCase s = s.
Proof.
  intros Hb. induction s as [|c s IH]; simpl; [auto|].
  intros H. apply andb_true_iff in H as [Hc Hs].
  rewrite IH by auto. f_equal. now apply (is_digit_plain b).
Qed.

Lemma digit_val_digit_char d : 0 <= d < 36 -> digit_val (digit_char d) = d.
Proof.
  intros H. unfold digit_val. now rewrite char_digit_digit_char.
Qed.

Lemma parse_digits_numeral b s : forall acc,
  numeral b s = true ->
  parse_digits b s acc
  = match s with
    | [] => acc
    | _ => Some (val_from b (default 0 acc) s)
    end.
Proof.
  induction s as [|c r IH]; intros acc H; [reflexivity|].
  simpl in H. apply andb_true_iff in H as [Hc Hr].
  destruct (is_digit_spec _ _ Hc) as (d & Hd & _ & Hcd & _).
  cbn [parse_digits]. rewrite Hcd.
  replace (d <? b) with true by (symmetry; lia).
  rewrite IH by auto.
  unfold val_from. cbn [fold_left]. unfold digit_val. rewrite Hcd. simpl.
  destruct r; reflexivity.
Qed.

Lemma strip_0x_numeral b s :
  b <= 16 -> numeral b s = true -> strip_0x s = None.
Proof.
  intros Hb H. destruct s as [|c0 [|c1 r]]; try reflexivity.
  simpl in H. apply andb_true_iff in H as [_ H].
  apply andb_true_iff in H as [H1 _].
  destruct (is_digit_plain b c1 Hb H1) as (_ & _ & _ & Hx & HX & _).
  unfold strip_0x. rewrite Hx, HX. simpl. now rewrite andb_false_r.
Qed.

(** [parseInt] on a non-empty numeral reads its value. *)
Lemma parseInt_numeral b s :
  2 <= b <= 16 -> s <> [] -> numeral b s = true ->
  parseInt s (Some b) = round_double (valBE b s).
Proof.
  intros Hb Hne H. destruct s as [|c r]; [congruence|].
  pose proof H as H'. simpl in H'. apply andb_true_iff in H' as [Hc _].
  destruct (is_digit_plain b c ltac:(lia) Hc) as (Hws & Hm & Hp & _).
  unfold parseInt. cbn [skip_ws]. rewrite Hws, Hm, Hp.
  cbn [default]. change (id b) with b.
  replace (negb (b =? 0) && ((b <? 2) || (36 <? b))) with false by lia.
  rewrite (strip_0x_numeral b) by (auto; lia).
  replace (b =? 0) with false by lia. simpl orb.
  assert (Hpd : parse_digits b (c :: r) None = Some (valBE b (c :: r))).
  { rewrite parse_digits_numeral by auto. reflexivity. }
  destruct (b =? 16); rewrite Hpd; reflexivity.
Qed.

(** The one-argument [parseInt] on a non-empty decimal numeral. *)
Lemma parseInt_decimal s :
  s <> [] -> numeral 10 s = true ->
  parseInt s None = round_double (valBE 10 s).
Proof.
  intros Hne H. destruct s as [|c r]; [congruence|].
  pose proof H as H'. simpl in H'. apply andb_true_iff in H' as [Hc _].
  destruct (is_digit_plain 10 c ltac:(lia) Hc) as (Hws & Hm & Hp & _).
  unfold parseInt. cbn [skip_ws]. rewrite Hws, Hm, Hp.
  cbn [default]. change (id 0) with 0.
  rewrite (strip_0x_numeral 10) by (auto; lia).
  cbn [Z.eqb negb andb orb].
  rewrite parse_digits_numeral by auto. reflexivity.
Qed.

Lemma parseInt_char b c :
  2 <= b <= 16 -> is_digit b c = true ->
  parseInt [c] (Some b) = Num (digit_val c).
Proof.
  intros Hb Hc.
  rewrite (parseInt_numeral b [c] Hb);
    [|discriminate|simpl; now rewrite Hc].
  pose proof (digit_val_range _ _ Hc).
  unfold valBE, val_from. simpl. apply round_double_small. lia.
Qed.

Lemma parse_rev_numeral b s : forall ary,
  2 <= b <= 16 -> numeral b s = true ->
  parse_rev s b ary = Some (ary ++ map digit_val s).
Proof.
  induction s as [|c r IH]; intros ary Hb H.
  - simpl. now rewrite app_nil_r.
  - simpl in H. apply andb_true_iff in H as [Hc Hr].
    cbn [parse_rev]. rewrite parseInt_char by auto.
    rewrite IH by auto. simpl. now rewrite <- app_assoc.
Qed.

Lemma numeral_rev b s : numeral b (rev s) = numeral b s.
Proof.
  induction s as [|c r IH]; [reflexivity|].
  simpl. rewrite numeral_app, IH. simpl. rewrite andb_true_r. apply andb_comm.
Qed.

Lemma parseToDigitsArray_numeral b s :
  2 <= b <= 16 -> numeral b s = true ->
  parseToDigitsArray s b = Some (rev (map digit_val s)).
Proof.
  intros Hb H. unfold parseToDigitsArray.
  rewrite parse_rev_numeral by (auto; now rewrite numeral_rev).
  simpl. now rewrite map_rev.
Qed.

Lemma digits_in_map_digit_val b s :
  numeral b s = true -> digits_in b (map digit_val s).
Proof.
  induction s as [|c r IH]; simpl; intros H; [constructor|].
  apply andb_true_iff in H as [Hc Hr].
  constructor; [now apply digit_val_range|now apply IH].
Qed.

Lemma digits_in_rev b l : digits_in b l -> digits_in b (rev l).
Proof.
  unfold digits_in. rewrite !List.Forall_forall. intros H x Hx.
  apply H. now apply in_rev.
Qed.

(** *** [toString] *)

Lemma digits_of_zero fuel b acc : digits_of fuel b 0 acc = acc.
Proof. destruct fuel; reflexivity. Qed.

Lemma int_to_string_digit b d :
  2 <= b -> 0 <= d < b -> int_to_string b d = [digit_char d].
Proof.
  intros Hb Hd. unfold int_to_string.
  destruct (Z.eqb_spec d 0) as [->|Hz]; [reflexivity|].
  replace (d <? 0) with false by lia.
  unfold bits. cbn [digits_of].
  replace (d =? 0) with false by lia.
  rewrite Z.div_small, Z.mod_small by lia.
  now rewrite digits_of_zero.
Qed.

Lemma digits_of_spec b fuel : forall n acc,
  2 <= b <= 36 -> 0 <= n < 2 ^ Z.of_nat fuel ->
  exists ds, digits_of fuel b n acc = ds ++ acc
             /\ numeral b ds = true /\ valBE b ds = n
             /\ forall k, 0 <= k -> n < b ^ k -> Z.of_nat (length ds) <= k.
Proof.
  induction fuel as [|f IH]; intros n acc Hb Hn.
  - exists []. simpl in *.
    split; [reflexivity|split; [reflexivity|split]].
    + unfold valBE. simpl. lia.
    + intros. simpl. lia.
  - cbn [digits_of]. destruct (Z.eqb_spec n 0) as [->|Hz].
    + exists []. split; [reflexivity|split; [reflexivity|split]].
      * reflexivity.
      * intros. simpl. lia.
    + pose proof (Z.div_mod n b ltac:(lia)) as Hdm.
      pose proof (Z.mod_pos_bound n b ltac:(lia)) as Hm.
      assert (Hq : 0 <= n / b < 2 ^ Z.of_nat f).
      { split; [apply Z.div_pos; lia|].
        apply Z.div_lt_upper_bound; [lia|].
        rewrite Nat2Z.inj_succ, Z.pow_succ_r in Hn by lia.
        assert (0 < 2 ^ Z.of_nat f) by (apply Z.pow_pos_nonneg; lia). nia. }
      destruct (IH (n / b) (digit_char (n mod b) :: acc) Hb Hq)
        as (ds & E & Hnum & Hv & Hlen).
      exists (ds ++ [digit_char (n mod b)]).
      split; [|split; [|split]].
      * rewrite E, <- app_assoc. reflexivity.
      * rewrite numeral_app, Hnum. simpl.
        rewrite is_digit_digit_char by lia. reflexivity.
      * rewrite valBE_snoc, Hv, digit_val_digit_char by lia. lia.
      * intros k Hk Hlt. rewrite length_app. simpl length.
        assert (k <> 0) by (intros ->; simpl in Hlt; lia).
        assert (Hlt' : n / b < b ^ (k - 1)).
        { apply Z.div_lt_upper_bound; [lia|].
          rewrite <- Z.pow_succ_r by lia.
          replace (Z.succ (k - 1)) with k by lia. auto. }
        specialize (Hlen (k - 1) ltac:(lia) Hlt'). lia.
Qed.

Lemma int_to_string_spec b n :
  2 <= b <= 36 -> 0 <= n ->
  numeral b (int_to_string b n) = true
  /\ valBE b (int_to_string b n) = n
  /\ forall k, 1 <= k -> n < b ^ k -> Z.of_nat (length (int_to_string b n)) <= k.
Proof.
  intros Hb Hn. unfold int_to_string.
  destruct (Z.eqb_spec n 0) as [->|Hz].
  - split; [|split].
    + unfold numeral, lit. simpl. rewrite andb_true_r.
      change "0"%char with (digit_char 0). apply is_digit_digit_char; lia.
    + reflexivity.
    + intros k Hk _. simpl. lia.
  - replace (n <? 0) with false by lia.
    destruct (digits_of_spec b (bits n) n [] Hb) as (ds & E & Hnum & Hv & Hlen).
    { split; [lia|]. apply bits_bound. lia. }
    rewrite app_nil_r in E. rewrite E. split; [auto|split; [auto|]].
    intros k Hk. apply Hlen. lia.
Qed.

End StringFacts.

Module HexFacts.
Import JS Numeral Snowflake JSFacts ArithFacts ConvertFacts StringFacts.

Lemma length_padStart s n c :
  Z.of_nat (length (padStart s n c)) = Z.max n (Z.of_nat (length s)).
Proof.
  unfold padStart. rewrite length_app, repeat_length. lia.
Qed.

Lemma numeral_padStart b s n :
  0 < b -> numeral b (padStart s n "0"%char) = numeral b s.
Proof.
  intros Hb. unfold padStart. now rewrite numeral_app, numeral_repeat0.
Qed.

Lemma valBE_padStart b s n : valBE b (padStart s n "0"%char) = valBE b s.
Proof.
  unfold padStart. rewrite valBE_app, valBE_repeat0. lia.
Qed.

Lemma substring_prefix s n :
  0 <= n -> substring s 0 n = firstn (Z.to_nat n) s.
Proof.
  intros Hn. unfold substring, clamp.
  set (len := Z.of_nat (length s)).
  replace (Z.min (Z.max 0 (Z.min 0 len)) (Z.max 0 (Z.min n len))) with 0 by lia.
  replace (Z.max (Z.max 0 (Z.min 0 len)) (Z.max 0 (Z.min n len)) - 0)
    with (Z.min n len) by lia.
  simpl skipn. destruct (Z.le_ge_cases n len).
  - now rewrite Z.min_l by lia.
  - rewrite Z.min_r by lia. unfold len. rewrite Nat2Z.id.
    rewrite !firstn_all2; auto; lia.
Qed.

Lemma substring_chunk s i :
  0 < i <= Z.of_nat (length s) ->
  substring s (i - 4) i
  = firstn (Z.to_nat (i - Z.max 0 (i - 4))) (skipn (Z.to_nat (Z.max 0 (i - 4))) s).
Proof.
  intros Hi. unfold substring, clamp.
  set (len := Z.of_nat (length s)) in *.
  replace (Z.max 0 (Z.min (i - 4) len)) with (Z.max 0 (i - 4)) by lia.
  replace (Z.max 0 (Z.min i len)) with i by lia.
  replace (Z.min (Z.max 0 (i - 4)) i) with (Z.max 0 (i - 4)) by lia.
  replace (Z.max (Z.max 0 (i - 4)) i) with i by lia.
  reflexivity.
Qed.

Lemma firstn_split {A} (l : list A) a b :
  firstn (a + b) l = firstn a l ++ firstn b (skipn a l).
Proof.
  revert l. induction a as [|a IH]; intros l; [reflexivity|].
  destruct l as [|x l]; simpl.
  - now rewrite firstn_nil.
  - now rewrite IH.
Qed.

Lemma numeral_firstn b n s : numeral b s = true -> numeral b (firstn n s) = true.
Proof.
  revert s. induction n as [|n IH]; intros [|c s] H; simpl in *; auto.
  apply andb_true_iff in H as [Hc Hs]. now rewrite Hc, IH.
Qed.

Lemma numeral_skipn b n s : numeral b s = true -> numeral b (skipn n s) = true.
Proof.
  revert s. induction n as [|n IH]; intros [|c s] H; simpl in *; auto.
  apply andb_true_iff in H as [Hc Hs]. now apply IH.
Qed.

(** One group of at most four bits becomes one hexadecimal digit. *)
Lemma hex_digit_of_chunk ch :
  ch <> [] -> numeral 2 ch = true -> (length ch <= 4)%nat ->
  num_to_string 16 (parseInt ch (Some 2)) = [digit_char (valBE 2 ch)]
  /\ 0 <= valBE 2 ch < 16.
Proof.
  intros Hne Hnum Hlen.
  pose proof (valBE_bound 2 ch ltac:(lia) Hnum) as Hv.
  assert (Hp : 2 ^ Z.of_nat (length ch) <= 2 ^ 4)
    by (apply Z.pow_le_mono_r; lia).
  change (2 ^ 4) with 16 in Hp.
  split; [|lia].
  rewrite parseInt_numeral by (auto; lia).
  rewrite round_double_small.
  - simpl. apply int_to_string_digit; lia.
  - assert (16 < 2 ^ 53) by reflexivity. lia.
Qed.

Lemma hex_loop_done fuel bid i id : i <= 0 -> hex_loop fuel bid i id = id.
Proof.
  intros Hi. destruct fuel; simpl; [reflexivity|].
  now replace (0 <? i) with false by lia.
Qed.

Lemma hex_loop_spec bid :
  numeral 2 bid = true ->
  forall fuel i id,
    i <= Z.of_nat (length bid) -> i <= Z.of_nat fuel ->
    exists h, hex_loop fuel bid i id = h ++ id
              /\ numeral 16 h = true
              /\ valBE 16 h = valBE 2 (firstn (Z.to_nat i) bid).
Proof.
  intros Hbid. induction fuel as [|f IH]; intros i id Hi Hf.
  - exists []. simpl. replace (Z.to_nat i) with O by lia.
    split; [reflexivity|split; reflexivity].
  - destruct (Z.le_gt_cases i 0) as [Hle|Hpos].
    + exists []. rewrite hex_loop_done by auto.
      replace (Z.to_nat i) with O by lia.
      split; [reflexivity|split; reflexivity].
    + cbn [hex_loop]. replace (0 <? i) with true by lia.
      rewrite substring_chunk by lia.
      set (lo := Z.max 0 (i - 4)).
      set (ch := firstn (Z.to_nat (i - lo)) (skipn (Z.to_nat lo) bid)).
      assert (Hchlen : length ch = Z.to_nat (i - lo)).
      { unfold ch. rewrite firstn_length_le; [reflexivity|].
        rewrite length_skipn. lia. }
      assert (Hch : num_to_string 16 (parseInt ch (Some 2))
                    = [digit_char (valBE 2 ch)] /\ 0 <= valBE 2 ch < 16).
      { apply hex_digit_of_chunk.
        - intros E. rewrite E in Hchlen. simpl in Hchlen. lia.
        - unfold ch. now apply numeral_firstn, numeral_skipn.
        - lia. }
      destruct Hch as [-> Hv].
      destruct (IH (i - 4) ([digit_char (valBE 2 ch)] ++ id))
        as (h & Eh & Hnum & Hval); try lia.
      exists (h ++ [digit_char (valBE 2 ch)]).
      split; [|split].
      * rewrite Eh, <- app_assoc. reflexivity.
      * rewrite numeral_app, Hnum. simpl.
        rewrite is_digit_digit_char by lia. reflexivity.
      * rewrite valBE_snoc, Hval, digit_val_digit_char by lia.
        replace (Z.to_nat i) with (Z.to_nat lo + Z.to_nat (i - lo))%nat by lia.
        rewrite firstn_split. fold ch. rewrite valBE_app, Hchlen.
        replace (Z.to_nat (i - 4)) with (Z.to_nat lo) by lia.
        destruct (Z.le_gt_cases (i - 4) 0).
        -- replace (Z.to_nat lo) with O by lia. simpl firstn.
           rewrite valBE_nil. lia.
        -- replace (Z.of_nat (Z.to_nat (i - lo))) with 4 by lia.
           change (2 ^ 4) with 16. lia.
Qed.

Lemma to_hex_spec bid :
  numeral 2 bid = true ->
  numeral 16 (to_hex bid) = true /\ valBE 16 (to_hex bid) = valBE 2 bid.
Proof.
  intros H. unfold to_hex.
  destruct (hex_loop_spec bid H (length bid) (Z.of_nat (length bid)) [])
    as (h & E & Hnum & Hv); try lia.
  rewrite app_nil_r in E. rewrite Nat2Z.id, firstn_all in Hv.
  rewrite E. auto.
Qed.

(** *** [hexToDec] on a hexadecimal numeral *)

Lemma digits_to_string_spec b r :
  2 <= b -> digits_in b r -> digits_to_string r b = map digit_char (rev r).
Proof.
  intros Hb Hr. unfold digits_to_string.
  apply digits_in_rev in Hr. induction Hr as [|d l Hd _ IH]; [reflexivity|].
  simpl. now rewrite int_to_string_digit, IH by lia.
Qed.

Lemma map_digit_val_char b l :
  b <= 36 -> digits_in b l -> map digit_val (map digit_char l) = l.
Proof.
  intros Hb. induction 1 as [|d l Hd _ IH]; [reflexivity|].
  simpl. now rewrite digit_val_digit_char, IH by lia.
Qed.

Lemma numeral_map_digit_char b l :
  b <= 36 -> digits_in b l -> numeral b (map digit_char l) = true.
Proof.
  intros Hb. induction 1 as [|d l Hd _ IH]; [reflexivity|].
  simpl. now rewrite is_digit_digit_char, IH by lia.
Qed.

Lemma valBE_map_digit_char b r :
  b <= 36 -> digits_in b r -> valBE b (map digit_char (rev r)) = val b r.
Proof.
  intros Hb Hr. rewrite <- val_rev_digits.
  rewrite (map_digit_val_char b) by auto using digits_in_rev.
  now rewrite rev_involutive.
Qed.

Lemma no_0x_prefix h : numeral 16 h = true -> substring h 0 2 <> lit "0x".
Proof.
  intros H. rewrite substring_prefix by lia.
  destruct h as [|c0 [|c1 r]]; try discriminate.
  simpl. intros E. inversion E; subst.
  unfold numeral in H. cbn [forallb] in H.
  replace (is_digit 16 "x"%char) with false in H by reflexivity.
  rewrite andb_false_l, andb_false_r in H. discriminate.
Qed.

Lemma convertBase_numeral h :
  numeral 16 h = true ->
  exists r, wf_digits 10 r /\ val 10 r = valBE 16 h
            /\ convertBase h 16 10 = Some (map digit_char (rev r)).
Proof.
  intros H.
  unfold convertBase. rewrite parseToDigitsArray_numeral by (auto; lia).
  rewrite option_bind_Some_l.
  destruct (convert_loop_spec 16 10 (rev (map digit_val h)) [] [1])
    as (r & E & Hv & Wr); try lia.
  { now apply digits_in_rev, digits_in_map_digit_val. }
  { apply wf_digits_nil. }
  { apply wf_digits_one. lia. }
  rewrite E, option_bind_Some_l.
  exists r. split; [auto|split].
  - rewrite Hv, val_rev_digits. simpl. lia.
  - rewrite digits_to_string_spec by (try apply Wr; lia). reflexivity.
Qed.

Lemma hexToDec_numeral h :
  numeral 16 h = true ->
  exists r, wf_digits 10 r /\ val 10 r = valBE 16 h
            /\ hexToDec h = Some (map digit_char (rev r)).
Proof.
  intros H. unfold hexToDec.
  rewrite bool_decide_eq_false_2 by now apply no_0x_prefix.
  rewrite (toLowerCase_numeral 16) by (auto; lia).
  now apply convertBase_numeral.
Qed.

Lemma numeral_toLowerCase h :
  hex_string h = true -> numeral 16 (toLowerCase h) = true.
Proof.
  unfold hex_string, numeral, toLowerCase.
  induction h as [|c h IH]; simpl; [auto|].
  intros H. apply andb_true_iff in H as [Hc Hh]. now rewrite Hc, IH.
Qed.

Lemma no_0x_prefix_hex h : hex_string h = true -> substring h 0 2 <> lit "0x".
Proof.
  intros H. rewrite substring_prefix by lia.
  destruct h as [|c0 [|c1 r]]; try discriminate.
  simpl. intros E. inversion E; subst.
  unfold hex_string in H. cbn [forallb] in H.
  replace (is_digit 16 (lower_char "x"%char)) with false in H by reflexivity.
  rewrite andb_false_l, andb_false_r in H. discriminate.
Qed.

(** [hexToDec] on hexadecimal digits of either case: the canonical decimal
    numeral of the value. *)
Lemma hexToDec_hex h :
  hex_string h = true ->
  exists r, wf_digits 10 r /\ val 10 r = valBE 16 (toLowerCase h)
            /\ hexToDec h = Some (map digit_char (rev r)).
Proof.
  intros H. unfold hexToDec.
  rewrite bool_decide_eq_false_2 by now apply no_0x_prefix_hex.
  now apply convertBase_numeral, numeral_toLowerCase.
Qed.

(** The decimal numeral written by [convertBase]: its digits, its value
    and its length. *)
Lemma decimal_of_digits r :
  wf_digits 10 r ->
  numeral 10 (map digit_char (rev r)) = true
  /\ valBE 10 (map digit_char (rev r)) = val 10 r
  /\ forall k, 0 <= k -> val 10 r < 10 ^ k ->
               Z.of_nat (length (map digit_char (rev r))) <= k.
Proof.
  intros [Hd Hc]. split; [|split].
  - apply numeral_map_digit_char; [lia|now apply digits_in_rev].
  - apply valBE_map_digit_char; [lia|auto].
  - intros k Hk Hlt. rewrite length_map, length_rev.
    destruct r as [|d r']; [simpl; lia|].
    pose proof (val_canon_lower 10 (d :: r') ltac:(lia) Hd Hc ltac:(discriminate))
      as Hlow.
    assert (Z.of_nat (length (d :: r') - 1) < k).
    { apply (Z.pow_lt_mono_r_iff 10); lia. }
    simpl length in *. lia.
Qed.

(** *** [null] comes from the digits only *)

Lemma parseInt_char_cases b c :
  parseInt [c] (Some b) = NaN
  \/ exists n, parseInt [c] (Some b) = Num n /\ 0 <= n < 36 /\ 0 <= b <= 36.
Proof.
  unfold parseInt. cbn [skip_ws default]. change (id b) with b.
  destruct (is_ws c).
  - left. cbn.
    destruct (negb (b =? 0) && ((b <? 2) || (36 <? b))); [reflexivity|].
    destruct ((b =? 0) || (b =? 16)); reflexivity.
  - destruct (code c =? 45).
    { left. destruct (negb (b =? 0) && ((b <? 2) || (36 <? b))); [reflexivity|].
      destruct ((b =? 0) || (b =? 16)); reflexivity. }
    assert (Hs : (if code c =? 43 then (false, @nil ascii) else (false, [c]))
                 = (false, if code c =? 43 then [] else [c]))
      by (destruct (code c =? 43); reflexivity).
    rewrite Hs. clear Hs.
    destruct (negb (b =? 0) && ((b <? 2) || (36 <? b))) eqn:Hr;
      [left; reflexivity|].
    set (s := if code c =? 43 then [] else [c]).
    assert (Hstrip : strip_0x s = None)
      by (unfold s; destruct (code c =? 43); reflexivity).
    rewrite Hstrip.
    set (r1 := if b =? 0 then 10 else b).
    assert (Hr1 : (if (b =? 0) || (b =? 16) then (r1, s) else (b, s)) = (r1, s)).
    { unfold r1. destruct (Z.eqb_spec b 0); simpl; [reflexivity|].
      destruct (b =? 16); reflexivity. }
    rewrite Hr1. clear Hr1.
    unfold s. destruct (code c =? 43); [left; reflexivity|].
    cbn [parse_digits].
    destruct (char_digit c) as [d|] eqn:Hd; [|left; reflexivity].
    apply char_digit_range in Hd.
    destruct (d <? r1); [|left; reflexivity].
    cbn [default]. change (id 0) with 0.
    assert (36 < 2 ^ 53) by reflexivity.
    rewrite round_double_small by lia.
    right. exists (0 * r1 + d). split; [reflexivity|]. split; lia.
Qed.

(** On one character [parseInt] gives a digit or [NaN], never an
    infinity, so that the test [isNaN(n)] of [parseToDigitsArray] is the
    match of [parse_rev]. *)
Lemma parseInt_char_finite b c neg : parseInt [c] (Some b) <> Inf neg.
Proof.
  destruct (parseInt_char_cases b c) as [E|(n & E & _)]; rewrite E; discriminate.
Qed.

Lemma parseInt_char_range b c n :
  parseInt [c] (Some b) = Num n -> 0 <= n < 36 /\ 0 <= b <= 36.
Proof.
  destruct (parseInt_char_cases b c) as [E|(m & E & H)]; rewrite E;
    [discriminate|].
  intros En. inversion En; subst. exact H.
Qed.

Lemma digits_in_app b l m : digits_in b l -> digits_in b m -> digits_in b (l ++ m).
Proof. unfold digits_in. intros. now apply List.Forall_app. Qed.

Lemma parse_rev_range s b : forall ary l,
  parse_rev s b ary = Some l -> digits_in 36 ary ->
  digits_in 36 l /\ (s <> [] -> 0 <= b <= 36).
Proof.
  induction s as [|c r IH]; intros ary l H Hary.
  - inversion H; subst. split; [auto|congruence].
  - cbn [parse_rev] in H.
    destruct (parseInt [c] (Some b)) as [| |n] eqn:E; try discriminate.
    apply parseInt_char_range in E as [Hn Hb].
    destruct (IH _ _ H) as [Hl _].
    { apply digits_in_app; [auto|]. constructor; [lia|constructor]. }
    split; [auto|intros _; exact Hb].
Qed.

(** [convertBase] returns [null] exactly when [parseToDigitsArray] does:
    on parsed digits neither call of [multiplyByNumber] returns [null]. *)
Lemma convertBase_null_iff s fromBase toBase :
  convertBase s fromBase toBase = None
  <-> parseToDigitsArray s fromBase = None.
Proof.
  unfold convertBase.
  destruct (parseToDigitsArray s fromBase) as [digits|] eqn:E;
    [|split; reflexivity].
  rewrite option_bind_Some_l. split; [|discriminate].
  unfold parseToDigitsArray in E.
  destruct (parse_rev_range _ _ _ _ E ltac:(constructor)) as [Hd Hb].
  assert (H36 : 36 < 2 ^ 31) by reflexivity.
  assert (Hd' : digits_in (2 ^ 31) digits).
  { eapply List.Forall_impl; [|exact Hd]. intros a Ha. simpl in Ha. lia. }
  destruct digits as [|d rest].
  - cbn. discriminate.
  - assert (Hne : rev s <> []).
    { intros En. rewrite En in E. cbn in E. discriminate. }
    specialize (Hb Hne).
    destruct (convert_loop_total fromBase toBase (d :: rest) [] [1])
      as [out Hout]; [lia|auto|].
    rewrite Hout. cbn. discriminate.
Qed.

End HexFacts.

Module GeneratorFacts.
Import JS Numeral Snowflake Run JSFacts ArithFacts ConvertFacts StringFacts HexFacts.

Lemma wf_state_spec st :
  wf_state st = true ->
  numeral 2 (instanceNumber st) = true
  /\ 0 <= seq st <= 4095 /\ 0 <= rnd st < 1024.
Proof.
  unfold wf_state. rewrite !andb_true_iff.
  intros [[[[H1 H2] H3] H4] H5]. split; [exact H1|lia].
Qed.

(** A number below [2^k] written in binary and padded to [k] characters
    is a [k]-bit string of that value. *)
Lemma padded_bits n k :
  1 <= k -> 0 <= n < 2 ^ k ->
  let s := padStart (int_to_string 2 n) k "0"%char in
  numeral 2 s = true /\ valBE 2 s = n /\ Z.of_nat (length s) = k.
Proof.
  intros Hk Hn s. unfold s.
  destruct (int_to_string_spec 2 n ltac:(lia) ltac:(lia)) as (Hnum & Hv & Hlen).
  specialize (Hlen k Hk ltac:(lia)).
  rewrite numeral_padStart, valBE_padStart, length_padStart by lia.
  split; [auto|split; [auto|lia]].
Qed.

Lemma bid_of_spec st s time :
  wf_state st = true -> 0 <= s <= 4095 -> 0 <= time - offset st ->
  numeral 2 (bid_of st s time) = true
  /\ valBE 2 (bid_of st s time) = id_value st s time.
Proof.
  intros Hwf Hs Ht.
  destruct (wf_state_spec st Hwf) as (Hi & _ & Hr).
  destruct (int_to_string_spec 2 (time - offset st) ltac:(lia) Ht)
    as (Hn1 & Hv1 & _).
  destruct (padded_bits s 12 ltac:(lia)) as (Hn2 & Hv2 & Hl2).
  { change (2 ^ 12) with 4096. lia. }
  destruct (padded_bits (rnd st) 10 ltac:(lia)) as (Hn3 & Hv3 & Hl3).
  { change (2 ^ 10) with 1024. lia. }
  unfold bid_of, id_value. split.
  - rewrite !numeral_app, Hn1, Hi, Hn2, Hn3. reflexivity.
  - rewrite !valBE_app, !length_app, !Nat2Z.inj_add, Hl2, Hl3, Hv1, Hv2, Hv3.
    rewrite !Z.pow_add_r by lia. ring.
Qed.

(** The result of [generate] in a well-formed state: the decimal numeral
    [d] of the composed number, padded and cut to 23 characters. *)
Lemma generate_spec st now :
  wf_state st = true ->
  let '(s, time) := next_seq st (now - epoch) in
  0 <= time - offset st ->
  exists d,
    hexToDec (to_hex (bid_of st s time)) = Some d
    /\ numeral 10 d = true
    /\ valBE 10 d = id_value st s time
    /\ (forall k, 0 <= k -> id_value st s time < 10 ^ k ->
                  Z.of_nat (length d) <= k)
    /\ fst (generate st now)
       = Ret (most_significant 23 (padStart d 23 "0"%char))
    /\ 0 <= s <= 4095.
Proof.
  intros Hwf. unfold generate.
  destruct (next_seq st (now - epoch)) as [s time] eqn:Ens. intros Ht.
  assert (Hs : 0 <= s <= 4095).
  { destruct (wf_state_spec st Hwf) as (_ & Hq & _).
    unfold next_seq in Ens.
    destruct (lastTime st =? now - epoch);
      [destruct (4095 <? seq st + 1) eqn:E|]; inversion Ens; lia. }
  destruct (bid_of_spec st s time Hwf Hs Ht) as [Hnum Hval].
  destruct (to_hex_spec _ Hnum) as [Hhex Hhv].
  destruct (hexToDec_numeral _ Hhex) as (r & Wr & Vr & E).
  destruct (decimal_of_digits r Wr) as (Hd & Hdv & Hdl).
  exists (map digit_char (rev r)).
  rewrite E. cbn [fst].
  split; [reflexivity|]. split; [auto|]. split; [congruence|].
  split; [|split; [|auto]].
  - intros k Hk Hlt. apply Hdl; [auto|]. congruence.
  - rewrite substring_prefix by lia. reflexivity.
Qed.

Lemma most_significant_length d :
  length (most_significant 23 (padStart d 23 "0"%char)) = 23%nat.
Proof.
  unfold most_significant. apply firstn_length_le.
  pose proof (length_padStart d 23 "0"%char). lia.
Qed.

Lemma most_significant_numeral d :
  numeral 10 d = true ->
  numeral 10 (most_significant 23 (padStart d 23 "0"%char)) = true.
Proof.
  intros H. apply numeral_firstn. now rewrite numeral_padStart by lia.
Qed.

(** Up to 23 digits nothing is cut. *)
Lemma most_significant_small d :
  (length d <= 23)%nat ->
  most_significant 23 (padStart d 23 "0"%char) = padStart d 23 "0"%char.
Proof.
  intros H. unfold most_significant. apply firstn_all2.
  pose proof (length_padStart d 23 "0"%char). lia.
Qed.

(** Beyond 23 digits the leading 23 are kept: the value is divided by the
    power of ten of the digits that are cut at the end. *)
Lemma most_significant_large d :
  numeral 10 d = true -> (23 < length d)%nat ->
  most_significant 23 (padStart d 23 "0"%char) = firstn 23 d
  /\ valBE 10 (firstn 23 d) = valBE 10 d / 10 ^ Z.of_nat (length d - 23).
Proof.
  intros Hnum Hlen. split.
  - unfold padStart. replace (Z.to_nat (23 - Z.of_nat (length d))) with O by lia.
    reflexivity.
  - rewrite <- (firstn_skipn 23 d) at 2.
    rewrite valBE_app, length_skipn.
    pose proof (valBE_bound 10 (skipn 23 d) ltac:(lia) (numeral_skipn _ _ _ Hnum)) as Hb.
    rewrite length_skipn in Hb.
    apply Z.div_unique_pos with (r := valBE 10 (skipn 23 d)); lia.
Qed.

Lemma next_seq_same st time :
  lastTime st = time ->
  next_seq st time
  = if 4095 <? seq st + 1 then (0, time + 1) else (seq st + 1, time).
Proof.
  intros H. unfold next_seq. now rewrite H, Z.eqb_refl.
Qed.

Lemma next_seq_fresh st time :
  lastTime st <> time -> next_seq st time = (0, time).
Proof.
  intros H. unfold next_seq. now replace (lastTime st =? time) with false by lia.
Qed.

Lemma next_seq_range st time :
  0 <= seq st <= 4095 ->
  0 <= fst (next_seq st time) <= 4095
  /\ time <= snd (next_seq st time) <= time + 1.
Proof.
  intros H. unfold next_seq.
  destruct (lastTime st =? time); [destruct (4095 <? seq st + 1) eqn:E|];
    simpl; lia.
Qed.

Lemma generate_state st now :
  let st' := snd (generate st now) in
  (seq st', lastTime st') = next_seq st (now - epoch) /\ same_params st st'.
Proof.
  unfold generate. destruct (next_seq st (now - epoch)) as [s time].
  destruct (hexToDec _); simpl; repeat split; reflexivity.
Qed.

Lemma id_value_params st st' s time :
  same_params st st' -> id_value st' s time = id_value st s time.
Proof.
  intros (H1 & H2 & H3). unfold id_value. now rewrite H1, H2, H3.
Qed.

Lemma id_value_lt st s time s' time' :
  0 <= s <= 4095 -> 0 <= s' <= 4095 ->
  time < time' \/ (time = time' /\ s < s') ->
  id_value st s time < id_value st s' time'.
Proof.
  intros Hs Hs' H. unfold id_value.
  assert (Hp : 0 < 2 ^ Z.of_nat (length (instanceNumber st)))
    by (apply Z.pow_pos_nonneg; lia).
  change (2 ^ 12) with 4096. change (2 ^ 10) with 1024.
  destruct H as [H|[-> H]]; nia.
Qed.

Lemma id_value_le st s time s' time' :
  0 <= s <= 4095 -> 0 <= s' <= 4095 ->
  time < time' \/ (time = time' /\ s <= s') ->
  id_value st s time <= id_value st s' time'.
Proof.
  intros Hs Hs' [H|[-> H]].
  - apply Z.lt_le_incl, id_value_lt; auto.
  - destruct (Z.eq_dec s s') as [->|Hne]; [lia|].
    apply Z.lt_le_incl, id_value_lt; auto. right. lia.
Qed.

(** In a well-formed state, at a reading not before the epoch plus the
    offset, [generate] returns 23 decimal digits and leaves a well-formed
    state. *)
Lemma generate_returns st now :
  wf_state st = true -> 0 <= now - epoch - offset st ->
  exists id, fst (generate st now) = Ret id
             /\ length id = 23%nat /\ numeral 10 id = true
             /\ wf_state (snd (generate st now)) = true
             /\ same_params st (snd (generate st now)).
Proof.
  intros Hwf Hnow.
  destruct (generate_state st now) as [Hns Hsp].
  destruct (wf_state_spec st Hwf) as (Hi & Hq & Hrnd).
  pose proof (next_seq_range st (now - epoch) Hq) as [Hs Ht].
  pose proof (generate_spec st now Hwf) as Hg.
  rewrite <- Hns in Hg, Hs, Ht. cbn [fst snd] in Hs, Ht.
  destruct Hg as (d & _ & Hd & _ & _ & Hout & _); [lia|].
  exists (most_significant 23 (padStart d 23 "0"%char)).
  split; [exact Hout|].
  split; [apply most_significant_length|].
  split; [now apply most_significant_numeral|].
  split; [|exact Hsp].
  destruct Hsp as (H1 & H2 & H3).
  unfold wf_state. rewrite H1, H3, Hi. simpl. lia.
Qed.

(** One call inside the range: a 23-digit numeral whose value is the
    composed number. *)
Lemma generate_step st now :
  wf_state st = true -> in_range st now ->
  let st' := snd (generate st now) in
  exists id,
    fst (generate st now) = Ret id
    /\ numeral 10 id = true /\ length id = 23%nat
    /\ valBE 10 id = id_value st (seq st') (lastTime st')
    /\ wf_state st' = true /\ same_params st st'
    /\ (seq st', lastTime st') = next_seq st (now - epoch).
Proof.
  intros Hwf [Hr1 Hr2] st'.
  destruct (generate_state st now) as [Hns Hsp]. fold st' in Hns, Hsp.
  destruct (wf_state_spec st Hwf) as (Hi & Hq & Hrnd).
  pose proof (next_seq_range st (now - epoch) Hq) as [Hs Ht].
  pose proof (generate_spec st now Hwf) as Hg.
  rewrite <- Hns in Hg, Hs, Ht. cbn [fst snd] in Hs, Ht.
  destruct Hg as (d & _ & Hd & Hv & Hlen & Hout & _); [lia|].
  assert (Hsmall : id_value st (seq st') (lastTime st') < 10 ^ 23).
  { eapply Z.le_lt_trans; [|exact Hr2].
    apply id_value_le; lia. }
  specialize (Hlen 23 ltac:(lia) Hsmall).
  rewrite most_significant_small in Hout by lia.
  exists (padStart d 23 "0"%char).
  split; [exact Hout|].
  split; [now rewrite numeral_padStart by lia|].
  split; [pose proof (length_padStart d 23 "0"%char); lia|].
  split; [now rewrite valBE_padStart|].
  split; [|auto].
  destruct Hsp as (H1 & H2 & H3).
  unfold wf_state. rewrite H1, H3, Hi. simpl. lia.
Qed.

End GeneratorFacts.

Module OrderFacts.
Import JS Numeral Snowflake Run JSFacts ArithFacts ConvertFacts StringFacts
  HexFacts GeneratorFacts.

Lemma decimal_code c :
  is_digit 10 c = true -> code c = 48 + digit_val c /\ 0 <= digit_val c < 10.
Proof.
  intros H. pose proof (digit_val_range _ _ H) as Hr. split; [|auto].
  unfold is_digit in H. unfold digit_val, char_digit in *.
  destruct ((48 <=? code c) && (code c <=? 57)) eqn:E; simpl in *; [lia|].
  destruct ((97 <=? code c) && (code c <=? 122)) eqn:E2; simpl in *; lia.
Qed.

(** On decimal numerals of one width, [<] on strings is [<] on values. *)
Lemma str_ltb_fixed s : forall t,
  numeral 10 s = true -> numeral 10 t = true -> length s = length t ->
  (str_ltb s t = true <-> valBE 10 s < valBE 10 t).
Proof.
  induction s as [|c s IH]; intros [|d t] Hs Ht Hl; simpl in Hl; try lia.
  - simpl. unfold valBE. simpl. split; [discriminate|lia].
  - simpl in Hs, Ht.
    apply andb_true_iff in Hs as [Hc Hs]. apply andb_true_iff in Ht as [Hd Ht].
    destruct (decimal_code c Hc) as [Ec Rc].
    destruct (decimal_code d Hd) as [Ed Rd].
    pose proof (valBE_bound 10 s ltac:(lia) Hs) as Bs.
    pose proof (valBE_bound 10 t ltac:(lia) Ht) as Bt.
    injection Hl as Hl. rewrite <- Hl in Bt.
    specialize (IH t Hs Ht Hl).
    rewrite !valBE_cons, <- Hl. cbn [str_ltb].
    set (p := 10 ^ Z.of_nat (length s)) in *.
    destruct (Z.ltb_spec (code c) (code d)).
    + split; [intros _; nia|reflexivity].
    + destruct (Z.eqb_spec (code c) (code d)) as [E|E].
      * replace (digit_val d) with (digit_val c) by lia.
        rewrite IH. lia.
      * split; [discriminate|intros; nia].
Qed.

Lemma sorted_str_lt ids :
  Forall (fun id => numeral 10 id = true /\ length id = 23%nat) ids ->
  StronglySorted num_lt ids -> StronglySorted str_lt ids.
Proof.
  intros HF HS. induction HS as [|a l HS IH Hall]; [constructor|].
  inversion HF as [|? ? [Ha La] HF']; subst.
  constructor; [auto|].
  rewrite List.Forall_forall in *. intros b Hb.
  destruct (HF' b Hb) as [Hnb Lb].
  apply str_ltb_fixed; auto; [congruence|]. now apply Hall.
Qed.

Lemma run_cons st now rest :
  run st (now :: rest)
  = fst (generate st now) :: run (snd (generate st now)) rest.
Proof.
  cbn [run]. destruct (generate st now). reflexivity.
Qed.

Lemma in_range_params st st' now :
  same_params st st' -> in_range st now -> in_range st' now.
Proof.
  intros Hp [H1 H2]. pose proof Hp as (_ & Ho & _).
  unfold in_range. rewrite Ho, (id_value_params st st') by auto. auto.
Qed.

Lemma count_occ_tail (l : list Z) a u :
  (count_occ Z.eq_dec l u <= count_occ Z.eq_dec (a :: l) u)%nat.
Proof.
  simpl. destruct (Z.eq_dec a u); lia.
Qed.

(** The calls that follow [j] calls made at reading [t]: every identifier
    is a 23-digit numeral, larger than all before it. *)
Lemma run_chain nows : forall st t j,
  wf_state st = true -> tick_inv st t j ->
  StronglySorted Z.le (t :: nows) ->
  (count_occ Z.eq_dec nows t + j <= 4096)%nat ->
  (forall u, (count_occ Z.eq_dec nows u <= 4096)%nat) ->
  Forall (in_range st) nows ->
  exists ids,
    run st nows = map Ret ids
    /\ Forall (fun id => numeral 10 id = true /\ length id = 23%nat) ids
    /\ StronglySorted num_lt ids
    /\ Forall (fun id => id_value st (seq st) (lastTime st) < valBE 10 id) ids.
Proof.
  induction nows as [|now rest IH]; intros st t j Hwf Hinv Hsorted Hcnt Hall Hin.
  - exists []. repeat split; constructor.
  - inversion Hsorted as [|? ? Hs' Hge]; subst.
    inversion Hge as [|? ? Htn _]; subst.
    inversion Hin as [|? ? Hnow Hrest]; subst.
    destruct (generate_step st now Hwf Hnow)
      as (id & Hout & Hnum & Hlen & Hval & Hwf' & Hp & Hns).
    set (st' := snd (generate st now)) in *.
    destruct (wf_state_spec st Hwf) as (_ & Hq & _).
    destruct (wf_state_spec st' Hwf') as (_ & Hq' & _).
    assert (Hstep : exists j',
               tick_inv st' now j'
               /\ (count_occ Z.eq_dec rest now + j' <= 4096)%nat
               /\ (lastTime st < lastTime st'
                   \/ (lastTime st = lastTime st' /\ seq st < seq st'))).
    { destruct (Z.eq_dec now t) as [->|Hne].
      - simpl in Hcnt. destruct (Z.eq_dec t t); [|congruence].
        destruct Hinv as [[Hlt Hsq]|(_ & _ & Hj)]; [|lia].
        rewrite next_seq_same in Hns by auto.
        exists (S j). split; [|split; [lia|]].
        + destruct (Z.ltb_spec 4095 (seq st + 1)); inversion Hns; subst.
          * right. split; [lia|split; [lia|lia]].
          * left. split; [lia|lia].
        + destruct (Z.ltb_spec 4095 (seq st + 1)); inversion Hns; lia.
      - exists 1%nat. split; [|split].
        + destruct (Z.eq_dec (lastTime st) (now - epoch)) as [E|E].
          * rewrite next_seq_same in Hns by auto.
            destruct Hinv as [[Hlt Hsq]|(Hlt & Hsq & Hj)]; [lia|].
            rewrite Hsq in Hns. simpl in Hns. inversion Hns.
            left. split; [lia|lia].
          * rewrite next_seq_fresh in Hns by auto. inversion Hns.
            left. split; [lia|lia].
        + specialize (Hall now). simpl in Hall.
          destruct (Z.eq_dec now now); [lia|congruence].
        + destruct (Z.eq_dec (lastTime st) (now - epoch)) as [E|E].
          * rewrite next_seq_same in Hns by auto.
            destruct Hinv as [[Hlt Hsq]|(Hlt & Hsq & Hj)]; [lia|].
            rewrite Hsq in Hns. simpl in Hns. inversion Hns. lia.
          * rewrite next_seq_fresh in Hns by auto. inversion Hns.
            destruct Hinv as [[Hlt Hsq]|(Hlt & Hsq & Hj)]; lia. }
    destruct Hstep as (j' & Hinv' & Hcnt' & Hlex).
    destruct (IH st' now j' Hwf' Hinv' Hs' Hcnt')
      as (ids & Hrun & Hids & Hss & Hgt).
    { intros u. etransitivity; [apply (count_occ_tail rest now u)|apply Hall]. }
    { eapply List.Forall_impl; [|exact Hrest].
      intros a Ha. now apply (in_range_params st). }
    assert (Hlt : id_value st (seq st) (lastTime st) < valBE 10 id).
    { rewrite Hval. apply id_value_lt; auto. }
    rewrite (id_value_params st st') in Hgt by auto. rewrite <- Hval in Hgt.
    exists (id :: ids). rewrite run_cons. fold st'. rewrite Hout, Hrun.
    split; [reflexivity|]. split; [constructor; auto|].
    split; [constructor; auto|].
    constructor; [auto|].
    eapply List.Forall_impl; [|exact Hgt]. intros a Ha. simpl in Ha. lia.
Qed.

End OrderFacts.

(** ** Properties of the identifier generator *)

Module SnowflakeSpec.
Import JS Numeral Snowflake Run Examples JSFacts ArithFacts ConvertFacts
  StringFacts HexFacts GeneratorFacts OrderFacts.

(** In a well-formed state, at a reading not before the epoch plus the
    offset, [generate] returns 23 decimal digits. *)
Lemma generate_returns_23_digits st now :
  wf_state st = true -> 0 <= now - epoch - offset st ->
  exists id, fst (generate st now) = Ret id
             /\ length id = 23%nat /\ numeral 10 id = true.
Proof.
  intros Hwf Hnow.
  destruct (generate_returns st now Hwf Hnow) as (id & H1 & H2 & H3 & _).
  exists id. auto.
Qed.

(** C6, at the failing input: the generator built for the random
    identifier [0000] has the fingerprint [00NaN], and [generate] throws a
    [TypeError] instead of returning 23 decimal digits. *)
Theorem generate_throws_on_zero_identifier :
  instanceNumber zero_generator = lit "00NaN"
  /\ fst (generate zero_generator today) = Throw TypeError.
Proof. split; vm_compute; reflexivity. Qed.

(** C7, as stated, fails: at a reading where the decimal encoding has 24
    digits, the result is not made of its 23 least-significant digits. *)
Lemma least_significant_digits_counterexample :
  exists d,
    hexToDec (to_hex (bid_of generator 0 (10 ^ 14))) = Some d
    /\ length d = 24%nat
    /\ fst (generate generator (epoch + 10 ^ 14))
       <> Ret (least_significant 23 d).
Proof.
  eexists. split; [vm_compute; reflexivity|].
  split; [reflexivity|].
  vm_compute. intros H. discriminate H.
Qed.

(** C7, amended: whenever the decimal encoding [d] of the composed bit
    string has more than 23 digits, [generate] returns its 23
    most-significant digits; the digits dropped are the least-significant
    ones, so the value returned is the encoded value divided by the
    matching power of ten. *)
Theorem truncation_keeps_leading_digits st now :
  wf_state st = true -> 0 <= now - epoch - offset st ->
  exists d,
    hexToDec (to_hex (bid_of st (fst (next_seq st (now - epoch)))
                                (snd (next_seq st (now - epoch))))) = Some d
    /\ numeral 10 d = true
    /\ valBE 10 d = id_value st (fst (next_seq st (now - epoch)))
                                (snd (next_seq st (now - epoch)))
    /\ ((23 < length d)%nat ->
        fst (generate st now) = Ret (most_significant 23 d)
        /\ valBE 10 (most_significant 23 d)
           = valBE 10 d / 10 ^ Z.of_nat (length d - 23)).
Proof.
  intros Hwf Hnow.
  destruct (wf_state_spec st Hwf) as (_ & Hq & _).
  pose proof (next_seq_range st (now - epoch) Hq) as [_ Ht].
  pose proof (generate_spec st now Hwf) as Hg.
  destruct (next_seq st (now - epoch)) as [s time]. cbn [fst snd] in *.
  destruct Hg as (d & Hd & Hnum & Hv & _ & Hout & _); [lia|].
  exists d. split; [exact Hd|]. split; [exact Hnum|]. split; [exact Hv|].
  intros Hlen.
  destruct (most_significant_large d Hnum Hlen) as [E1 E2].
  rewrite Hout, E1. split; [reflexivity|exact E2].
Qed.

Lemma truncation_keeps_leading_digits_witness :
  exists d,
    numeral 10 d = true
    /\ ((23 < length d)%nat ->
        fst (generate generator (epoch + 10 ^ 14))
        = Ret (most_significant 23 d)).
Proof.
  destruct (truncation_keeps_leading_digits generator (epoch + 10 ^ 14))
    as (d & _ & Hnum & _ & H).
  - reflexivity.
  - vm_compute. discriminate.
  - exists d. split; [exact Hnum|]. intros Hlen. now apply H.
Defined.

(** C2, as stated, fails: with a non-decreasing clock and one call per
    tick, the identifier returned at the first reading at which the
    composed number has 24 digits is smaller, as a string and as a
    number, than the one returned just before. *)
Lemma generate_increasing_counterexample :
  wf_state generator = true
  /\ Sorted Z.le [last_23_digit_ms; last_23_digit_ms + 1]
  /\ exists a b,
       run generator [last_23_digit_ms; last_23_digit_ms + 1] = [Ret a; Ret b]
       /\ str_ltb a b = false /\ str_ltb b a = true
       /\ valBE 10 b < valBE 10 a.
Proof.
  split; [reflexivity|]. split.
  - repeat constructor. unfold last_23_digit_ms. lia.
  - eexists. eexists. split; [vm_compute; reflexivity|].
    split; [reflexivity|]. split; [reflexivity|].
    vm_compute. reflexivity.
Qed.

(** C2, amended: for a generator whose fingerprint is a bit string and
    whose counter is zero, as the constructor leaves it, and for clock
    readings that are non-decreasing, at most 4096 to a tick, not before
    the epoch plus the offset and early enough for every composed number to
    stay below [10^23], all calls return 23-digit identifiers that are
    strictly increasing in call order, as numbers and as strings; and a
    counter that would exceed 4095 within a tick is reset to 0 with the
    elapsed time advanced by one. *)
Theorem generate_strictly_increasing st nows :
  wf_state st = true -> seq st = 0 ->
  Sorted Z.le nows ->
  (forall u, (count_occ Z.eq_dec nows u <= 4096)%nat) ->
  Forall (in_range st) nows ->
  (exists ids,
     run st nows = map Ret ids
     /\ Forall (fun id => numeral 10 id = true /\ length id = 23%nat) ids
     /\ StronglySorted num_lt ids
     /\ StronglySorted str_lt ids)
  /\ (forall st' time,
        lastTime st' = time -> 4095 < seq st' + 1 ->
        next_seq st' time = (0, time + 1)).
Proof.
  intros Hwf Hseq Hsorted Hcnt Hin. split.
  - assert (Hchain : exists ids,
               run st nows = map Ret ids
               /\ Forall (fun id => numeral 10 id = true /\ length id = 23%nat) ids
               /\ StronglySorted num_lt ids).
    { destruct nows as [|now rest].
      - exists []. repeat split; constructor.
      - apply Sorted_StronglySorted in Hsorted;
          [|intros x y z; apply Z.le_trans].
        inversion Hin as [|? ? Hnow Hrest]; subst.
        destruct (generate_step st now Hwf Hnow)
          as (id & Hout & Hnum & Hlen & Hval & Hwf' & Hp & Hns).
        set (st' := snd (generate st now)) in *.
        assert (Hinv : tick_inv st' now 1).
        { left. unfold next_seq in Hns. rewrite Hseq in Hns.
          destruct (lastTime st =? now - epoch) eqn:E;
            simpl in Hns; inversion Hns; lia. }
        destruct (run_chain rest st' now 1 Hwf' Hinv Hsorted)
          as (ids & Hrun & Hids & Hss & Hgt).
        { specialize (Hcnt now). simpl in Hcnt.
          destruct (Z.eq_dec now now); [lia|congruence]. }
        { intros u. etransitivity;
            [apply (count_occ_tail rest now u)|apply Hcnt]. }
        { eapply List.Forall_impl; [|exact Hrest].
          intros a Ha. now apply (in_range_params st). }
        rewrite (id_value_params st st') in Hgt by auto.
        rewrite <- Hval in Hgt.
        exists (id :: ids). rewrite run_cons. fold st'. rewrite Hout, Hrun.
        split; [reflexivity|]. split; [constructor; auto|].
        constructor; auto. }
    destruct Hchain as (ids & Hrun & Hids & Hss).
    exists ids. split; [auto|]. split; [auto|]. split; [auto|].
    now apply sorted_str_lt.
  - intros st' time Hlt Hov. rewrite next_seq_same by auto.
    now replace (4095 <? seq st' + 1) with true by lia.
Qed.

Lemma generate_strictly_increasing_witness :
  exists ids,
    run generator [today; today; today + 1] = map Ret ids
    /\ StronglySorted str_lt ids.
Proof.
  destruct (generate_strictly_increasing generator [today; today; today + 1])
    as [(ids & Hrun & _ & _ & Hs) _].
  - reflexivity.
  - reflexivity.
  - repeat constructor; unfold today; lia.
  - intros u.
    pose proof (count_occ_bound Z.eq_dec u [today; today; today + 1]) as H.
    simpl length in H. lia.
  - repeat constructor; vm_compute; congruence.
  - exists ids. split; [exact Hrun|exact Hs].
Defined.

End SnowflakeSpec.

(** ** The instance fingerprint *)

Module FingerprintSpec.
Import JS Numeral Snowflake Run Examples JSFacts ArithFacts ConvertFacts
  StringFacts HexFacts GeneratorFacts.

(** A number from 1000 to 1023 takes exactly ten binary digits. *)
Lemma ten_bits n :
  1000 <= n < 1024 ->
  length (int_to_string 2 n) = 10%nat /\ numeral 2 (int_to_string 2 n) = true.
Proof.
  intros Hn.
  destruct (int_to_string_spec 2 n ltac:(lia) ltac:(lia)) as (Hnum & Hv & Hlen).
  split; [|exact Hnum].
  specialize (Hlen 10 ltac:(lia)). change (2 ^ 10) with 1024 in Hlen.
  specialize (Hlen ltac:(lia)).
  pose proof (valBE_bound 2 _ ltac:(lia) Hnum) as Hb. rewrite Hv in Hb.
  assert (Hlow : 9 < Z.of_nat (length (int_to_string 2 n))).
  { apply (Z.pow_lt_mono_r_iff 2); [lia|lia|]. change (2 ^ 9) with 512. lia. }
  lia.
Qed.

(** The fingerprint of a non-zero identifier below [2^53]. *)
Lemma fingerprint_exact ident :
  hex_string ident = true -> 0 < valBE 16 (toLowerCase ident) < 2 ^ 53 ->
  fingerprint ident
  = int_to_string 2 (valBE 16 (toLowerCase ident) mod 24 + 1000).
Proof.
  intros Hhex Hv. set (v := valBE 16 (toLowerCase ident)) in *.
  destruct (hexToDec_hex ident Hhex) as (r & Wr & Vr & E).
  destruct (decimal_of_digits r Wr) as (Hd & Hdv & _).
  fold v in Vr.
  assert (Hne : map digit_char (rev r) <> []).
  { intros En. rewrite En in Hdv. rewrite valBE_nil in Hdv. lia. }
  unfold fingerprint. rewrite E. unfold parse_dec. cbn [default].
  change (id (map digit_char (rev r))) with (map digit_char (rev r)).
  rewrite parseInt_decimal by auto.
  rewrite Hdv, Vr, round_double_small by lia.
  cbn [js_rem]. change (24 =? 0) with false. cbv iota.
  rewrite Z.rem_mod_nonneg by lia.
  pose proof (Z.mod_pos_bound v 24 ltac:(lia)) as Hm.
  cbn [js_add].
  assert (1024 < 2 ^ 53) by reflexivity.
  rewrite round_double_small by lia.
  cbn [num_to_string].
  destruct (ten_bits (v mod 24 + 1000) ltac:(lia)) as [Hl _].
  unfold padStart. rewrite Hl. reflexivity.
Qed.

(** The constructor leaves a well-formed state, with the counter at
    zero, for every identifier of hexadecimal digits whose value is not
    zero and is below [2^53]. *)
Lemma new_wf r rid off oid :
  0 <= r < 1024 ->
  hex_string (instanceId (new r rid off oid)) = true ->
  0 < valBE 16 (toLowerCase (instanceId (new r rid off oid))) < 2 ^ 53 ->
  wf_state (new r rid off oid) = true /\ seq (new r rid off oid) = 0.
Proof.
  intros Hr Hhex Hv. split; [|reflexivity].
  set (st := new r rid off oid) in *.
  assert (E : instanceNumber st = fingerprint (instanceId st)) by reflexivity.
  unfold wf_state. rewrite E, (fingerprint_exact _ Hhex Hv).
  pose proof (Z.mod_pos_bound (valBE 16 (toLowerCase (instanceId st))) 24
                ltac:(lia)) as Hm.
  destruct (ten_bits (valBE 16 (toLowerCase (instanceId st)) mod 24 + 1000)
              ltac:(lia)) as [_ Hn].
  rewrite Hn. change (seq st) with 0. change (rnd st) with r. simpl. lia.
Qed.

(** C5, as stated, fails: the fingerprint of the identifier
    [00000000000000000000000000000001] is the binary numeral of 1001,
    which has ten characters and not five. *)
Lemma fingerprint_five_bits_counterexample :
  length (padStart (lit "1") 32 "0"%char) = 32%nat
  /\ fingerprint (padStart (lit "1") 32 "0"%char) = lit "1111101001"
  /\ length (fingerprint (padStart (lit "1") 32 "0"%char)) <> 5%nat.
Proof.
  split; [reflexivity|]. split; [vm_compute; reflexivity|].
  vm_compute. intros H. discriminate H.
Qed.

(** The identifier made of zeros has no numeric fingerprint. *)
Example fingerprint_of_zero :
  fingerprint (padStart (lit "0000") 32 "0"%char) = lit "00NaN".
Proof. vm_compute. reflexivity. Qed.

(** Above [2^53] the fingerprint is computed from the nearest double:
    [2^128 - 1] gives 16 + 1000, where its own remainder is 15. *)
Example fingerprint_rounds :
  fingerprint (lit "ffffffffffffffffffffffffffffffff") = int_to_string 2 1016
  /\ valBE 16 (lit "ffffffffffffffffffffffffffffffff") mod 24 = 15.
Proof. split; vm_compute; reflexivity. Qed.

(** C5, amended: for every 32-character hexadecimal identifier whose
    value is not zero and is below [2^53], the fingerprint computed at
    construction is the value modulo 24, offset by 1000, written in binary;
    it has exactly ten bits, the padding to five never applying; and it is
    the segment between the time bits and the sequence bits of every
    composed bit string. *)
Theorem fingerprint_is_ten_bits ident :
  length ident = 32%nat -> hex_string ident = true ->
  0 < valBE 16 (toLowerCase ident) < 2 ^ 53 ->
  fingerprint ident
  = int_to_string 2 (valBE 16 (toLowerCase ident) mod 24 + 1000)
  /\ length (fingerprint ident) = 10%nat
  /\ numeral 2 (fingerprint ident) = true
  /\ (forall r rid off,
        instanceNumber (new r rid off (Some ident)) = fingerprint ident)
  /\ (forall st s time,
        bid_of st s time
        = int_to_string 2 (time - offset st)
            ++ instanceNumber st
            ++ padStart (int_to_string 2 s) 12 "0"%char
            ++ padStart (int_to_string 2 (rnd st)) 10 "0"%char).
Proof.
  intros Hlen Hhex Hv.
  pose proof (fingerprint_exact ident Hhex Hv) as E.
  pose proof (Z.mod_pos_bound (valBE 16 (toLowerCase ident)) 24 ltac:(lia)) as Hm.
  destruct (ten_bits (valBE 16 (toLowerCase ident) mod 24 + 1000) ltac:(lia))
    as [Hl Hn].
  split; [exact E|]. rewrite E.
  split; [exact Hl|]. split; [exact Hn|]. split.
  - intros r rid off. unfold new. cbn [instanceNumber].
    destruct ident as [|c s]; [discriminate Hlen|].
    unfold padStart. rewrite Hlen. simpl repeat. cbn [app]. exact E.
  - reflexivity.
Qed.

Lemma fingerprint_is_ten_bits_witness :
  fingerprint (padStart (lit "2A") 32 "0"%char) = int_to_string 2 (42 mod 24 + 1000)
  /\ length (fingerprint (padStart (lit "2A") 32 "0"%char)) = 10%nat.
Proof.
  destruct (fingerprint_is_ten_bits (padStart (lit "2A") 32 "0"%char))
    as (E & Hl & _).
  - reflexivity.
  - reflexivity.
  - vm_compute. split; reflexivity.
  - split; [exact E|exact Hl].
Defined.

End FingerprintSpec.

(** ** Properties of the adapter *)

Module ObjectFacts.
Import JS Mongo.

Lemma get_set_eq o k v : get (set o k v) k = Some v.
Proof.
  induction o as [|[k' v'] r IH]; simpl.
  - now rewrite String.eqb_refl.
  - destruct (String.eqb k' k) eqn:E; simpl; rewrite E; auto.
Qed.

Lemma get_set_ne o k k' v : k <> k' -> get (set o k v) k' = get o k'.
Proof.
  intros Hne. induction o as [|[k0 v0] r IH]; simpl.
  - destruct (String.eqb_spec k k'); [congruence|reflexivity].
  - destruct (String.eqb_spec k0 k) as [->|Hk]; simpl.
    + destruct (String.eqb_spec k k'); [congruence|reflexivity].
    + destruct (String.eqb_spec k0 k'); auto.
Qed.

Lemma get_not_in o k : ~ In k (map fst o) -> get o k = None.
Proof.
  induction o as [|[k' v'] r IH]; simpl; [auto|].
  intros H. destruct (String.eqb_spec k' k) as [->|Hk]; [tauto|].
  apply IH. tauto.
Qed.

(** In [{ ...base, ...extra }] a property of [extra] wins. *)
Lemma get_spread extra : forall base k,
  unique_keys extra ->
  get (spread base extra) k
  = match get extra k with
    | Some v => Some v
    | None => get base k
    end.
Proof.
  unfold spread, unique_keys.
  induction extra as [|[k1 v1] r IH]; intros base k Hnd; [reflexivity|].
  simpl in Hnd. inversion Hnd as [|? ? Hnotin Hnd']; subst.
  cbn [fold_left fst snd]. rewrite IH by auto. cbn [get].
  destruct (String.eqb_spec k1 k) as [->|Hk].
  - rewrite get_not_in by auto. apply get_set_eq.
  - destruct (get r k); [reflexivity|]. now apply get_set_ne.
Qed.

Lemma get_with_id doc oid k v :
  get doc k = Some v -> get (with_id doc oid) k = Some v.
Proof.
  intros H. unfold with_id. destruct (get doc "_id") eqn:E; [auto|].
  rewrite get_set_ne; [auto|]. intros <-. congruence.
Qed.

Lemma with_ids_keeps docs : forall oids i,
  Forall2 (fun d d' => forall k v, get d k = Some v -> get d' k = Some v)
          docs (with_ids docs oids i).
Proof.
  induction docs as [|d r IH]; intros oids i; simpl; constructor; auto.
  intros k v. apply get_with_id.
Qed.

End ObjectFacts.

Module AdapterSpec.
Import JS Numeral Snowflake Run Mongo Registry Adapter Examples
  GeneratorFacts OrderFacts ObjectFacts.

(** *** Filtering *)

(** A filter entry whose [isMatch] is not truthy: the whole entry is the
    operand of the equality predicate. *)
Lemma filter_step_strict svc acc fld o :
  existsb (fun f => filter f && String.eqb (name f) fld) (fields svc) = true ->
  truthy (prop (VObj o) "isMatch") = false ->
  filter_step svc acc (fld, VObj o) = Ret (acc ++ [QEq fld (VObj o)]).
Proof.
  intros Hf Hm. unfold filter_step. rewrite Hf, Hm. reflexivity.
Qed.

(** C1, as stated, fails: the filter [{status: {isMatch: false, values:
    true}}] does not return the first entity; it returns none. *)
Lemma strict_filter_counterexample :
  find status_service status_entities
       (Some (filter_params [("status"%string, strict_spec)]))
  <> Ret (Some [entity_true]).
Proof. vm_compute. intros H. discriminate H. Qed.

(** C1, amended: a FilterSpec whose [isMatch] is not true is itself the
    operand of the strict-equality predicate on the stored field.  So the
    direct value [{status: true}] returns only the first of the two
    entities, while [{status: {isMatch: false, values: true}}] compares the
    stored value with that whole object and returns no entity. *)
Theorem strict_filter_compares_whole_spec :
  (forall svc acc fld o,
     existsb (fun f => filter f && String.eqb (name f) fld) (fields svc) = true ->
     truthy (prop (VObj o) "isMatch") = false ->
     filter_step svc acc (fld, VObj o) = Ret (acc ++ [QEq fld (VObj o)]))
  /\ find status_service status_entities
          (Some (filter_params [("status"%string, VBool true)]))
     = Ret (Some [entity_true])
  /\ parseParams status_service
          (filter_params [("status"%string, strict_spec)])
     = Ret (QAnd [QEq "status" strict_spec])
  /\ find status_service status_entities
          (Some (filter_params [("status"%string, strict_spec)]))
     = Ret (Some []).
Proof.
  split; [exact filter_step_strict|].
  split; [vm_compute; reflexivity|].
  split; vm_compute; reflexivity.
Qed.

Lemma strict_filter_compares_whole_spec_witness :
  filter_step status_service [] ("status"%string, strict_spec)
  = Ret [QEq "status" strict_spec].
Proof.
  destruct strict_filter_compares_whole_spec as [H _].
  apply (H status_service [] "status"%string
           [("isMatch"%string, VBool false); ("values"%string, VBool true)]);
    reflexivity.
Defined.

(** *** Counting *)

Lemma filter_reduce_throws svc entries : forall acc e,
  filter_reduce svc acc entries = Throw e -> e = TypeError.
Proof.
  induction entries as [|[fld v] rest IH]; intros acc e; cbn [filter_reduce].
  - discriminate.
  - destruct (filter_step svc acc (fld, v)) as [acc'|e'] eqn:E.
    + apply IH.
    + intros H. inversion H; subst. unfold filter_step in E.
      destruct (negb _ || _); [discriminate|].
      destruct v; try (inversion E; reflexivity);
        repeat match type of E with
               | context [if ?b then _ else _] => destruct b
               | context [match ?l with [] => _ | _ => _ end] => destruct l
               end; discriminate.
Qed.




End AdapterSpec.

Module WriteSpec.
Import JS Numeral Snowflake Run Mongo Registry Adapter Examples
  GeneratorFacts OrderFacts ObjectFacts.

Lemma same_params_refl g : same_params g g.
Proof. repeat split. Qed.

Lemma same_params_trans g1 g2 g3 :
  same_params g1 g2 -> same_params g2 g3 -> same_params g1 g3.
Proof.
  intros (A1 & A2 & A3) (B1 & B2 & B3). repeat split; congruence.
Qed.

(** [addIdToEntity] with a working generator: the new object keeps every
    value the caller supplied under the primary column. *)
Lemma addIdToEntity_ok svc pf g now entity :
  primaryField svc = Some pf -> wf_state g = true ->
  0 <= now - epoch - Snowflake.offset g ->
  exists e g',
    addIdToEntity svc g now entity = (Ret e, g')
    /\ wf_state g' = true /\ same_params g g'
    /\ (unique_keys entity ->
        forall v, get entity (columnName pf) = Some v ->
                  get e (columnName pf) = Some v).
Proof.
  intros Hpf Hwf Hin. unfold addIdToEntity. rewrite Hpf.
  destruct (String.eqb (generated pf) "user").
  - exists entity, g. auto using same_params_refl.
  - destruct (generate_returns g now Hwf Hin)
      as (ident & Hout & _ & _ & Hwf' & Hp).
    destruct (generate g now) as [o g'] eqn:E. cbn [fst snd] in *. subst o.
    eexists. exists g'. split; [reflexivity|]. split; [auto|]. split; [auto|].
    intros Hu v Hv. now rewrite get_spread, Hv.
Qed.

Lemma remap_ok svc pf g0 clock entities : forall g i,
  primaryField svc = Some pf ->
  wf_state g = true -> same_params g0 g ->
  (forall k, 0 <= clock k - epoch - Snowflake.offset g0) ->
  exists l g',
    remap svc g clock i entities = (Ret l, g')
    /\ Forall2 (fun ent e =>
                  unique_keys ent ->
                  forall v, get ent (columnName pf) = Some v ->
                            get e (columnName pf) = Some v)
               entities l.
Proof.
  induction entities as [|ent rest IH]; intros g i Hpf Hwf Hp Hin.
  - exists [], g. split; [reflexivity|constructor].
  - cbn [remap].
    destruct (addIdToEntity_ok svc pf g (clock i) ent Hpf Hwf)
      as (e & g' & E & Hwf' & Hp' & Hkeep).
    { destruct Hp as (_ & Ho & _). rewrite Ho. apply Hin. }
    rewrite E.
    destruct (IH g' (S i) Hpf Hwf' (same_params_trans _ _ _ Hp Hp') Hin)
      as (l & g'' & E' & HF).
    rewrite E'. exists (e :: l), g''. split; [reflexivity|].
    constructor; auto.
Qed.

(** C9: an entity that already has a value under the primary column
    keeps it.  With a working generator and an acknowledging driver,
    [insert] persists and returns a document holding the caller's value,
    and every document that [insertMany] persists holds the value its
    entity supplied, whether or not the schema marks the primary key as
    generated by the system: the generated key is written first and the
    entity's own properties are spread over it. *)
Theorem caller_supplied_key_is_kept svc pf w now oid entity v :
  primaryField svc = Some pf ->
  unique_keys entity -> get entity (columnName pf) = Some v ->
  wf_state (gen w) = true -> 0 <= now - epoch - Snowflake.offset (gen w) ->
  (exists e g',
     insert svc w now oid Acknowledged entity
     = (Ret e, {| coll := coll w ++ [e]; gen := g' |})
     /\ get e (columnName pf) = Some v)
  /\ (forall clock oids flag entities,
        (forall k, 0 <= clock k - epoch - Snowflake.offset (gen w)) ->
        exists docs res g',
          insertMany svc w clock oids Acknowledged entities flag
          = (Ret res, {| coll := coll w ++ docs; gen := g' |})
          /\ Forall2 (fun ent doc =>
                        unique_keys ent ->
                        forall x, get ent (columnName pf) = Some x ->
                                  get doc (columnName pf) = Some x)
                     entities docs).
Proof.
  intros Hpf Hu Hv Hwf Hin. split.
  - destruct (addIdToEntity_ok svc pf (gen w) now entity Hpf Hwf Hin)
      as (e & g' & E & _ & _ & Hkeep).
    unfold insert. rewrite E. cbn [collection_insertOne].
    exists (with_id e oid), g'. split; [reflexivity|].
    apply get_with_id. now apply Hkeep.
  - intros clock oids flag entities Hclock.
    destruct (remap_ok svc pf (gen w) clock entities (gen w) 0%nat Hpf Hwf
                (same_params_refl _) Hclock) as (l & g' & E & HF).
    unfold insertMany. rewrite E. cbn [collection_insertMany].
    eexists. eexists. exists g'. split; [reflexivity|].
    pose proof (with_ids_keeps l oids 0) as HW.
    revert HF HW. generalize (with_ids l oids 0). clear.
    intros docs HF. revert docs.
    induction HF as [|ent e ents l H HF IH]; intros docs HW;
      inversion HW; subst; constructor; auto.
Qed.

Lemma caller_supplied_key_is_kept_witness :
  exists e g',
    insert id_service {| coll := []; gen := generator |} today (VStr "oid")
      Acknowledged [("id"%string, VStr "mine"); ("name"%string, VStr "a")]
    = (Ret e, {| coll := [] ++ [e]; gen := g' |})
    /\ get e "id" = Some (VStr "mine").
Proof.
  destruct (caller_supplied_key_is_kept id_service
              {| columnName := "id"; generated := "system" |}
              {| coll := []; gen := generator |} today (VStr "oid")
              [("id"%string, VStr "mine"); ("name"%string, VStr "a")]
              (VStr "mine")) as [H _].
  - reflexivity.
  - repeat constructor; simpl; intuition discriminate.
  - reflexivity.
  - reflexivity.
  - vm_compute. congruence.
  - exact H.
Defined.

(** With a primary key generated by the system, what [insertMany] returns
    for [returnEntities] is the caller's array, whatever was persisted. *)
Lemma insertMany_returns_callers_array svc w clock oids entities res w' :
  shares_entities svc = false ->
  insertMany svc w clock oids Acknowledged entities true = (Ret res, w') ->
  res = map VObj entities.
Proof.
  intros Hs. unfold insertMany. rewrite Hs.
  destruct (remap svc (gen w) clock 0 entities) as [[l|e] g]; [|discriminate].
  cbn [collection_insertMany]. intros H. inversion H. reflexivity.
Qed.

(** C3, at the failing input: for one entity without key and
    [returnEntities] set, the document persisted holds the generated
    identifier under [id] while the entity returned holds none; without
    the flag the result is the driver's [_id], not the generated
    identifier. *)
Theorem insertMany_drops_generated_ids :
  let w := {| coll := []; gen := generator |} in
  let entities := [[("name"%string, VStr "a")]] in
  let run flag :=
    insertMany id_service w (fun _ => today) (fun _ => VStr "oid")
      Acknowledged entities flag in
  fst (run true) = Ret [VObj [("name"%string, VStr "a")]]
  /\ map (fun d => get d "id") (coll (snd (run true)))
     = [Some (VStr "02892725757363169001477")]
  /\ fst (run false) = Ret [VStr "oid"].
Proof. repeat split; vm_compute; reflexivity. Qed.

(** *** Replacing *)

(** C4, as stated, fails: a replacement entity that carries its own [id]
    is stored under that value, not under the [id] argument. *)
Lemma replaceById_counterexample :
  exists v w',
    replaceById
      {| coll := [[("_id"%string, VStr "o1"); ("id"%string, VStr "1");
                   ("name"%string, VStr "a")]];
         gen := generator |}
      (VStr "1") [("id"%string, VStr "2"); ("name"%string, VStr "b")]
    = Some (Ret (Some v), w')
    /\ coll w' = [v]
    /\ get v "id" = Some (VStr "2")
    /\ get v "id" <> Some (VStr "1").
Proof.
  eexists. eexists. split; [vm_compute; reflexivity|].
  split; [reflexivity|]. split; [reflexivity|]. discriminate.
Qed.

Lemma replacement_get old e d :
  replacement old e = Ret d ->
  forall k, k <> "_id"%string -> get d k = get e k.
Proof.
  unfold replacement. intros H k Hk.
  destruct (get e "_id") as [i'|], (get old "_id") as [i0|];
    try (destruct (value_eqb i' i0)); inversion H; subst; auto.
  cbn [get]. destruct (String.eqb_spec "_id" k); [congruence|reflexivity].
Qed.

Lemma replacement_without_id old e :
  get e "_id" = None -> exists d, replacement old e = Ret d.
Proof.
  intros H. unfold replacement. rewrite H.
  destruct (get old "_id"); eauto.
Qed.

(** The driver replaces the first document that satisfies the filter, in
    its place, and leaves the others as they are. *)
Lemma findOneAndReplace_first q e doc after before :
  (forall d, In d before -> matches d q = Some false) ->
  matches doc q = Some true ->
  findOneAndReplace (before ++ doc :: after) q e
  = Some match replacement doc e with
         | Ret d => Ret (before ++ d :: after, Some d)
         | Throw err => Throw err
         end.
Proof.
  intros Hb Hm. induction before as [|d0 before IH];
    cbn [app findOneAndReplace].
  - rewrite Hm. reflexivity.
  - rewrite (Hb d0) by now left.
    rewrite IH by (intros d Hd; apply Hb; now right).
    rewrite ArithFacts.option_bind_Some_l.
    now destruct (replacement doc e).
Qed.

Lemma get_spread_id i entity :
  unique_keys entity ->
  get (spread [("id"%string, i)] entity) "id"
  = Some (default i (get entity "id"))
  /\ forall k, k <> "id"%string ->
       get (spread [("id"%string, i)] entity) k = get entity k.
Proof.
  intros Hu. split.
  - rewrite get_spread by exact Hu. now destruct (get entity "id").
  - intros k Hk. rewrite get_spread by exact Hu.
    destruct (get entity k); [reflexivity|]. cbn [get].
    destruct (String.eqb_spec "id" k); [congruence|reflexivity].
Qed.

(** C4, amended: [replaceById(id, entity)] replaces the first stored record
    whose [id] matches, in its place and leaving every other record as it
    is, by [{ id, ...entity }], and returns the stored result.  The [id] of
    the stored result is the [id] argument when the entity has no [id]
    property of its own, and the entity's own value when it has one; its
    other properties, [_id] apart, are those of the entity.  The driver
    accepts the replacement whenever the entity carries no [_id]; when it
    refuses, its error is thrown and nothing is replaced. *)
Theorem replaceById_stores_spread_id w i entity before doc after :
  unique_keys entity ->
  coll w = before ++ doc :: after ->
  (forall d, In d before -> matches d (QEq "id" i) = Some false) ->
  matches doc (QEq "id" i) = Some true ->
  (forall d, replacement doc (spread [("id"%string, i)] entity) = Ret d ->
     replaceById w i entity
     = Some (Ret (Some d), {| coll := before ++ d :: after; gen := gen w |})
     /\ get d "id" = Some (default i (get entity "id"))
     /\ (forall k, k <> "id"%string -> k <> "_id"%string ->
           get d k = get entity k))
  /\ (forall err,
        replacement doc (spread [("id"%string, i)] entity) = Throw err ->
        replaceById w i entity = Some (Throw err, w))
  /\ (get entity "_id" = None ->
      exists d, replacement doc (spread [("id"%string, i)] entity) = Ret d).
Proof.
  intros Hu Hc Hb Hm.
  destruct (get_spread_id i entity Hu) as [Hid Hrest].
  assert (E : replaceById w i entity
              = Some match replacement doc (spread [("id"%string, i)] entity) with
                     | Ret d =>
                         (Ret (Some d),
                          {| coll := before ++ d :: after; gen := gen w |})
                     | Throw err => (Throw err, w)
                     end).
  { unfold replaceById. rewrite Hc, findOneAndReplace_first by auto.
    rewrite ArithFacts.option_bind_Some_l.
    now destruct (replacement doc (spread [("id"%string, i)] entity)). }
  split; [|split].
  - intros d Hd. rewrite Hd in E. split; [exact E|].
    pose proof (replacement_get _ _ _ Hd) as Hg. split.
    + rewrite Hg by discriminate. exact Hid.
    + intros k Hk Hk'. rewrite Hg by exact Hk'. now apply Hrest.
  - intros err He. now rewrite He in E.
  - intros Hn. apply replacement_without_id.
    rewrite Hrest by discriminate. exact Hn.
Qed.

Lemma replaceById_stores_spread_id_witness :
  exists d w',
    replaceById
      {| coll := [[("_id"%string, VStr "o0"); ("id"%string, VStr "0")];
                  [("_id"%string, VStr "o1"); ("id"%string, VStr "1");
                   ("name"%string, VStr "a")]];
         gen := generator |}
      (VStr "1") [("name"%string, VStr "b")]
    = Some (Ret (Some d), w')
    /\ coll w' = [[("_id"%string, VStr "o0"); ("id"%string, VStr "0")]; d]
    /\ get d "id" = Some (VStr "1")
    /\ get d "name" = Some (VStr "b").
Proof.
  destruct (replaceById_stores_spread_id
              {| coll := [[("_id"%string, VStr "o0"); ("id"%string, VStr "0")];
                          [("_id"%string, VStr "o1"); ("id"%string, VStr "1");
                           ("name"%string, VStr "a")]];
                 gen := generator |}
              (VStr "1") [("name"%string, VStr "b")]
              [[("_id"%string, VStr "o0"); ("id"%string, VStr "0")]]
              [("_id"%string, VStr "o1"); ("id"%string, VStr "1");
               ("name"%string, VStr "a")]
              [])
    as (Hret & _ & Hex).
  - repeat constructor; simpl; intuition discriminate.
  - reflexivity.
  - intros d [<-|[]]. reflexivity.
  - reflexivity.
  - destruct (Hex eq_refl) as [d Hd].
    destruct (Hret d Hd) as (E & Hid & Hrest).
    exists d. eexists. split; [exact E|]. split; [reflexivity|].
    split; [exact Hid|].
    rewrite (Hrest "name"%string); [reflexivity|discriminate|discriminate].
Defined.

(** *** Connecting *)

(** A first [connect()] for a key registers its client, held by this one
    adapter, and waits for [client.connect()].  When that fails and no
    other adapter has called [connect()] in the meantime, the error is
    rethrown unchanged and the registry is as it was before the call. *)
Lemma connect_failure_alone uri fresh connected (reg : gmap string entry) err :
  reg !! store_key uri = None ->
  let a := {| storeKey := store_key uri; conn_client := fresh |} in
  let registered :=
    <[store_key uri := {| client := fresh; refCount := 1;
                          state := Connecting |}]> reg in
  connect uri fresh connected reg = (AwaitConnect a, registered)
  /\ registered !! store_key uri
     = Some {| client := fresh; refCount := 1; state := Connecting |}
  /\ connect_resume (AwaitConnect a) (Rejected err) registered
     = (Finished (Throw err), reg).
Proof.
  intros Hnone a registered. split; [|split].
  - unfold connect, getClientFromGlobalStore. now rewrite Hnone.
  - apply lookup_insert_eq.
  - unfold connect_resume, removeAdapterFromClientGlobalStore.
    cbn [storeKey a]. unfold registered. rewrite lookup_insert_eq.
    cbn [refCount Nat.leb snd].
    now rewrite delete_insert_eq, delete_id by auto.
Qed.

(** An adapter that calls [connect()] for the same key while the first
    one waits for [client.connect()] obtains the client that is still
    connecting and becomes a second reference.  When [client.connect()]
    then fails, the first adapter gives up its own reference only: the
    registry is left with the entry it had registered. *)
Lemma connect_failure_joined uri fresh fresh' connected
    (reg : gmap string entry) err :
  reg !! store_key uri = None ->
  let a := {| storeKey := store_key uri; conn_client := fresh |} in
  let registered :=
    <[store_key uri := {| client := fresh; refCount := 1;
                          state := Connecting |}]> reg in
  let joined :=
    <[store_key uri := {| client := fresh; refCount := 2;
                          state := Connecting |}]> reg in
  connect uri fresh' connected registered
  = (if connected then AwaitPing a else AwaitOpen a, joined)
  /\ connect_resume (AwaitConnect a) (Rejected err) joined
     = (Finished (Throw err), registered).
Proof.
  intros Hnone a registered joined. split.
  - unfold connect, getClientFromGlobalStore, registered.
    rewrite lookup_insert_eq. cbn [client refCount state].
    now rewrite insert_insert_eq.
  - unfold connect_resume, removeAdapterFromClientGlobalStore, joined.
    cbn [storeKey a]. rewrite lookup_insert_eq.
    cbn [refCount Nat.leb snd client state Nat.pred].
    now rewrite insert_insert_eq.
Qed.

(** C8, at the failing input: with an empty registry, a first adapter
    calls [connect()] and waits for [client.connect()] on the client 7 it
    has registered; a second adapter calls [connect()] for the same key and
    waits for the ['open'] event of that client; then [client.connect()]
    fails.  The first adapter rethrows the error unchanged, and the entry
    it registered is still in the registry, with the client that failed to
    connect, held by the second adapter. *)
Theorem connect_failure_keeps_joined_entry :
  let key := store_key None in
  let a := {| storeKey := key; conn_client := 7%nat |} in
  let err := DriverError "ECONNREFUSED" in
  exists reg1 reg2 reg3 : gmap string entry,
    connect None 7%nat false ∅ = (AwaitConnect a, reg1)
    /\ connect None 8%nat false reg1 = (AwaitOpen a, reg2)
    /\ connect_resume (AwaitConnect a) (Rejected err) reg2
       = (Finished (Throw err), reg3)
    /\ reg3 !! key
       = Some {| client := 7%nat; refCount := 1; state := Connecting |}.
Proof.
  intros key a err.
  destruct (connect_failure_alone None 7%nat false ∅ err (lookup_empty _))
    as (H1 & H2 & _).
  destruct (connect_failure_joined None 7%nat 8%nat false ∅ err
              (lookup_empty _)) as (H3 & H4).
  eexists. eexists. eexists.
  split; [exact H1|]. split; [exact H3|]. split; [exact H4|exact H2].
Qed.

End WriteSpec.

(** ** Further properties of the digit-array arithmetic *)

Module DigitSpec.
Import JS Numeral Snowflake More JSFacts ArithFacts ConvertFacts StringFacts
  HexFacts.

(** X1: on digit arrays of a base of at least 2, [add] is addition: the
    result has the sum as value and digits of the base, and it has no
    leading zero when the operands have none. *)
Theorem add_is_addition base x y :
  2 <= base -> digits_in base x -> digits_in base y ->
  val base (add x y base) = val base x + val base y
  /\ digits_in base (add x y base)
  /\ (canon x -> canon y -> canon (add x y base)).
Proof.
  intros Hb Hx Hy. destruct (add_spec base x y Hb Hx Hy) as [Hv Hd].
  split; [exact Hv|]. split; [exact Hd|].
  intros Cx Cy. now apply add_canon.
Qed.

Lemma add_is_addition_witness :
  val 10 (add [9; 9] [1] 10) = val 10 [9; 9] + val 10 [1]
  /\ add [9; 9] [1] 10 = [0; 0; 1].
Proof.
  destruct (add_is_addition 10 [9; 9] [1]) as (Hv & _).
  - lia.
  - repeat constructor; lia.
  - repeat constructor; lia.
  - split; [exact Hv|reflexivity].
Defined.

(** X2: [multiplyByNumber] returns [null] for a negative factor, and for
    a factor from 0 to [2^31 - 1] the digit array of the product, again
    without leading zero. *)
Theorem multiplyByNumber_is_product base num x :
  (num < 0 -> multiplyByNumber num x base = None)
  /\ (2 <= base -> 0 <= num < 2 ^ 31 -> wf_digits base x ->
      exists r, multiplyByNumber num x base = Some r
                /\ val base r = num * val base x
                /\ wf_digits base r).
Proof.
  split.
  - intros Hn. unfold multiplyByNumber.
    now replace (num <? 0) with true by lia.
  - intros Hb Hn Hx. now apply multiplyByNumber_spec.
Qed.

Lemma multiplyByNumber_is_product_witness :
  multiplyByNumber (-1) [5; 2] 10 = None
  /\ exists r, multiplyByNumber 16 [5; 2] 10 = Some r
               /\ val 10 r = 16 * val 10 [5; 2].
Proof.
  destruct (multiplyByNumber_is_product 10 (-1) [5; 2]) as [Hneg _].
  destruct (multiplyByNumber_is_product 10 16 [5; 2]) as [_ Hpos].
  split.
  - apply Hneg. lia.
  - destruct Hpos as (r & Hr & Hv & _).
    + lia.
    + split; [lia|reflexivity].
    + split; [repeat constructor; lia|unfold canon; simpl; lia].
    + exists r. split; [exact Hr|exact Hv].
Defined.

(** *** [parseToDigitsArray] *)

Lemma not_digit_chars c :
  is_ws c = true \/ (code c =? 45) = true \/ (code c =? 43) = true ->
  char_digit c = None.
Proof.
  unfold is_ws, char_digit. intros H.
  replace ((48 <=? code c) && (code c <=? 57)) with false by lia.
  replace ((97 <=? code c) && (code c <=? 122)) with false by lia.
  now replace ((65 <=? code c) && (code c <=? 90)) with false by lia.
Qed.

(** [parseInt] of one character in a base from 2 to 36. *)
Lemma parseInt_char_eq b c :
  2 <= b <= 36 ->
  parseInt [c] (Some b)
  = if valid_digit b c then Num (digit_val c) else NaN.
Proof.
  intros Hb. unfold parseInt, valid_digit, digit_val.
  cbn [skip_ws default]. change (id b) with b.
  replace (negb (b =? 0) && ((b <? 2) || (36 <? b))) with false by lia.
  replace (b =? 0) with false by lia. cbn [orb].
  destruct (is_ws c) eqn:Hws.
  { rewrite not_digit_chars by auto. cbn.
    destruct (b =? 16); reflexivity. }
  destruct (code c =? 45) eqn:Hm.
  { rewrite not_digit_chars by auto. cbn.
    destruct (b =? 16); reflexivity. }
  destruct (code c =? 43) eqn:Hp.
  { rewrite not_digit_chars by auto. cbn.
    destruct (b =? 16); reflexivity. }
  assert (E : (if b =? 16
               then match strip_0x [c] with
                    | Some s' => (16, s')
                    | None => (b, [c])
                    end
               else (b, [c])) = (b, [c]))
    by (destruct (b =? 16); reflexivity).
  rewrite E. cbn [parse_digits].
  destruct (char_digit c) as [d|] eqn:Hd; [|reflexivity].
  apply char_digit_range in Hd.
  destruct (d <? b); [|reflexivity].
  cbn [default]. change (id 0) with 0. change (id d) with d.
  assert (36 < 2 ^ 53) by reflexivity.
  rewrite round_double_small by lia. f_equal; lia.
Qed.

Lemma parse_rev_eq b s : forall ary,
  2 <= b <= 36 ->
  parse_rev s b ary
  = if forallb (valid_digit b) s then Some (ary ++ map digit_val s) else None.
Proof.
  induction s as [|c r IH]; intros ary Hb.
  - simpl. now rewrite app_nil_r.
  - cbn [parse_rev forallb map]. rewrite parseInt_char_eq by auto.
    destruct (valid_digit b c); [|reflexivity].
    rewrite IH by auto. cbn [andb].
    destruct (forallb (valid_digit b) r); [|reflexivity].
    now rewrite <- app_assoc.
Qed.

Lemma forallb_rev {A} (f : A -> bool) l : forallb f (rev l) = forallb f l.
Proof.
  induction l as [|a l IH]; [reflexivity|].
  simpl. rewrite forallb_app, IH. simpl. rewrite andb_true_r. apply andb_comm.
Qed.

Lemma parseToDigitsArray_eq b s :
  2 <= b <= 36 ->
  parseToDigitsArray s b
  = if forallb (valid_digit b) s then Some (rev (map digit_val s)) else None.
Proof.
  intros Hb. unfold parseToDigitsArray.
  rewrite parse_rev_eq, forallb_rev by auto.
  destruct (forallb (valid_digit b) s); [|reflexivity].
  simpl. now rewrite map_rev.
Qed.

(** X3: in a base from 2 to 36, [parseToDigitsArray] returns [null] as
    soon as one character is not a digit of the base, and otherwise the
    digit values from the last character to the first. *)
Theorem parseToDigitsArray_digits b s :
  2 <= b <= 36 ->
  (forallb (valid_digit b) s = true ->
   parseToDigitsArray s b = Some (rev (map digit_val s)))
  /\ (forallb (valid_digit b) s = false -> parseToDigitsArray s b = None).
Proof.
  intros Hb. rewrite parseToDigitsArray_eq by auto.
  split; intros ->; reflexivity.
Qed.

Lemma parseToDigitsArray_digits_witness :
  parseToDigitsArray (lit "1F") 16 = Some [15; 1]
  /\ parseToDigitsArray (lit "1g") 16 = None.
Proof.
  split.
  - destruct (parseToDigitsArray_digits 16 (lit "1F")) as [H _]; [lia|].
    rewrite H by reflexivity. reflexivity.
  - destruct (parseToDigitsArray_digits 16 (lit "1g")) as [_ H]; [lia|].
    apply H. reflexivity.
Defined.

(** *** [convertBase] *)

Lemma valid_digit_range b c :
  valid_digit b c = true -> 0 <= digit_val c < b.
Proof.
  unfold valid_digit, digit_val.
  destruct (char_digit c) as [d|] eqn:E; [|discriminate].
  apply char_digit_range in E. simpl. lia.
Qed.

Lemma digits_in_valid b s :
  forallb (valid_digit b) s = true -> digits_in b (map digit_val s).
Proof.
  induction s as [|c r IH]; simpl; intros H; [constructor|].
  apply andb_true_iff in H as [Hc Hr].
  constructor; [now apply valid_digit_range|now apply IH].
Qed.

Lemma canon_rev_head r x l :
  canon r -> rev r = x :: l -> x <> 0.
Proof.
  intros Hc E. apply (f_equal (@rev Z)) in E.
  rewrite rev_involutive in E. subst r. simpl in Hc.
  unfold canon in Hc. now rewrite last_last in Hc.
Qed.

Lemma wf_digits_zero b r : 0 < b -> wf_digits b r -> val b r = 0 -> r = [].
Proof.
  intros Hb [Hd Hc] Hv. destruct r as [|d r']; [reflexivity|].
  pose proof (val_canon_lower b (d :: r') Hb Hd Hc ltac:(discriminate)) as Hl.
  assert (0 < b ^ Z.of_nat (length (d :: r') - 1))
    by (apply Z.pow_pos_nonneg; lia).
  lia.
Qed.

(** X4: between bases from 2 to 36, [convertBase] turns a numeral into the
    numeral of the same value in the target base, without leading zero
    (the empty string for zero), and it returns [null] when a character is
    not a digit of the source base. *)
Theorem convertBase_keeps_value fromBase toBase s :
  2 <= fromBase <= 36 -> 2 <= toBase <= 36 ->
  (forallb (valid_digit fromBase) s = true ->
   exists d, convertBase s fromBase toBase = Some d
             /\ numeral toBase d = true
             /\ valBE toBase d = valBE fromBase s
             /\ (valBE fromBase s = 0 -> d = [])
             /\ (forall c r, d = c :: r -> digit_val c <> 0))
  /\ (forallb (valid_digit fromBase) s = false ->
      convertBase s fromBase toBase = None).
Proof.
  intros Hf Ht. unfold convertBase.
  rewrite parseToDigitsArray_eq by auto. split; intros Hs; rewrite Hs.
  - rewrite option_bind_Some_l.
    assert (H31 : 36 < 2 ^ 31) by reflexivity.
    destruct (convert_loop_spec fromBase toBase (rev (map digit_val s)) [] [1])
      as (r & E & Hv & Wr); try lia.
    { now apply digits_in_rev, digits_in_valid. }
    { apply wf_digits_nil. }
    { apply wf_digits_one. lia. }
    rewrite E, option_bind_Some_l.
    rewrite val_rev_digits in Hv. cbn [val] in Hv.
    assert (Hv' : val toBase r = valBE fromBase s) by lia.
    pose proof Wr as [Hd Hc].
    exists (digits_to_string r toBase). split; [reflexivity|].
    rewrite digits_to_string_spec by (auto; lia).
    split; [apply numeral_map_digit_char; [lia|now apply digits_in_rev]|].
    split; [rewrite valBE_map_digit_char by (auto; lia); exact Hv'|].
    split.
    + intros Hz. rewrite (wf_digits_zero toBase r) by (auto; lia). reflexivity.
    + intros c l E'. destruct (rev r) as [|x l'] eqn:Er; [discriminate|].
      cbn [map] in E'. inversion E'; subst.
      assert (Hx : 0 <= x < toBase).
      { apply digits_in_rev in Hd. rewrite Er in Hd. now inversion Hd. }
      rewrite digit_val_digit_char by lia.
      now apply (canon_rev_head r x l').
  - reflexivity.
Qed.

Lemma convertBase_invalid b t s :
  2 <= b <= 36 -> forallb (valid_digit b) s = false ->
  convertBase s b t = None.
Proof.
  intros Hb Hs. unfold convertBase.
  now rewrite parseToDigitsArray_eq, Hs by auto.
Qed.

Lemma convertBase_keeps_value_witness :
  (exists d, convertBase (lit "ff") 16 2 = Some d /\ valBE 2 d = valBE 16 (lit "ff"))
  /\ convertBase (lit "fg") 16 2 = None.
Proof.
  destruct (convertBase_keeps_value 16 2 (lit "ff")) as [Hok _]; [lia|lia|].
  destruct (convertBase_keeps_value 16 2 (lit "fg")) as [_ Hbad]; [lia|lia|].
  split.
  - destruct Hok as (d & E & _ & Hv & _); [reflexivity|].
    exists d. split; [exact E|exact Hv].
  - apply Hbad. reflexivity.
Defined.

End DigitSpec.

(** ** Further properties of the hexadecimal conversions *)

Module HexSpec.
Import JS Numeral Snowflake Run More JSFacts ArithFacts ConvertFacts
  StringFacts HexFacts GeneratorFacts FingerprintSpec DigitSpec.

Lemma lit_0x_app h : lit "0x" ++ h = "0"%char :: "x"%char :: h.
Proof. reflexivity. Qed.

Lemma substring_from_2 c0 c1 s : substring_from (c0 :: c1 :: s) 2 = s.
Proof.
  unfold substring_from, substring, clamp. cbn [length].
  set (n := length s).
  replace (Z.min (Z.max 0 (Z.min 2 (Z.of_nat (S (S n)))))
             (Z.max 0 (Z.min (Z.of_nat (S (S n))) (Z.of_nat (S (S n))))))
    with 2 by lia.
  replace (Z.max (Z.max 0 (Z.min 2 (Z.of_nat (S (S n)))))
             (Z.max 0 (Z.min (Z.of_nat (S (S n))) (Z.of_nat (S (S n))))) - 2)
    with (Z.of_nat n) by lia.
  change (Z.to_nat 2) with 2%nat. cbn [skipn].
  rewrite Nat2Z.id. apply firstn_all.
Qed.

Lemma hexToDec_hex_eq h :
  hex_string h = true -> hexToDec h = convertBase (toLowerCase h) 16 10.
Proof.
  intros H. unfold hexToDec.
  now rewrite bool_decide_eq_false_2 by now apply no_0x_prefix_hex.
Qed.

Lemma hexToDec_0x_eq h :
  hexToDec (lit "0x" ++ h) = convertBase (toLowerCase h) 16 10.
Proof.
  unfold hexToDec. rewrite lit_0x_app.
  rewrite bool_decide_eq_true_2.
  - now rewrite substring_from_2.
  - rewrite substring_prefix by lia. reflexivity.
Qed.

Lemma digit_val_lower c :
  is_digit 16 (lower_char c) = true -> digit_val (lower_char c) = digit_val c.
Proof.
  unfold is_digit, lower_char, digit_val, char_digit.
  pose proof (code_range c) as Hc.
  destruct (((65 <=? code c) && (code c <=? 90))
            || ((192 <=? code c) && (code c <=? 222) && negb (code c =? 215)))
    eqn:E; [|reflexivity].
  rewrite code_chr by lia. intros H.
  assert (Hr : 65 <= code c <= 90) by lia.
  replace ((48 <=? code c + 32) && (code c + 32 <=? 57)) with false by lia.
  replace ((97 <=? code c + 32) && (code c + 32 <=? 122)) with true by lia.
  replace ((48 <=? code c) && (code c <=? 57)) with false by lia.
  replace ((97 <=? code c) && (code c <=? 122)) with false by lia.
  replace ((65 <=? code c) && (code c <=? 90)) with true by lia.
  simpl. lia.
Qed.

Lemma valBE_toLowerCase h :
  hex_string h = true -> valBE 16 (toLowerCase h) = valBE 16 h.
Proof.
  unfold valBE, val_from, hex_string, toLowerCase. generalize 0.
  induction h as [|c h IH]; intros acc H; [reflexivity|].
  simpl in H. apply andb_true_iff in H as [Hc Hh].
  cbn [map fold_left]. rewrite digit_val_lower by auto. now apply IH.
Qed.

(** X5: on a string of hexadecimal digits of either case [hexToDec]
    gives the decimal numeral of its value; a leading [0x] in front of the
    digits and the case of the letters make no difference. *)
Theorem hexToDec_reads_hexadecimal h :
  hex_string h = true ->
  exists d, hexToDec h = Some d
            /\ hexToDec (lit "0x" ++ h) = Some d
            /\ hexToDec (toLowerCase h) = Some d
            /\ numeral 10 d = true
            /\ valBE 10 d = valBE 16 h.
Proof.
  intros H.
  pose proof (numeral_toLowerCase h H) as Hl.
  destruct (convertBase_numeral _ Hl) as (r & Wr & Vr & E).
  destruct (decimal_of_digits r Wr) as (Hd & Hdv & _).
  exists (map digit_char (rev r)).
  split; [now rewrite hexToDec_hex_eq|].
  split; [now rewrite hexToDec_0x_eq|].
  split.
  - destruct (hexToDec_numeral _ Hl) as (r' & _ & _ & E').
    unfold hexToDec in *.
    rewrite bool_decide_eq_false_2 by now apply no_0x_prefix.
    rewrite (toLowerCase_numeral 16) by (auto; lia). exact E.
  - split; [exact Hd|]. rewrite Hdv, Vr. now apply valBE_toLowerCase.
Qed.

Lemma hexToDec_reads_hexadecimal_witness :
  exists d, hexToDec (lit "1F") = Some d
            /\ hexToDec (lit "0x1F") = Some d
            /\ valBE 10 d = 31.
Proof.
  destruct (hexToDec_reads_hexadecimal (lit "1F")) as (d & H1 & H2 & _ & _ & Hv).
  - reflexivity.
  - exists d. split; [exact H1|]. split; [exact H2|exact Hv].
Defined.

Lemma forallb_app_false {A} (f : A -> bool) a c b :
  f c = false -> forallb f (a ++ c :: b) = false.
Proof.
  intros H. rewrite forallb_app. simpl. rewrite H. apply andb_false_r.
Qed.

Lemma toLowerCase_invalid a c b :
  valid_digit 16 (lower_char c) = false ->
  convertBase (toLowerCase (a ++ c :: b)) 16 10 = None.
Proof.
  intros H. apply convertBase_invalid; [lia|].
  unfold toLowerCase. rewrite map_app. cbn [map].
  now apply forallb_app_false.
Qed.

(** X6: [hexToDec] returns [null] as soon as the string holds a character
    that is not a hexadecimal digit, other than the [x] of a leading [0x];
    the upper-case prefix [0X] is such a character. *)
Theorem hexToDec_null_on_other_characters a c b :
  valid_digit 16 (lower_char c) = false ->
  ~ (a = lit "0" /\ c = "x"%char) ->
  hexToDec (a ++ c :: b) = None.
Proof.
  intros Hc Hx. unfold hexToDec.
  destruct (bool_decide (substring (a ++ c :: b) 0 2 = lit "0x")) eqn:E.
  - apply bool_decide_eq_true_1 in E. rewrite substring_prefix in E by lia.
    destruct a as [|z [|z2 a']].
    + simpl in E. destruct b; inversion E; subst. discriminate Hc.
    + simpl in E. inversion E; subst. exfalso. apply Hx. split; reflexivity.
    + cbn [app]. rewrite substring_from_2. now apply toLowerCase_invalid.
  - now apply toLowerCase_invalid.
Qed.

Lemma hexToDec_null_on_other_characters_witness :
  hexToDec (lit "0X1F") = None /\ hexToDec (lit "12-4") = None.
Proof.
  split.
  - apply (hexToDec_null_on_other_characters (lit "0") "X"%char (lit "1F")).
    + reflexivity.
    + intros [_ H]. discriminate H.
  - apply (hexToDec_null_on_other_characters (lit "12") "-"%char (lit "4")).
    + reflexivity.
    + intros [H _]. discriminate H.
Defined.

(** *** The hexadecimal form of a bit string *)

Lemma hex_loop_length bid :
  numeral 2 bid = true ->
  forall fuel i id,
    i <= Z.of_nat (length bid) -> i <= Z.of_nat fuel ->
    Z.of_nat (length (hex_loop fuel bid i id))
    = Z.max 0 ((i + 3) / 4) + Z.of_nat (length id).
Proof.
  intros Hbid. induction fuel as [|f IH]; intros i id Hi Hf.
  - simpl. assert ((i + 3) / 4 <= 0); [|lia].
    apply Z.lt_succ_r, Z.div_lt_upper_bound; lia.
  - destruct (Z.le_gt_cases i 0) as [Hle|Hpos].
    + rewrite hex_loop_done by auto.
      assert ((i + 3) / 4 <= 0); [|lia].
      apply Z.lt_succ_r, Z.div_lt_upper_bound; lia.
    + cbn [hex_loop]. replace (0 <? i) with true by lia.
      rewrite substring_chunk by lia.
      set (lo := Z.max 0 (i - 4)).
      set (ch := firstn (Z.to_nat (i - lo)) (skipn (Z.to_nat lo) bid)).
      assert (Hchlen : length ch = Z.to_nat (i - lo)).
      { unfold ch. rewrite firstn_length_le; [reflexivity|].
        rewrite length_skipn. lia. }
      destruct (hex_digit_of_chunk ch) as [-> _].
      { intros E. rewrite E in Hchlen. simpl in Hchlen. lia. }
      { unfold ch. now apply numeral_firstn, numeral_skipn. }
      { lia. }
      rewrite IH by lia. cbn [length app].
      replace (i + 3) with ((i - 4 + 3) + 1 * 4) by lia.
      rewrite Z.div_add by lia.
      assert (0 <= (i - 4 + 3) / 4) by (apply Z.div_pos; lia). lia.
Qed.

(** X7: the loop of [generate] that rewrites a bit string in hexadecimal
    keeps its value and writes one digit for every four bits, the last
    group being shorter when the length is not a multiple of four. *)
Theorem to_hex_keeps_value bid :
  numeral 2 bid = true ->
  numeral 16 (to_hex bid) = true
  /\ valBE 16 (to_hex bid) = valBE 2 bid
  /\ Z.of_nat (length (to_hex bid)) = (Z.of_nat (length bid) + 3) / 4.
Proof.
  intros H. destruct (to_hex_spec bid H) as [Hn Hv].
  split; [exact Hn|]. split; [exact Hv|].
  unfold to_hex. rewrite (hex_loop_length bid H) by lia. cbn [length].
  assert (0 <= (Z.of_nat (length bid) + 3) / 4) by (apply Z.div_pos; lia).
  lia.
Qed.

Lemma to_hex_keeps_value_witness :
  valBE 16 (to_hex (lit "101111")) = 47
  /\ Z.of_nat (length (to_hex (lit "101111"))) = 2.
Proof.
  destruct (to_hex_keeps_value (lit "101111")) as (_ & Hv & Hl).
  - reflexivity.
  - split; [exact Hv|exact Hl].
Defined.

(** *** The default identifier *)

Lemma generateRandomId_digits ds :
  digits_in 10 ds -> generateRandomId ds = map digit_char ds.
Proof.
  unfold generateRandomId. induction 1 as [|d l Hd _ IH]; [reflexivity|].
  simpl. now rewrite int_to_string_digit, IH by lia.
Qed.

Lemma hex_string_decimal s : numeral 10 s = true -> hex_string s = true.
Proof.
  unfold numeral, hex_string. induction s as [|c s IH]; simpl; [auto|].
  intros H. apply andb_true_iff in H as [Hc Hs].
  destruct (is_digit_plain 10 c ltac:(lia) Hc) as (_ & _ & _ & _ & _ & ->).
  rewrite (is_digit_mono 10 16) by (auto; lia). now apply IH.
Qed.

(** X8: a generator built without [instanceId] draws four decimal digits
    with [generateRandomId] and is well formed, with a ten-bit fingerprint,
    unless the four digits are all zero; in that one case its fingerprint
    is [00NaN]. *)
Theorem default_constructor_state r ds off :
  0 <= r < 1024 -> length ds = 4%nat -> digits_in 10 ds ->
  (ds <> [0; 0; 0; 0] ->
   wf_state (new r (generateRandomId ds) off None) = true
   /\ length (instanceNumber (new r (generateRandomId ds) off None)) = 10%nat)
  /\ (ds = [0; 0; 0; 0] ->
      instanceNumber (new r (generateRandomId ds) off None) = lit "00NaN"
      /\ wf_state (new r (generateRandomId ds) off None) = false).
Proof.
  intros Hr Hlen Hds. split.
  - intros Hnz. rewrite generateRandomId_digits by auto.
    destruct ds as [|a [|b [|c [|d [|? ?]]]]]; try discriminate Hlen.
    inversion Hds as [|? ? Ha H1]; subst.
    inversion H1 as [|? ? Hb H2]; subst.
    inversion H2 as [|? ? Hc H3]; subst.
    inversion H3 as [|? ? Hd _]; subst.
    set (st := new r (map digit_char [a; b; c; d]) off None).
    assert (Hid : instanceId st
                  = padStart (map digit_char [a; b; c; d]) 32 "0"%char)
      by reflexivity.
    assert (Hnum : numeral 10 (instanceId st) = true).
    { rewrite Hid, numeral_padStart by lia.
      now apply numeral_map_digit_char; [lia|]. }
    assert (Hval : valBE 16 (toLowerCase (instanceId st))
                   = ((a * 16 + b) * 16 + c) * 16 + d).
    { rewrite (toLowerCase_numeral 10) by (auto; lia).
      rewrite Hid, valBE_padStart.
      change (map digit_char [a; b; c; d])
        with (map digit_char (rev [d; c; b; a])).
      rewrite valBE_map_digit_char; [simpl; lia|lia|].
      repeat constructor; lia. }
    assert (Hpos : 0 < ((a * 16 + b) * 16 + c) * 16 + d < 2 ^ 53).
    { assert (2 ^ 16 < 2 ^ 53) by reflexivity.
      change (2 ^ 16) with 65536 in *.
      split; [|lia].
      destruct (Z.eq_dec a 0), (Z.eq_dec b 0), (Z.eq_dec c 0), (Z.eq_dec d 0);
        subst; try lia. congruence. }
    pose proof (hex_string_decimal _ Hnum) as Hhex.
    rewrite <- Hval in Hpos.
    destruct (new_wf r (map digit_char [a; b; c; d]) off None Hr Hhex Hpos)
      as [Hwf _].
    split; [exact Hwf|].
    assert (E : instanceNumber st = fingerprint (instanceId st)) by reflexivity.
    rewrite E, (fingerprint_exact _ Hhex Hpos).
    pose proof (Z.mod_pos_bound (valBE 16 (toLowerCase (instanceId st))) 24
                  ltac:(lia)) as Hm.
    now apply ten_bits; lia.
  - intros ->.
    assert (E : instanceNumber (new r (generateRandomId [0; 0; 0; 0]) off None)
                = lit "00NaN") by (vm_compute; reflexivity).
    split; [exact E|]. unfold wf_state. rewrite E. reflexivity.
Qed.

Lemma default_constructor_state_witness :
  wf_state (new 5 (generateRandomId [0; 0; 4; 2]) None None) = true
  /\ wf_state (new 5 (generateRandomId [0; 0; 0; 0]) None None) = false.
Proof.
  split.
  - destruct (default_constructor_state 5 [0; 0; 4; 2] None) as [H _].
    + lia.
    + reflexivity.
    + repeat constructor; lia.
    + destruct H as [H _]; [discriminate|exact H].
  - destruct (default_constructor_state 5 [0; 0; 0; 0] None) as [_ H].
    + lia.
    + reflexivity.
    + repeat constructor; lia.
    + destruct H as [_ H]; [reflexivity|exact H].
Defined.

End HexSpec.

(** ** Further properties of the generator *)

Module GeneratorSpec.
Import JS Numeral Snowflake Run Examples More JSFacts ArithFacts ConvertFacts
  StringFacts HexFacts GeneratorFacts OrderFacts FingerprintSpec.

Lemma generate_render st now :
  fst (generate st now)
  = render st (fst (next_seq st (now - epoch))) (snd (next_seq st (now - epoch))).
Proof.
  unfold generate, render. destruct (next_seq st (now - epoch)) as [s time].
  cbn [fst snd]. now destruct (hexToDec _).
Qed.

Lemma render_params st st' s time :
  same_params st st' -> render st' s time = render st s time.
Proof.
  intros (H1 & H2 & H3). unfold render, bid_of. now rewrite H1, H2, H3.
Qed.

Lemma same_params_chain st st' st'' :
  same_params st st' -> same_params st' st'' -> same_params st st''.
Proof.
  intros (H1 & H2 & H3) (H4 & H5 & H6). unfold same_params.
  rewrite H4, H5, H6. auto.
Qed.

Lemma generate_fresh st now :
  lastTime st <> now - epoch ->
  fst (generate st now) = render st 0 (now - epoch)
  /\ seq (snd (generate st now)) = 0
  /\ lastTime (snd (generate st now)) = now - epoch
  /\ same_params st (snd (generate st now)).
Proof.
  intros H. destruct (generate_state st now) as [Hs Hp].
  rewrite generate_render. rewrite next_seq_fresh in * by auto.
  inversion Hs. auto.
Qed.

Lemma run_app st a : forall b,
  run st (a ++ b) = run st a ++ run (run_state st a) b.
Proof.
  revert st. induction a as [|x a IH]; intros st b; [reflexivity|].
  cbn [app run_state]. rewrite !run_cons, IH. reflexivity.
Qed.

Lemma run_length nows : forall st, length (run st nows) = length nows.
Proof.
  induction nows as [|x l IH]; intros st; [reflexivity|].
  rewrite run_cons. simpl. now rewrite IH.
Qed.

Lemma run_state_app st a b :
  run_state st (a ++ b) = run_state (run_state st a) b.
Proof.
  revert st. induction a as [|x a IH]; intros st; [reflexivity|].
  cbn [app run_state]. apply IH.
Qed.

(** [k] further calls within the tick recorded by the state only count. *)
Lemma same_tick t k : forall st,
  lastTime st = t - epoch -> seq st + Z.of_nat k <= 4095 ->
  lastTime (run_state st (repeat t k)) = t - epoch
  /\ seq (run_state st (repeat t k)) = seq st + Z.of_nat k
  /\ same_params st (run_state st (repeat t k)).
Proof.
  induction k as [|k IH]; intros st Hl Hs.
  - simpl. split; [auto|]. split; [lia|]. repeat split.
  - cbn [repeat run_state].
    destruct (generate_state st t) as [Hn Hp].
    rewrite (next_seq_same st (t - epoch) Hl) in Hn.
    replace (4095 <? seq st + 1) with false in Hn by lia.
    injection Hn as Hseq Hlast.
    destruct (IH (snd (generate st t))) as (H1 & H2 & H3); [auto|lia|].
    split; [exact H1|]. split; [lia|].
    eapply same_params_chain; eauto.
Qed.

(** X9: [generate] keeps no record of the readings before the last one:
    when the clock returns to an earlier reading after one call at a
    different reading, the call returns again what it returned there. *)
Theorem clock_regression_repeats st t t' :
  t <> t' -> lastTime st <> t - epoch ->
  exists o o',
    run st [t; t'; t] = [o; o'; o]
    /\ (wf_state st = true -> 0 <= t - epoch - offset st ->
        exists id, o = Ret id /\ length id = 23%nat).
Proof.
  intros Htt Hl.
  destruct (generate_fresh st t Hl) as (E1 & S1 & L1 & P1).
  set (st1 := snd (generate st t)) in *.
  destruct (generate_fresh st1 t') as (E2 & S2 & L2 & P2); [lia|].
  set (st2 := snd (generate st1 t')) in *.
  destruct (generate_fresh st2 t) as (E3 & S3 & L3 & P3); [lia|].
  exists (fst (generate st t)), (fst (generate st1 t')). split.
  - rewrite !run_cons. fold st1. fold st2. cbn [run].
    rewrite E3, E1. rewrite (render_params st st2); [reflexivity|].
    eapply same_params_chain; eauto.
  - intros Hwf Hpos.
    destruct (generate_returns st t Hwf Hpos) as (id & Hid & Hlen & _).
    exists id. auto.
Qed.

Lemma clock_regression_repeats_witness :
  exists o o', run generator [today + 1; today; today + 1] = [o; o'; o].
Proof.
  destruct (clock_regression_repeats generator (today + 1) today)
    as (o & o' & H & _).
  - unfold today. lia.
  - vm_compute. discriminate.
  - exists o, o'. exact H.
Defined.

(** A first call at a new reading, [k] calls that fill the counter, the
    call that wraps it and moves the recorded time ahead, and one more. *)
Lemma wrap_after st t k :
  lastTime st <> t - epoch -> Z.of_nat k = 4095 ->
  exists o mid,
    run st (t :: repeat t k ++ [t; t]) = o :: mid ++ [o]
    /\ length mid = S k.
Proof.
  intros Hl Hk.
  destruct (generate_fresh st t Hl) as (E1 & S1 & L1 & P1).
  set (st1 := snd (generate st t)) in *.
  destruct (same_tick t k st1 L1) as (L2 & S2 & P2); [lia|].
  set (st2 := run_state st1 (repeat t k)) in *.
  destruct (generate_state st2 t) as [N3 P3].
  rewrite (next_seq_same st2 (t - epoch) L2) in N3.
  replace (4095 <? seq st2 + 1) with true in N3 by lia.
  injection N3 as S3 L3.
  set (st3 := snd (generate st2 t)) in *.
  destruct (generate_fresh st3 t) as (E4 & _); [lia|].
  exists (fst (generate st t)),
    (run st1 (repeat t k) ++ [fst (generate st2 t)]).
  split.
  - rewrite run_cons. fold st1. rewrite run_app. fold st2.
    rewrite !run_cons. fold st3. cbn [run].
    rewrite E4, E1. rewrite (render_params st st3).
    + now rewrite <- app_assoc.
    + eapply same_params_chain; [exact P1|].
      eapply same_params_chain; [exact P2|exact P3].
  - rewrite length_app, run_length, repeat_length. simpl. lia.
Qed.

(** X10: the sequence counter wraps without waiting for the clock: when
    4098 calls are made at one clock reading, the last call returns what
    the first one returned. *)
Theorem too_many_calls_in_one_tick st t :
  lastTime st <> t - epoch ->
  exists o mid,
    run st (repeat t 4098) = o :: mid ++ [o] /\ length mid = 4096%nat.
Proof.
  intros Hl.
  assert (E : repeat t 4098 = t :: repeat t 4095 ++ [t; t]).
  { change 4098%nat with (1 + (4095 + 2))%nat.
    now rewrite !repeat_app. }
  rewrite E. apply wrap_after; [exact Hl|reflexivity].
Qed.

Lemma too_many_calls_in_one_tick_witness :
  exists o mid,
    run generator (repeat today 4098) = o :: mid ++ [o]
    /\ length mid = 4096%nat.
Proof.
  apply (too_many_calls_in_one_tick generator today).
  vm_compute. discriminate.
Defined.

(** *** Reading an identifier back *)

Lemma id_value_fields st s time :
  0 <= s <= 4095 -> 0 <= rnd st < 1024 ->
  numeral 2 (instanceNumber st) = true ->
  let v := id_value st s time in
  let L := Z.of_nat (length (instanceNumber st)) in
  v mod 2 ^ 10 = rnd st
  /\ (v / 2 ^ 10) mod 2 ^ 12 = s
  /\ (v / 2 ^ 22) mod 2 ^ L = valBE 2 (instanceNumber st)
  /\ v / 2 ^ (22 + L) = time - offset st.
Proof.
  intros Hs Hr Hn v L.
  pose proof (valBE_bound 2 _ ltac:(lia) Hn) as HI. fold L in HI.
  unfold v, id_value. fold L.
  set (I := valBE 2 (instanceNumber st)) in *.
  set (T := time - offset st). set (P := 2 ^ L) in *.
  assert (HP : 0 < P) by (apply Z.pow_pos_nonneg; lia).
  rewrite Z.pow_add_r by lia. fold P.
  change (2 ^ 22) with (1024 * 4096).
  change (2 ^ 12) with 4096. change (2 ^ 10) with 1024.
  assert (E1 : (((T * P + I) * 4096 + s) * 1024 + rnd st) / 1024
               = (T * P + I) * 4096 + s).
  { symmetry. apply (Z.div_unique _ _ _ (rnd st)); lia. }
  assert (E2 : ((T * P + I) * 4096 + s) / 4096 = T * P + I).
  { symmetry. apply (Z.div_unique _ _ _ s); lia. }
  split.
  { symmetry. apply (Z.mod_unique _ _ ((T * P + I) * 4096 + s)); lia. }
  rewrite <- !Z.div_div by lia. rewrite E1, E2.
  split.
  { symmetry. apply (Z.mod_unique _ _ (T * P + I)); lia. }
  split.
  { symmetry. apply (Z.mod_unique _ _ T); lia. }
  symmetry. apply (Z.div_unique _ _ _ I); lia.
Qed.

Lemma generate_fields st now :
  wf_state st = true -> in_range st now ->
  let st' := snd (generate st now) in
  let L := Z.of_nat (length (instanceNumber st)) in
  exists id,
    fst (generate st now) = Ret id
    /\ valBE 10 id mod 2 ^ 10 = rnd st
    /\ (valBE 10 id / 2 ^ 10) mod 2 ^ 12 = seq st'
    /\ (valBE 10 id / 2 ^ 22) mod 2 ^ L = valBE 2 (instanceNumber st)
    /\ valBE 10 id / 2 ^ (22 + L) = lastTime st' - offset st.
Proof.
  intros Hwf Hin st' L.
  destruct (generate_step st now Hwf Hin)
    as (id & Hid & _ & _ & Hv & Hwf' & _ & _).
  fold st' in Hv, Hwf'.
  destruct (wf_state_spec st Hwf) as (Hn & _ & Hr).
  destruct (wf_state_spec st' Hwf') as (_ & Hs' & _).
  exists id. split; [exact Hid|]. rewrite Hv.
  now apply id_value_fields.
Qed.

(** X11: while the composed number has at most 23 digits, the identifier
    can be read back: its value holds the random component in the lowest
    10 bits, then the sequence number in 12 bits, then the fingerprint, and
    above it the time elapsed since the epoch and the offset. *)
Theorem identifier_decodes st now :
  wf_state st = true -> in_range st now ->
  let st' := snd (generate st now) in
  let L := Z.of_nat (length (instanceNumber st)) in
  exists id,
    fst (generate st now) = Ret id
    /\ valBE 10 id mod 2 ^ 10 = rnd st
    /\ (valBE 10 id / 2 ^ 10) mod 2 ^ 12 = seq st'
    /\ (valBE 10 id / 2 ^ 22) mod 2 ^ L = valBE 2 (instanceNumber st)
    /\ valBE 10 id / 2 ^ (22 + L) = lastTime st' - offset st.
Proof.
  intros Hwf Hin. now apply generate_fields.
Qed.

Lemma identifier_decodes_witness :
  exists id,
    fst (generate generator today) = Ret id
    /\ valBE 10 id mod 2 ^ 10 = 5
    /\ valBE 10 id / 2 ^ 32 = today - epoch.
Proof.
  destruct (identifier_decodes generator today)
    as (id & Hid & Hr & _ & _ & Ht).
  - reflexivity.
  - split; vm_compute; congruence.
  - exists id. split; [exact Hid|]. split; [exact Hr|].
    etransitivity; [exact Ht|]. vm_compute. reflexivity.
Defined.

Lemma binary_numeral_inj s : forall t,
  numeral 2 s = true -> numeral 2 t = true -> length s = length t ->
  valBE 2 s = valBE 2 t -> s = t.
Proof.
  induction s as [|c s IH]; intros [|d t] Hs Ht Hl Hv; simpl in Hl; try lia.
  - reflexivity.
  - simpl in Hs, Ht.
    apply andb_true_iff in Hs as [Hc Hs]. apply andb_true_iff in Ht as [Hd Ht].
    rewrite !valBE_cons in Hv.
    pose proof (valBE_bound 2 s ltac:(lia) Hs) as Bs.
    pose proof (valBE_bound 2 t ltac:(lia) Ht) as Bt.
    assert (Hl' : length s = length t) by lia.
    rewrite <- Hl' in Hv, Bt.
    pose proof (digit_val_range _ _ Hc) as Rc.
    pose proof (digit_val_range _ _ Hd) as Rd.
    assert (Edv : digit_val c = digit_val d) by nia.
    assert (Hv' : valBE 2 s = valBE 2 t) by (rewrite Edv in Hv; lia).
    destruct (is_digit_spec _ _ Hc) as (x & _ & _ & Hx & Ex).
    destruct (is_digit_spec _ _ Hd) as (y & _ & _ & Hy & Ey).
    unfold digit_val in Edv. rewrite Hx, Hy in Edv. simpl in Edv.
    f_equal.
    + congruence.
    + apply IH; auto; lia.
Qed.

(** X12: two generators whose random components differ, or whose
    fingerprints have one length and differ, never return the same
    identifier while their composed numbers have at most 23 digits,
    whatever their clocks and counters. *)
Theorem distinct_generators_never_collide st1 st2 now1 now2 :
  wf_state st1 = true -> wf_state st2 = true ->
  in_range st1 now1 -> in_range st2 now2 ->
  rnd st1 <> rnd st2
  \/ (length (instanceNumber st1) = length (instanceNumber st2)
      /\ instanceNumber st1 <> instanceNumber st2) ->
  fst (generate st1 now1) <> fst (generate st2 now2).
Proof.
  intros W1 W2 I1 I2 Hd.
  destruct (generate_fields st1 now1 W1 I1) as (a & Ha & Ra & _ & Fa & _).
  destruct (generate_fields st2 now2 W2 I2) as (b & Hb & Rb & _ & Fb & _).
  rewrite Ha, Hb. intros E. inversion E; subst b.
  destruct Hd as [Hr|[Hl Hf]].
  - congruence.
  - apply Hf.
    destruct (wf_state_spec st1 W1) as (N1 & _).
    destruct (wf_state_spec st2 W2) as (N2 & _).
    apply binary_numeral_inj; auto.
    rewrite <- Fa, <- Fb, Hl. reflexivity.
Qed.

Lemma distinct_generators_never_collide_witness :
  fst (generate generator today)
  <> fst (generate (new 6 (lit "0042") None None) (today + 7)).
Proof.
  apply distinct_generators_never_collide.
  - reflexivity.
  - reflexivity.
  - split; vm_compute; congruence.
  - split; vm_compute; congruence.
  - left. vm_compute. discriminate.
Defined.

(** *** Instances with one fingerprint *)

Lemma generate_params st st' now :
  same_params st st' -> Snowflake.seq st = Snowflake.seq st' ->
  lastTime st = lastTime st' ->
  fst (generate st now) = fst (generate st' now)
  /\ same_params (snd (generate st now)) (snd (generate st' now))
  /\ Snowflake.seq (snd (generate st now))
     = Snowflake.seq (snd (generate st' now))
  /\ lastTime (snd (generate st now)) = lastTime (snd (generate st' now)).
Proof.
  intros Hp Hs Hl.
  assert (En : next_seq st (now - epoch) = next_seq st' (now - epoch))
    by (unfold next_seq; now rewrite Hs, Hl).
  destruct (generate_state st now) as [N1 (A1 & A2 & A3)].
  destruct (generate_state st' now) as [N2 (B1 & B2 & B3)].
  pose proof Hp as (P1 & P2 & P3).
  split.
  - rewrite !generate_render, En. symmetry. now apply render_params.
  - rewrite En, <- N2 in N1. injection N1 as Hseq Hlast.
    split; [|split; [exact Hseq|exact Hlast]].
    unfold same_params. rewrite A1, A2, A3, B1, B2, B3. auto.
Qed.

Lemma run_params nows : forall st st',
  same_params st st' -> Snowflake.seq st = Snowflake.seq st' ->
  lastTime st = lastTime st' ->
  run st nows = run st' nows.
Proof.
  induction nows as [|now rest IH]; intros st st' Hp Hs Hl; [reflexivity|].
  rewrite !run_cons.
  destruct (generate_params st st' now Hp Hs Hl) as (E & Hp' & Hs' & Hl').
  rewrite E. f_equal. now apply IH.
Qed.

(** X26: of an instance identifier whose value is positive and below
    [2^53] the fingerprint keeps only the value modulo 24: two generators
    built with the same random component and offset from two such
    identifiers that are congruent modulo 24 have the same fingerprint and
    return the same results at the same clock readings. *)
Theorem congruent_instances_collide r rid off i1 i2 :
  let st1 := new r rid off (Some i1) in
  let st2 := new r rid off (Some i2) in
  hex_string (instanceId st1) = true -> hex_string (instanceId st2) = true ->
  0 < valBE 16 (toLowerCase (instanceId st1)) < 2 ^ 53 ->
  0 < valBE 16 (toLowerCase (instanceId st2)) < 2 ^ 53 ->
  valBE 16 (toLowerCase (instanceId st1)) mod 24
  = valBE 16 (toLowerCase (instanceId st2)) mod 24 ->
  instanceNumber st1 = instanceNumber st2
  /\ forall nows, run st1 nows = run st2 nows.
Proof.
  intros st1 st2 H1 H2 V1 V2 Hc.
  assert (E : instanceNumber st1 = instanceNumber st2).
  { change (instanceNumber st1) with (fingerprint (instanceId st1)).
    change (instanceNumber st2) with (fingerprint (instanceId st2)).
    now rewrite !fingerprint_exact, Hc by auto. }
  split; [exact E|].
  intros nows. apply run_params; [|reflexivity|reflexivity].
  unfold same_params. rewrite E. auto.
Qed.

Lemma congruent_instances_collide_witness :
  run (new 5 (lit "0042") None (Some (lit "1"))) [today; today + 1]
  = run (new 5 (lit "0042") None (Some (lit "19"))) [today; today + 1].
Proof.
  destruct (congruent_instances_collide 5 (lit "0042") None (lit "1")
              (lit "19")) as [_ H].
  - reflexivity.
  - reflexivity.
  - vm_compute. split; reflexivity.
  - vm_compute. split; reflexivity.
  - reflexivity.
  - apply H.
Defined.

End GeneratorSpec.

(** ** Further properties of the query translator and of the reads *)

Module QuerySpec.
Import JS Mongo Adapter Examples More ObjectFacts AdapterSpec.

(** *** [transformSort] *)

Lemma transformSort_spread l :
  transformSort (SortArray l) = spread [] (map sort_entry l).
Proof.
  unfold transformSort, spread. generalize (@nil (string * value)).
  induction l as [|s l IH]; intros acc; [reflexivity|].
  cbn [map fold_left]. rewrite IH. f_equal. unfold sort_entry.
  now destruct (String.prefix "-" s).
Qed.

Lemma spread_snoc base extra e :
  spread base (extra ++ [e]) = set (spread base extra) (fst e) (snd e).
Proof. unfold spread. now rewrite fold_left_app. Qed.

(** In [{ ...base, ...extra }] the last assignment to a key decides. *)
Lemma get_spread_last extra : forall base k,
  get (spread base extra) k
  = match List.find (fun e => String.eqb (fst e) k) (rev extra) with
    | Some e => Some (snd e)
    | None => get base k
    end.
Proof.
  induction extra as [|e extra IH] using rev_ind; intros base k.
  - reflexivity.
  - rewrite spread_snoc, rev_app_distr. cbn [rev app List.find].
    destruct (String.eqb_spec (fst e) k) as [<-|Hne].
    + apply get_set_eq.
    + rewrite get_set_ne by auto. apply IH.
Qed.

Lemma set_keys o k v :
  map fst (set o k v)
  = if existsb (String.eqb k) (map fst o) then map fst o else map fst o ++ [k].
Proof.
  induction o as [|[k' v'] r IH]; [reflexivity|].
  cbn [set map fst existsb]. rewrite (String.eqb_sym k k').
  destruct (String.eqb k' k); cbn [map fst orb]; [reflexivity|].
  rewrite IH. now destruct (existsb (String.eqb k) (map fst r)).
Qed.

Lemma existsb_eqb_false k l : existsb (String.eqb k) l = false -> ~ In k l.
Proof.
  intros H Hin. assert (E : existsb (String.eqb k) l = true).
  { apply existsb_exists. exists k. split; [auto|apply String.eqb_refl]. }
  congruence.
Qed.

Lemma unique_keys_set o k v : unique_keys o -> unique_keys (set o k v).
Proof.
  unfold unique_keys. intros H. rewrite set_keys.
  destruct (existsb (String.eqb k) (map fst o)) eqn:E; [exact H|].
  apply List.NoDup_app; [exact H|repeat constructor; intros []|].
  intros x Hx [Hk|[]]. subst x. now apply (existsb_eqb_false k (map fst o)).
Qed.

Lemma unique_keys_spread extra : forall base,
  unique_keys base -> unique_keys (spread base extra).
Proof.
  induction extra as [|e extra IH]; intros base H; [exact H|].
  apply (IH (set base (fst e) (snd e))). now apply unique_keys_set.
Qed.

(** X13: from an array of names [transformSort] builds an object with
    every field once; a name that starts with [-] gives the direction -1
    for the rest of the name and any other name the direction 1; when a
    field is named more than once, the last mention decides; and a single
    string is handled as the array that holds it. *)
Theorem transformSort_last_mention_decides l k :
  unique_keys (transformSort (SortArray l))
  /\ get (transformSort (SortArray l)) k
     = option_map snd
         (List.find (fun e => String.eqb (fst e) k) (rev (map sort_entry l)))
  /\ (forall s, transformSort (SortString s) = transformSort (SortArray [s])).
Proof.
  rewrite transformSort_spread. split.
  - apply unique_keys_spread. constructor.
  - split; [|reflexivity]. rewrite get_spread_last.
    now destruct (List.find _ _).
Qed.

(** *** [processSearchParams] *)

Lemma processSearchParams_filter svc svc' text sf sf' :
  List.filter (isFieldSearchable sf) (fields svc)
  = List.filter (isFieldSearchable sf') (fields svc') ->
  processSearchParams svc text sf = processSearchParams svc' text sf'.
Proof.
  intros E. unfold processSearchParams.
  destruct text as [[|c t]|]; auto. now rewrite E.
Qed.

Lemma filter_searchable sf fs :
  List.filter (isFieldSearchable sf) (List.filter search fs)
  = List.filter (isFieldSearchable sf) fs.
Proof.
  induction fs as [|f fs IH]; [reflexivity|].
  cbn [List.filter]. unfold isFieldSearchable at 2.
  destruct (search f) eqn:E; cbn [List.filter andb].
  - unfold isFieldSearchable at 1. rewrite E. cbn [andb].
    destruct (match sf with Some l => _ | None => true end); now rewrite IH.
  - exact IH.
Qed.

(** X14: [processSearchParams] treats an empty [searchFields] array as an
    absent one, never searches a field whose descriptor has no [search]
    flag, whatever [searchFields] names, and returns either nothing or one
    [$or] clause that is not empty. *)
Theorem processSearchParams_searchable_only svc text sf :
  processSearchParams svc text (Some []) = processSearchParams svc text None
  /\ processSearchParams (with_fields svc (List.filter search (fields svc)))
       text sf
     = processSearchParams svc text sf
  /\ (processSearchParams svc text sf = []
      \/ exists q qs, processSearchParams svc text sf = [QOr (q :: qs)]).
Proof.
  split; [|split].
  - apply processSearchParams_filter. apply List.filter_ext.
    intros f. unfold isFieldSearchable. now destruct (search f).
  - apply processSearchParams_filter. apply filter_searchable.
  - unfold processSearchParams. destruct text as [[|c t]|]; auto.
    destruct (map _ _) as [|q qs]; [auto|right; eauto].
Qed.

(** *** [processFilterParams] *)

Lemma filter_step_skip svc acc e :
  kept_entry svc e = false -> filter_step svc acc e = Ret acc.
Proof.
  destruct e as [fld v]. unfold kept_entry, filterable, filter_step.
  cbn [fst snd].
  destruct (existsb _ (fields svc)); cbn [negb andb orb]; [|reflexivity].
  now destruct (value_eqb v (VStr EmptyString)).
Qed.

Lemma filter_reduce_app svc a : forall acc b,
  filter_reduce svc acc (a ++ b)
  = match filter_reduce svc acc a with
    | Throw e => Throw e
    | Ret acc' => filter_reduce svc acc' b
    end.
Proof.
  induction a as [|e a IH]; intros acc b; [reflexivity|].
  cbn [app filter_reduce]. now destruct (filter_step svc acc e).
Qed.

Lemma filter_reduce_skips svc es : forall acc,
  filter_reduce svc acc es
  = filter_reduce svc acc (List.filter (kept_entry svc) es).
Proof.
  induction es as [|e es IH]; intros acc; [reflexivity|].
  cbn [List.filter filter_reduce].
  destruct (kept_entry svc e) eqn:K.
  - cbn [filter_reduce]. now destruct (filter_step svc acc e).
  - now rewrite filter_step_skip.
Qed.

(** X15: [processFilterParams] passes over every entry of the filter
    whose field is not a filterable field of the service or whose value
    is the empty string: leaving such entries out changes nothing. *)
Theorem processFilterParams_skips svc es :
  processFilterParams svc (Some es)
  = processFilterParams svc (Some (List.filter (kept_entry svc) es)).
Proof. apply filter_reduce_skips. Qed.

Lemma filter_step_null svc acc fld v :
  filterable svc fld = true -> v = VNull \/ v = VUndefined ->
  filter_step svc acc (fld, v) = Throw TypeError.
Proof.
  unfold filterable, filter_step. intros -> [->| ->]; reflexivity.
Qed.

Lemma filter_reduce_null svc fld v es :
  In (fld, v) es -> filterable svc fld = true ->
  v = VNull \/ v = VUndefined ->
  forall acc, filter_reduce svc acc es = Throw TypeError.
Proof.
  intros Hin Hf Hv. induction es as [|e es IH]; intros acc; [destruct Hin|].
  cbn [filter_reduce]. destruct Hin as [->|Hin].
  - now rewrite filter_step_null.
  - destruct (filter_step svc acc e) as [acc'|err] eqn:E; [now apply IH|].
    f_equal. apply (filter_reduce_throws svc [e] acc).
    cbn [filter_reduce]. now rewrite E.
Qed.

(** X16: a [null] or [undefined] value under a filterable field makes
    [parseParams] throw a [TypeError], and with it [find] and [count],
    whatever else the parameters hold. *)
Theorem null_filter_value_throws svc docs p es fld v :
  p_filter p = Some es -> In (fld, v) es ->
  filterable svc fld = true -> v = VNull \/ v = VUndefined ->
  parseParams svc p = Throw TypeError
  /\ find svc docs (Some p) = Throw TypeError
  /\ count svc docs (Some p) = Throw TypeError.
Proof.
  intros Hp Hin Hf Hv.
  assert (E : parseParams svc p = Throw TypeError).
  { unfold parseParams, processFilterParams. rewrite Hp.
    now rewrite (filter_reduce_null svc fld v es). }
  split; [exact E|].
  unfold find, count, createQuery. now rewrite E.
Qed.

Lemma null_filter_value_throws_witness :
  find status_service status_entities
    (Some (filter_params [("status"%string, VNull)]))
  = Throw TypeError.
Proof.
  destruct (null_filter_value_throws status_service status_entities
              (filter_params [("status"%string, VNull)])
              [("status"%string, VNull)] "status" VNull) as (_ & H & _).
  - reflexivity.
  - left. reflexivity.
  - reflexivity.
  - left. reflexivity.
  - exact H.
Defined.

Lemma filter_step_number svc acc fld n :
  filter_step svc acc (fld, VNum n)
  = if filterable svc fld then Ret (acc ++ [QExprInput fld]) else Ret acc.
Proof.
  unfold filter_step, filterable.
  now destruct (existsb _ (fields svc)).
Qed.

Lemma parseParams_filter svc p f f' :
  processFilterParams svc (Some f) = processFilterParams svc (Some f') ->
  parseParams svc (with_filter p f) = parseParams svc (with_filter p f').
Proof.
  intros E. unfold parseParams. cbn [p_filter with_filter]. now rewrite E.
Qed.

(** X17: the value of a strict filter on a number is not used: whatever
    number the filter gives for a field, [processFilterParams] builds the
    same clause, which names the field only, and [find] returns the
    same. *)
Theorem strict_number_filter_ignores_value svc docs p a b fld n m :
  processFilterParams svc (Some (a ++ (fld, VNum n) :: b))
  = processFilterParams svc (Some (a ++ (fld, VNum m) :: b))
  /\ find svc docs (Some (with_filter p (a ++ (fld, VNum n) :: b)))
     = find svc docs (Some (with_filter p (a ++ (fld, VNum m) :: b)))
  /\ (filterable svc fld = true ->
      forall acc,
        filter_step svc acc (fld, VNum n) = Ret (acc ++ [QExprInput fld])).
Proof.
  assert (E : processFilterParams svc (Some (a ++ (fld, VNum n) :: b))
              = processFilterParams svc (Some (a ++ (fld, VNum m) :: b))).
  { unfold processFilterParams. rewrite !filter_reduce_app.
    destruct (filter_reduce svc [] a) as [acc|e]; [|reflexivity].
    cbn [filter_reduce]. now rewrite !filter_step_number. }
  split; [exact E|]. split.
  - unfold find, createQuery.
    now rewrite (parseParams_filter svc p _ _ E).
  - intros Hf acc. now rewrite filter_step_number, Hf.
Qed.

Lemma strict_number_filter_ignores_value_witness :
  find status_service status_entities
    (Some (with_filter no_params [("status"%string, VNum 1)]))
  = find status_service status_entities
      (Some (with_filter no_params [("status"%string, VNum 2)]))
  /\ filter_step status_service [] ("status"%string, VNum 1)
     = Ret [QExprInput "status"].
Proof.
  destruct (strict_number_filter_ignores_value status_service status_entities
              no_params [] [] "status" 1 2) as (_ & H1 & H2).
  split; [exact H1|]. apply (H2 eq_refl []).
Defined.

(** *** Reading through a filter *)

Lemma select_filter docs q f :
  (forall d, matches d q = Some (f d)) ->
  select docs q = Some (List.filter f docs).
Proof.
  intros H. induction docs as [|d docs IH]; [reflexivity|].
  cbn [select List.filter]. rewrite H, IH. now destruct (f d).
Qed.

Lemma filter_all {A} (l : list A) : List.filter (fun _ => true) l = l.
Proof. induction l; simpl; congruence. Qed.

Lemma select_all docs : select docs QEmpty = Some docs.
Proof.
  rewrite (select_filter docs QEmpty (fun _ => true)) by reflexivity.
  now rewrite filter_all.
Qed.

Lemma plain_not_operator v : plain v = true -> is_operator_doc v = false.
Proof. now destruct v. Qed.

Lemma matches_eq d fld v :
  plain v = true -> matches d (QEq fld v) = Some (eq_match d fld v).
Proof.
  intros H. cbn [matches]. now rewrite plain_not_operator.
Qed.

Lemma matches_or_eq d fld vs :
  forallb plain vs = true ->
  matches d (QOr (map (QEq fld) vs)) = Some (existsb (eq_match d fld) vs).
Proof.
  intros H. induction vs as [|v vs IH]; [reflexivity|].
  cbn [forallb] in H. apply andb_true_iff in H as [Hv Hvs].
  specialize (IH Hvs). cbn [map existsb].
  change (matches d (QOr (QEq fld v :: map (QEq fld) vs)))
    with (match matches d (QEq fld v), matches d (QOr (map (QEq fld) vs)) with
          | Some a, Some b => Some (a || b)
          | _, _ => None
          end).
  now rewrite matches_eq, IH.
Qed.

Lemma matches_and_one d q :
  matches d (QAnd [q]) = match matches d q with
                         | Some a => Some a
                         | None => None
                         end.
Proof.
  change (matches d (QAnd [q]))
    with (match matches d q, Some true with
          | Some a, Some b => Some (a && b)
          | _, _ => None
          end).
  destruct (matches d q) as [a|]; [|reflexivity]. now rewrite andb_true_r.
Qed.

Lemma strict_clauses fld vs :
  forallb plain vs = true ->
  map (fun v => buildStandardStrict fld v (typeof v)) vs = map (QEq fld) vs.
Proof.
  induction vs as [|v vs IH]; [reflexivity|]. cbn [forallb map].
  intros H. apply andb_true_iff in H as [Hv Hvs]. rewrite IH by auto.
  f_equal. now destruct v.
Qed.

Lemma find_filter_params svc docs es q :
  filter_reduce svc [] es = Ret [q] ->
  find svc docs (Some (filter_params es)) = Ret (select docs (QAnd [q])).
Proof.
  intros E. unfold find, createQuery, parseParams, processFilterParams.
  cbn [p_filter filter_params p_search_text searchFields query].
  rewrite E. cbn [processSearchParams app].
  cbn [sort sort_truthy filter_params offset limit positive_number hint truthy
       collation andb].
  unfold toArray. cbn [c_sort c_query c_skip c_limit].
  destruct (select docs (QAnd [q])); reflexivity.
Qed.

(** X18: a filter that gives a filterable field a boolean or a non-empty
    string returns the documents whose field equals it, in stored order;
    an array of booleans and strings returns the documents whose field
    equals one of them; and an empty array restricts nothing. *)
Theorem find_by_plain_values svc docs fld :
  filterable svc fld = true ->
  (forall v, plain v = true -> v <> VStr EmptyString ->
     find svc docs (Some (filter_params [(fld, v)]))
     = Ret (Some (List.filter (fun d => eq_match d fld v) docs)))
  /\ (forall vs, forallb plain vs = true ->
        find svc docs (Some (filter_params [(fld, VArr vs)]))
        = Ret (Some (match vs with
                     | [] => docs
                     | _ => List.filter
                              (fun d => existsb (eq_match d fld) vs) docs
                     end))).
Proof.
  intros Hf. unfold filterable in Hf. split.
  - intros v Hv Hne.
    rewrite (find_filter_params svc docs _ (QEq fld v)).
    + f_equal. apply select_filter. intros d.
      now rewrite matches_and_one, matches_eq.
    + cbn [filter_reduce]. unfold filter_step. rewrite Hf.
      destruct v as [| |b|n|s|l|o]; try discriminate Hv; [reflexivity|].
      destruct s as [|c s]; [congruence|reflexivity].
  - intros vs Hvs. destruct vs as [|v [|v' vs]].
    + unfold find, createQuery, parseParams, processFilterParams.
      cbn [p_filter filter_params filter_reduce]. unfold filter_step.
      rewrite Hf. cbn. now rewrite select_all.
    + rewrite (find_filter_params svc docs _ (QEq fld v)).
      * f_equal. apply select_filter. intros d.
        cbn [forallb] in Hvs. apply andb_true_iff in Hvs as [Hv _].
        rewrite matches_and_one, matches_eq by auto.
        cbn [existsb]. now rewrite orb_false_r.
      * cbn [filter_reduce]. unfold filter_step. rewrite Hf.
        cbn [forallb] in Hvs. apply andb_true_iff in Hvs as [Hv _].
        now destruct v.
    + rewrite (find_filter_params svc docs _
                 (QOr (map (QEq fld) (v :: v' :: vs)))).
      * f_equal. apply select_filter. intros d.
        now rewrite matches_and_one, matches_or_eq.
      * cbn [filter_reduce]. unfold filter_step. rewrite Hf.
        cbn [negb orb value_eqb prop truthy andb].
        rewrite strict_clauses by auto. reflexivity.
Qed.

Lemma find_by_plain_values_witness :
  find status_service status_entities
    (Some (filter_params [("status"%string, VBool false)]))
  = Ret (Some [entity_false])
  /\ find status_service status_entities
       (Some (filter_params [("status"%string, VArr [])]))
     = Ret (Some status_entities).
Proof.
  destruct (find_by_plain_values status_service status_entities "status")
    as [H1 H2]; [reflexivity|].
  split.
  - rewrite (H1 (VBool false)); [reflexivity|reflexivity|discriminate].
  - rewrite (H2 []); reflexivity.
Defined.

(** *** [findOne] *)

(** Whether a query is in the evaluated part does not depend on the
    document. *)
Lemma matches_defined d d' :
  forall q, matches d q = None -> matches d' q = None.
Proof.
  fix IH 1. intros [f v|f r o|f r o|f|qs|qs|]; cbn [matches];
    try reflexivity; try discriminate.
  - destruct (is_operator_doc v); [reflexivity|discriminate].
  - induction qs as [|q qs IHqs]; [discriminate|].
    pose proof (IH q) as Hq.
    destruct (matches d q) as [a|].
    + destruct ((fix any (qs : list Mongo.query) : option bool :=
                   match qs with
                   | [] => Some false
                   | q :: r =>
                       match matches d q, any r with
                       | Some a, Some b => Some (a || b)
                       | _, _ => None
                       end
                   end) qs) as [b|]; [discriminate|].
      intros _. rewrite IHqs by reflexivity.
      now destruct (matches d' q).
    + intros _. now rewrite Hq.
  - induction qs as [|q qs IHqs]; [discriminate|].
    pose proof (IH q) as Hq.
    destruct (matches d q) as [a|].
    + destruct ((fix all (qs : list Mongo.query) : option bool :=
                   match qs with
                   | [] => Some true
                   | q :: r =>
                       match matches d q, all r with
                       | Some a, Some b => Some (a && b)
                       | _, _ => None
                       end
                   end) qs) as [b|]; [discriminate|].
      intros _. rewrite IHqs by reflexivity.
      now destruct (matches d' q).
    + intros _. now rewrite Hq.
Qed.

Lemma select_defined d q b docs :
  matches d q = Some b -> exists l, select docs q = Some l.
Proof.
  intros H. induction docs as [|d' docs [l IH]]; [now exists []|].
  cbn [select]. rewrite IH.
  destruct (matches d' q) as [[|]|] eqn:E; eauto.
  apply (matches_defined d' d) in E. congruence.
Qed.

Lemma collection_findOne_select docs q :
  collection_findOne docs q = l ← select docs q; Some (head l).
Proof.
  induction docs as [|d docs IH]; [reflexivity|].
  cbn [collection_findOne select].
  destruct (matches d q) as [[|]|] eqn:E; [| |reflexivity].
  - destruct (select_defined d q true docs E) as [l ->]. reflexivity.
  - rewrite IH. now destruct (select docs q).
Qed.

(** X19: without a [sort], [findOne] returns the first document, in
    stored order, of those that [find] returns for the same parameters
    without [offset] and [limit], or [null] when there is none: the
    paging parameters are not used. *)
Theorem findOne_is_first_found svc docs p :
  sort_truthy (sort p) = false ->
  findOne svc docs p
  = match find svc docs (Some (unpaged p)) with
    | Throw e => Throw e
    | Ret r => Ret (l ← r; Some (head l))
    end.
Proof.
  intros Hs. unfold findOne, find, createQuery. rewrite Hs.
  change (parseParams svc (unpaged p)) with (parseParams svc p).
  destruct (parseParams svc p) as [q|e]; [|reflexivity].
  cbn [sort unpaged sort_truthy offset limit positive_number].
  unfold toArray. cbn [c_sort c_query c_skip c_limit].
  rewrite collection_findOne_select.
  now destruct (select docs q).
Qed.

Lemma findOne_is_first_found_witness :
  findOne status_service status_entities
    {| query := None; p_search_text := None; searchFields := None;
       p_filter := Some [("status"%string, VBool false)]; sort := None;
       limit := VNum 1; offset := VNum 1; collation := VUndefined;
       hint := VUndefined |}
  = Ret (Some (Some entity_false)).
Proof.
  rewrite findOne_is_first_found; reflexivity.
Defined.

(** X24: without parameters [find] returns every stored document in
    stored order and [count] their number; so does [find] for a filter in
    which every entry names a field that is not filterable or gives the
    empty string. *)
Theorem unrestricted_find_returns_all svc docs :
  find svc docs None = Ret (Some docs)
  /\ count svc docs None = Ret (Some (Z.of_nat (length docs)))
  /\ (forall es, forallb (fun e => negb (kept_entry svc e)) es = true ->
        find svc docs (Some (filter_params es)) = Ret (Some docs)).
Proof.
  split; [|split].
  - unfold find, createQuery, toArray. cbn. now rewrite select_all.
  - unfold count, createQuery. now rewrite select_all.
  - intros es Hes.
    assert (E : List.filter (kept_entry svc) es = []).
    { induction es as [|e es IH]; [reflexivity|].
      cbn [forallb] in Hes. apply andb_true_iff in Hes as [He Hes].
      cbn [List.filter]. destruct (kept_entry svc e); [discriminate|auto]. }
    unfold find, createQuery, parseParams, processFilterParams.
    cbn [p_filter filter_params]. rewrite filter_reduce_skips, E.
    cbn. now rewrite select_all.
Qed.

Lemma unrestricted_find_returns_all_witness :
  find status_service status_entities
    (Some (filter_params [("name"%string, VStr "x");
                          ("status"%string, VStr EmptyString)]))
  = Ret (Some status_entities).
Proof.
  destruct (unrestricted_find_returns_all status_service status_entities)
    as (_ & _ & H).
  apply H. reflexivity.
Defined.

End QuerySpec.

(** ** Further properties of the writes *)

Module StoreSpec.
Import JS Numeral Snowflake Run Mongo Adapter Examples More
  GeneratorFacts OrderFacts ObjectFacts QuerySpec.

(** *** Failures *)

Lemma addIdToEntity_throws svc g now entity e g' :
  addIdToEntity svc g now entity = (Throw e, g') -> e = TypeError.
Proof.
  unfold addIdToEntity, generate.
  destruct (primaryField svc) as [pf|]; [|now intros [= <- _]].
  destruct (String.eqb (generated pf) "user"); [discriminate|].
  destruct (next_seq g (now - epoch)) as [s time].
  destruct (hexToDec _); [discriminate|]. now intros [= <- _].
Qed.

Lemma remap_throws svc clock entities : forall g i e g',
  remap svc g clock i entities = (Throw e, g') -> e = TypeError.
Proof.
  induction entities as [|ent rest IH]; intros g i e g'; cbn [remap].
  - discriminate.
  - destruct (addIdToEntity svc g (clock i) ent) as [[d|err] g1] eqn:E.
    + destruct (remap svc g1 clock (S i) rest) as [[l|err] g2] eqn:E2.
      * discriminate.
      * intros [= <- _]. eapply IH; eauto.
    + intros [= <- _]. eapply addIdToEntity_throws; eauto.
Qed.

(** X20: [insert] turns every failure, of the generator or of the driver,
    into the error [Creating Record Failed]; [insertMany] does so only for
    the driver: an exception of [addIdToEntity] leaves it as it is, since
    the identifiers are added before the [try] block. *)
Theorem insert_wraps_every_failure svc w now clock oid oids r entity rest flag :
  (forall e, fst (insert svc w now oid r entity) = Throw e ->
             e = Error "Creating Record Failed")
  /\ (forall e, fst (insertMany svc w clock oids r (entity :: rest) flag)
                = Throw e ->
                e = Error "Creating Many Records Failed" \/ e = TypeError)
  /\ (primaryField svc = None ->
      fst (insert svc w now oid r entity)
      = Throw (Error "Creating Record Failed")
      /\ fst (insertMany svc w clock oids r (entity :: rest) flag)
         = Throw TypeError).
Proof.
  split; [|split].
  - intros e. unfold insert.
    destruct (addIdToEntity svc (gen w) now entity) as [[d|err] g].
    + destruct r; cbn; intros H; inversion H; reflexivity.
    + cbn. intros H. inversion H. reflexivity.
  - intros e. unfold insertMany.
    destruct (remap svc (gen w) clock 0 (entity :: rest)) as [[l|err] g] eqn:E.
    + destruct r; cbn; intros H; inversion H; auto.
    + cbn. intros [= <-]. right. eapply remap_throws; eauto.
  - intros Hpf. unfold insert, insertMany. cbn [remap].
    unfold addIdToEntity. rewrite Hpf. split; reflexivity.
Qed.

Lemma insert_wraps_every_failure_witness :
  fst (insert status_service {| coll := []; gen := generator |} today
         (VStr "oid") Acknowledged entity_true)
  = Throw (Error "Creating Record Failed")
  /\ fst (insertMany status_service {| coll := []; gen := generator |}
            (fun _ => today) (fun _ => VStr "oid") Acknowledged
            [entity_true] true)
     = Throw TypeError.
Proof.
  destruct (insert_wraps_every_failure status_service
              {| coll := []; gen := generator |} today (fun _ => today)
              (VStr "oid") (fun _ => VStr "oid") Acknowledged entity_true []
              true) as (_ & _ & H).
  apply H. reflexivity.
Defined.

(** *** The generated key *)

(** X21: for an entity without the primary column, [insert] stores and
    returns an object that carries the generated identifier under the
    primary column and every other property of the entity unchanged; when
    the keys are generated by the user it stores the entity as it is and
    does not call the generator. *)
Theorem insert_adds_generated_key svc pf w now oid entity :
  primaryField svc = Some pf ->
  (generated pf <> "user"%string -> unique_keys entity ->
   get entity (columnName pf) = None ->
   forall id g', generate (gen w) now = (Ret id, g') ->
     exists e,
       insert svc w now oid Acknowledged entity
       = (Ret e, {| coll := coll w ++ [e]; gen := g' |})
       /\ get e (columnName pf) = Some (VStr (string_of_list_ascii id))
       /\ (forall k, k <> columnName pf -> k <> "_id"%string ->
             get e k = get entity k))
  /\ (generated pf = "user"%string ->
      insert svc w now oid Acknowledged entity
      = (Ret (with_id entity oid),
         {| coll := coll w ++ [with_id entity oid]; gen := gen w |})).
Proof.
  intros Hpf. split.
  - intros Hg Hu Hk id g' Hgen.
    set (v := VStr (string_of_list_ascii id)).
    exists (with_id (spread [(columnName pf, v)] entity) oid).
    split; [|split].
    + unfold insert, addIdToEntity. rewrite Hpf, Hgen.
      destruct (String.eqb_spec (generated pf) "user") as [E|_];
        [contradiction|reflexivity].
    + apply get_with_id. rewrite get_spread by exact Hu. rewrite Hk.
      cbn [get]. now rewrite String.eqb_refl.
    + intros k Hc Hi.
      assert (E : get (spread [(columnName pf, v)] entity) k = get entity k).
      { rewrite get_spread by exact Hu.
        destruct (get entity k); [reflexivity|]. cbn [get].
        destruct (String.eqb_spec (columnName pf) k); [congruence|reflexivity]. }
      unfold with_id.
      destruct (get (spread [(columnName pf, v)] entity) "_id"); [exact E|].
      rewrite get_set_ne by congruence. exact E.
  - intros Hg. unfold insert, addIdToEntity. rewrite Hpf, Hg. reflexivity.
Qed.

Lemma insert_adds_generated_key_witness :
  exists id e w',
    insert id_service {| coll := []; gen := generator |} today (VStr "oid")
      Acknowledged [("name"%string, VStr "a")]
    = (Ret e, w')
    /\ get e "id" = Some (VStr id)
    /\ get e "name" = Some (VStr "a").
Proof.
  destruct (insert_adds_generated_key id_service
              {| columnName := "id"; generated := "system" |}
              {| coll := []; gen := generator |} today (VStr "oid")
              [("name"%string, VStr "a")] eq_refl) as [H _].
  destruct (generate generator today) as [[id|err] g'] eqn:E;
    [|vm_compute in E; discriminate E].
  destruct (H ltac:(discriminate) ltac:(repeat constructor; simpl; tauto)
              eq_refl id g' E) as (e & He & Hid & Hrest).
  exists (string_of_list_ascii id), e. eexists.
  split; [exact He|]. split; [exact Hid|].
  rewrite (Hrest "name"%string); [reflexivity|discriminate|discriminate].
Defined.

(** *** Reading back what was inserted *)

Lemma collection_findOne_app docs q doc :
  (forall d, In d docs -> matches d q = Some false) ->
  matches doc q = Some true ->
  collection_findOne (docs ++ [doc]) q = Some (Some doc).
Proof.
  intros Hd Hm. induction docs as [|d docs IH]; cbn [app collection_findOne].
  - now rewrite Hm.
  - rewrite (Hd d) by now left. apply IH. intros d' Hin. apply Hd. now right.
Qed.

Lemma insert_stored svc w now oid r entity doc w' :
  insert svc w now oid r entity = (Ret doc, w') -> coll w' = coll w ++ [doc].
Proof.
  unfold insert.
  destruct (addIdToEntity svc (gen w) now entity) as [[e|err] g];
    [|discriminate].
  destruct r; cbn; intros H; inversion H; reflexivity.
Qed.

(** X22: a document that [insert] has returned is found again by
    [findById] under the string it carries as [id], provided no document
    stored before has that [id]. *)
Theorem insert_then_findById svc w now oid r entity doc w' s :
  insert svc w now oid r entity = (Ret doc, w') ->
  get doc "id" = Some (VStr s) ->
  (forall d, In d (coll w) -> eq_match d "id" (VStr s) = false) ->
  findById (coll w') (VStr s) = Some (Some doc).
Proof.
  intros Hins Hid Hnew. unfold findById.
  rewrite (insert_stored _ _ _ _ _ _ _ _ Hins).
  apply collection_findOne_app.
  - intros d Hin. rewrite matches_eq by reflexivity. now rewrite Hnew.
  - rewrite matches_eq by reflexivity. unfold eq_match. rewrite Hid.
    cbn [value_eqb]. now rewrite String.eqb_refl.
Qed.

Lemma insert_then_findById_witness :
  exists doc w',
    insert id_service {| coll := []; gen := generator |} today (VStr "oid")
      Acknowledged [("id"%string, VStr "mine")]
    = (Ret doc, w')
    /\ findById (coll w') (VStr "mine") = Some (Some doc).
Proof.
  destruct (insert id_service {| coll := []; gen := generator |} today
              (VStr "oid") Acknowledged [("id"%string, VStr "mine")])
    as [[doc|e] w'] eqn:E; [|vm_compute in E; discriminate E].
  exists doc, w'. split; [reflexivity|].
  apply (insert_then_findById _ _ _ _ _ _ _ _ "mine" E).
  - vm_compute in E. inversion E. reflexivity.
  - intros d [].
Defined.

(** *** The identifiers of [insertMany] *)

(** The calls of a generator whose counter is zero, at non-decreasing
    readings with at most 4096 to a tick. *)
Lemma run_increasing st nows :
  wf_state st = true -> Snowflake.seq st = 0 ->
  Sorted Z.le nows ->
  (forall u, (count_occ Z.eq_dec nows u <= 4096)%nat) ->
  Forall (in_range st) nows ->
  exists ids,
    run st nows = map Ret ids
    /\ Forall (fun id => numeral 10 id = true /\ length id = 23%nat) ids
    /\ StronglySorted num_lt ids.
Proof.
  intros Hwf Hseq Hsorted Hcnt Hin.
  destruct nows as [|now rest].
  - exists []. repeat split; constructor.
  - apply Sorted_StronglySorted in Hsorted;
      [|intros x y z; apply Z.le_trans].
    inversion Hin as [|? ? Hnow Hrest]; subst.
    destruct (generate_step st now Hwf Hnow)
      as (id & Hout & Hnum & Hlen & Hval & Hwf' & Hp & Hns).
    set (st' := snd (generate st now)) in *.
    assert (Hinv : tick_inv st' now 1).
    { left. unfold next_seq in Hns. rewrite Hseq in Hns.
      destruct (lastTime st =? now - epoch) eqn:E;
        simpl in Hns; inversion Hns; lia. }
    destruct (run_chain rest st' now 1 Hwf' Hinv Hsorted)
      as (ids & Hrun & Hids & Hss & Hgt).
    { specialize (Hcnt now). simpl in Hcnt.
      destruct (Z.eq_dec now now); [lia|congruence]. }
    { intros u. etransitivity;
        [apply (count_occ_tail rest now u)|apply Hcnt]. }
    { eapply List.Forall_impl; [|exact Hrest].
      intros a Ha. now apply (in_range_params st). }
    rewrite (id_value_params st st') in Hgt by auto.
    rewrite <- Hval in Hgt.
    exists (id :: ids). split; [|split].
    + rewrite run_cons. fold st'. rewrite Hout, Hrun. reflexivity.
    + constructor; auto.
    + constructor; [exact Hss|exact Hgt].
Qed.

Lemma remap_ids svc pf clock entities : forall g i ids,
  primaryField svc = Some pf -> generated pf <> "user"%string ->
  Forall (fun e => unique_keys e /\ get e (columnName pf) = None) entities ->
  run g (map clock (List.seq i (length entities))) = map Ret ids ->
  exists l g',
    remap svc g clock i entities = (Ret l, g')
    /\ map (fun d => get d (columnName pf)) l
       = map (fun id => Some (VStr (string_of_list_ascii id))) ids.
Proof.
  induction entities as [|ent rest IH]; intros g i ids Hpf Hg Hents Hrun.
  - destruct ids; [|discriminate Hrun]. exists [], g. split; reflexivity.
  - inversion Hents as [|? ? [Hu Hk] Hrest]; subst.
    cbn [length List.seq map] in Hrun. rewrite run_cons in Hrun.
    destruct ids as [|id ids]; [discriminate Hrun|].
    cbn [map] in Hrun. injection Hrun as Hout Hrun'.
    destruct (IH (snd (generate g (clock i))) (S i) ids Hpf Hg Hrest Hrun')
      as (l & g' & Hl & Hcol).
    cbn [remap]. unfold addIdToEntity. rewrite Hpf.
    destruct (String.eqb_spec (generated pf) "user") as [E|_]; [contradiction|].
    destruct (generate g (clock i)) as [o g1]. cbn [fst snd] in *. subst o.
    rewrite Hl. eexists; eexists. split; [reflexivity|].
    cbn [map]. rewrite Hcol. f_equal.
    rewrite get_spread by exact Hu. rewrite Hk. cbn [get].
    now rewrite String.eqb_refl.
Qed.

Lemma with_ids_column col docs : forall oids i vs,
  map (fun d => get d col) docs = map Some vs ->
  map (fun d => get d col) (with_ids docs oids i) = map Some vs.
Proof.
  induction docs as [|d docs IH]; intros oids i vs H.
  - exact H.
  - destruct vs as [|v vs]; [discriminate H|].
    cbn [map] in H. injection H as Hd Hrest.
    cbn [with_ids map]. rewrite (IH oids (S i) vs Hrest).
    now rewrite (get_with_id d (oids i) col v Hd).
Qed.

(** X23: [insertMany] on entities without the primary column stores them
    with the identifiers that the generator returns at the successive
    clock readings, in the order of the array; for a generator as the
    constructor leaves it and a clock that does not go back, with at most
    4096 readings to a tick, these stored identifiers are strictly
    increasing strings. *)
Theorem insertMany_stores_increasing_ids svc pf w clock oids entities flag :
  primaryField svc = Some pf -> generated pf <> "user"%string ->
  Forall (fun e => unique_keys e /\ get e (columnName pf) = None) entities ->
  let nows := map clock (List.seq 0 (length entities)) in
  wf_state (gen w) = true -> Snowflake.seq (gen w) = 0 ->
  Sorted Z.le nows ->
  (forall u, (count_occ Z.eq_dec nows u <= 4096)%nat) ->
  Forall (in_range (gen w)) nows ->
  exists ids docs res g',
    insertMany svc w clock oids Acknowledged entities flag
    = (Ret res, {| coll := coll w ++ docs; gen := g' |})
    /\ map (fun d => get d (columnName pf)) docs
       = map (fun id => Some (VStr (string_of_list_ascii id))) ids
    /\ run (gen w) nows = map Ret ids
    /\ StronglySorted str_lt ids.
Proof.
  intros Hpf Hg Hents nows Hwf Hseq Hsorted Hcnt Hin.
  destruct (run_increasing (gen w) nows Hwf Hseq Hsorted Hcnt Hin)
    as (ids & Hrun & Hids & Hss).
  destruct (remap_ids svc pf clock entities (gen w) 0%nat ids Hpf Hg Hents Hrun)
    as (l & g' & Hl & Hcol).
  exists ids, (with_ids l oids 0), (if flag
                then map VObj (if shares_entities svc
                               then with_ids l oids 0 else entities)
                else map (fun d => default VUndefined (get d "_id"))
                       (with_ids l oids 0)), g'.
  split; [|split; [|split]].
  - unfold insertMany. rewrite Hl. reflexivity.
  - rewrite <- (map_map (fun id => VStr (string_of_list_ascii id)) Some).
    apply with_ids_column. now rewrite map_map.
  - exact Hrun.
  - now apply sorted_str_lt.
Qed.

Lemma insertMany_stores_increasing_ids_witness :
  exists ids docs res g',
    insertMany id_service {| coll := []; gen := generator |}
      (fun i => today + Z.of_nat i) (fun _ => VStr "oid") Acknowledged
      [[("name"%string, VStr "a")]; [("name"%string, VStr "b")]] false
    = (Ret res, {| coll := [] ++ docs; gen := g' |})
    /\ map (fun d => get d "id") docs
       = map (fun id => Some (VStr (string_of_list_ascii id))) ids
    /\ StronglySorted str_lt ids.
Proof.
  destruct (insertMany_stores_increasing_ids id_service
              {| columnName := "id"; generated := "system" |}
              {| coll := []; gen := generator |}
              (fun i => today + Z.of_nat i) (fun _ => VStr "oid")
              [[("name"%string, VStr "a")]; [("name"%string, VStr "b")]] false)
    as (ids & docs & res & g' & H1 & H2 & _ & H3).
  - reflexivity.
  - discriminate.
  - repeat constructor; simpl; tauto.
  - reflexivity.
  - reflexivity.
  - repeat constructor; vm_compute; congruence.
  - intros u.
    pose proof (count_occ_bound Z.eq_dec u
                  (map (fun i => today + Z.of_nat i) (List.seq 0 2))) as H.
    simpl length in H. simpl. simpl in H. lia.
  - repeat constructor; vm_compute; congruence.
  - exists ids, docs, res, g'. split; [exact H1|]. split; [exact H2|exact H3].
Defined.

(** *** [createIndex] *)

Lemma get_index_fold l : forall acc k,
  get (fold_left (fun a b => set a b (VNum 1)) l acc) k
  = if existsb (String.eqb k) l then Some (VNum 1) else get acc k.
Proof.
  induction l as [|s l IH]; intros acc k; [reflexivity|].
  cbn [fold_left existsb]. rewrite IH.
  destruct (existsb (String.eqb k) l); [now rewrite orb_true_r|].
  rewrite orb_false_r. destruct (String.eqb_spec k s) as [->|Hne].
  - apply get_set_eq.
  - apply get_set_ne. congruence.
Qed.

Lemma unique_keys_index_fold l : forall acc,
  unique_keys acc ->
  unique_keys (fold_left (fun a b => set a b (VNum 1)) l acc).
Proof.
  induction l as [|s l IH]; intros acc H; [exact H|].
  cbn [fold_left]. apply IH. now apply unique_keys_set.
Qed.

(** X25: [createIndex] hands the driver a key specification in which
    every name of an array of fields occurs once, with the value 1, and
    no other key; a single name gives the same as the array that holds
    it; and when the driver throws the result is [false]. *)
Theorem createIndex_normalises_fields driver def l :
  i_fields def = SortArray l ->
  unique_keys (index_fields def)
  /\ (forall k, get (index_fields def) k
                = if existsb (String.eqb k) l then Some (VNum 1) else None)
  /\ (forall s def', i_fields def' = SortString s -> l = [s] ->
        index_fields def' = index_fields def)
  /\ (forall e, driver (index_fields def) def = Throw e ->
                createIndex driver def = VBool false).
Proof.
  intros Hl. unfold createIndex, index_fields. rewrite Hl.
  split; [|split; [|split]].
  - apply unique_keys_index_fold. constructor.
  - intros k. now rewrite get_index_fold.
  - intros s def' Hs ->. now rewrite Hs.
  - intros e He. now rewrite He.
Qed.

Lemma createIndex_normalises_fields_witness :
  unique_keys
    (index_fields
       {| i_fields := SortArray ["a"%string; "b"%string; "a"%string];
          i_name := None; i_unique := false |})
  /\ get (index_fields
            {| i_fields := SortArray ["a"%string; "b"%string; "a"%string];
               i_name := None; i_unique := false |}) "c"
     = None.
Proof.
  destruct (createIndex_normalises_fields (fun _ _ => Throw TypeError)
              {| i_fields := SortArray ["a"%string; "b"%string; "a"%string];
                 i_name := None; i_unique := false |}
              ["a"%string; "b"%string; "a"%string] eq_refl) as (H1 & H2 & _).
  split; [exact H1|apply H2].
Defined.

End StoreSpec.
